(** * geowiki-lib-app: the state store, its URL codec and the bootstrap

    A shallow embedding of the classes [State] (state.js) and [App]
    (App.js), both delivered inside [src/src/twigGet.js], together with
    the JavaScript built-ins and the functions of the [query-string]
    package they call.

    Conventions of the model
    - A JavaScript string is the byte string of its UTF-8 encoding
      ([string] of [ascii]); strings with lone surrogates have no such
      encoding and are outside the model, and so are percent-escapes that
      decode to ill-formed UTF-8. White space is the ASCII white space.
    - A JavaScript number is an exact decimal fraction [Dec m s]
      (the value [m / 10^s]), [NaN] or an infinity; the rounding of
      binary64 and the sign of zero are not modelled.
    - An object is a finite map from property names to values; the order
      of properties plays no part, and no property name is special.
    - Objects live in a store of locations, so that a copy and an update
      in place are told apart.
    - A function that throws returns [Throw]; the handlers registered
      on the emitter are part of the world the methods run in. *)

From Stdlib Require Import ZArith String Ascii List Lia Bool Decimal DecimalString
  DecimalPos DecimalN.
From stdpp Require Import base option gmap strings list sorting.

Local Open Scope string_scope.
Local Open Scope Z_scope.
Local Open Scope list_scope.

(** ** Exceptions *)

Inductive exn : Type :=
  | TypeError (msg : string)
  | URIError (msg : string)
  | Error (msg : string).

Definition message (e : exn) : string :=
  match e with TypeError m | URIError m | Error m => m end.

Inductive result (A : Type) : Type :=
  | Ok (a : A)
  | Throw (e : exn).
Arguments Ok {A} a.
Arguments Throw {A} e.

Definition rbind {A B} (r : result A) (k : A → result B) : result B :=
  match r with Ok a => k a | Throw e => Throw e end.

Global Instance result_ret : MRet result := @Ok.
Global Instance result_bind : MBind result := λ A B k r, rbind r k.

(** ** Strings *)

Module Str.

Definition eqb_ascii (a b : ascii) : bool := Ascii.eqb a b.

Fixpoint mem (c : ascii) (s : string) : bool :=
  match s with
  | EmptyString => false
  | String d t => eqb_ascii c d || mem c t
  end.

(** [s.search(c)] for a one-character pattern without special meaning:
    the index of the first occurrence, or -1. *)
Fixpoint search (c : ascii) (s : string) : Z :=
  match s with
  | EmptyString => -1
  | String d t =>
      if eqb_ascii d c then 0
      else let i := search c t in if i =? -1 then -1 else i + 1
  end.

Fixpoint take (n : nat) (s : string) : string :=
  match n, s with
  | S n', String c t => String c (take n' t)
  | _, _ => EmptyString
  end.

Fixpoint drop (n : nat) (s : string) : string :=
  match n, s with
  | S n', String _ t => drop n' t
  | _, _ => s
  end.

(** [s.substr(0, n)] and [s.substr(n)] for [n >= 0]. *)
Definition substr_to (n : Z) (s : string) : string := take (Z.to_nat n) s.
Definition substr_from (n : Z) (s : string) : string := drop (Z.to_nat n) s.

(** [s.split(c)]. *)
Fixpoint split (sep : ascii) (s : string) : list string :=
  match s with
  | EmptyString => [EmptyString]
  | String c t =>
      if eqb_ascii c sep then EmptyString :: split sep t
      else match split sep t with
           | h :: r => String c h :: r
           | [] => [String c EmptyString]
           end
  end.

(** [l.join(sep)]. *)
Fixpoint join (sep : string) (l : list string) : string :=
  match l with
  | [] => EmptyString
  | [x] => x
  | x :: r => x +:+ sep +:+ join sep r
  end.

(** [s.replace(/c/g, d)]. *)
Fixpoint map_char (c d : ascii) (s : string) : string :=
  match s with
  | EmptyString => EmptyString
  | String x t => String (if eqb_ascii x c then d else x) (map_char c d t)
  end.

(** [s.replace(/p1p2p3/g, rep)] for a three-character literal pattern. *)
Fixpoint replace3 (p1 p2 p3 : ascii) (rep : string) (s : string) : string :=
  match s with
  | EmptyString => EmptyString
  | String c t =>
      match t with
      | String d (String e r) =>
          if eqb_ascii c p1 && eqb_ascii d p2 && eqb_ascii e p3
          then rep +:+ replace3 p1 p2 p3 rep r
          else String c (replace3 p1 p2 p3 rep t)
      | _ => String c (replace3 p1 p2 p3 rep t)
      end
  end.

(** [s.replace(/^c+/, '')]. *)
Fixpoint strip_leading (c : ascii) (s : string) : string :=
  match s with
  | String d t => if eqb_ascii d c then strip_leading c t else s
  | EmptyString => EmptyString
  end.

(** White space as far as the byte model sees it: TAB, LF, VT, FF, CR
    and SPACE. *)
Definition is_space (c : ascii) : bool :=
  let n := N_of_ascii c in
  ((9 <=? n) && (n <=? 13))%N || (n =? 32)%N.

Fixpoint trim_start (s : string) : string :=
  match s with
  | String c t => if is_space c then trim_start t else s
  | EmptyString => EmptyString
  end.

Fixpoint trim_end (s : string) : string :=
  match s with
  | EmptyString => EmptyString
  | String c t =>
      match trim_end t with
      | EmptyString => if is_space c then EmptyString else String c EmptyString
      | t' => String c t'
      end
  end.

(** [s.trim()]. *)
Definition trim (s : string) : string := trim_end (trim_start s).

Definition is_empty (s : string) : bool :=
  match s with EmptyString => true | _ => false end.

Fixpoint repeat (c : ascii) (n : nat) : string :=
  match n with O => EmptyString | S n' => String c (repeat c n') end.

End Str.

(** ** Percent-encoding *)

Module URI.

Definition hexdigit (n : N) : ascii :=
  if (n <? 10)%N then ascii_of_N (48 + n) else ascii_of_N (55 + n).

Definition hexval (c : ascii) : option N :=
  let n := N_of_ascii c in
  if ((48 <=? n) && (n <=? 57))%N then Some (n - 48)%N
  else if ((65 <=? n) && (n <=? 70))%N then Some (n - 55)%N
  else if ((97 <=? n) && (n <=? 102))%N then Some (n - 87)%N
  else None.

Definition escape (c : ascii) : string :=
  let n := N_of_ascii c in
  String "%" (String (hexdigit (n / 16)) (String (hexdigit (n mod 16)) EmptyString)).

Definition is_alnum (c : ascii) : bool :=
  let n := N_of_ascii c in
  (((48 <=? n) && (n <=? 57)) || ((65 <=? n) && (n <=? 90))
   || ((97 <=? n) && (n <=? 122)))%N.

(** The characters [encodeURIComponent] leaves alone:
    A-Z a-z 0-9 - _ . ! ~ * ' ( ) *)
Definition unreserved (c : ascii) : bool :=
  is_alnum c || Str.mem c "-_.!~*'()".

Fixpoint encodeURIComponent (s : string) : string :=
  match s with
  | EmptyString => EmptyString
  | String c t =>
      (if unreserved c then String c EmptyString else escape c)
      +:+ encodeURIComponent t
  end.

(** [decodeURIComponent]: raises URIError on a [%] that is not followed
    by two hexadecimal digits. *)
Fixpoint decodeURIComponent (s : string) : result string :=
  match s with
  | EmptyString => Ok EmptyString
  | String c t =>
      if Str.eqb_ascii c "%" then
        match t with
        | String a (String b r) =>
            match hexval a, hexval b with
            | Some h, Some l =>
                rbind (decodeURIComponent r)
                  (λ r', Ok (String (ascii_of_N (16 * h + l)) r'))
            | _, _ => Throw (URIError "URI malformed")
            end
        | _ => Throw (URIError "URI malformed")
        end
      else rbind (decodeURIComponent t) (λ t', Ok (String c t'))
  end.

End URI.

(** ** Numbers *)

Inductive number : Type :=
  | NaN
  | Inf (neg : bool)
  | Dec (m : Z) (scale : nat).

Module Num.

(** The canonical form: no trailing zero behind the decimal point. *)
Fixpoint strip (m : Z) (scale : nat) : number :=
  match scale with
  | O => Dec m 0
  | S s' => if m mod 10 =? 0 then strip (m / 10) s' else Dec m scale
  end.

Definition mkDec (m : Z) (scale : nat) : number :=
  if m =? 0 then Dec 0 0 else strip m scale.

(** [m * 10^e] for an exponent of either sign. *)
Definition of_exp (m e : Z) : number :=
  if 0 <=? e then mkDec (m * 10 ^ e) 0 else mkDec m (Z.to_nat (- e)).

Definition of_Z (z : Z) : number := Dec z 0.

Definition neg (x : number) : number :=
  match x with
  | NaN => NaN
  | Inf b => Inf (negb b)
  | Dec m s => Dec (- m) s
  end.

(** [x > y]; false whenever an operand is NaN. *)
Definition gt (x y : number) : bool :=
  match x, y with
  | NaN, _ | _, NaN => false
  | Inf false, Inf false => false
  | Inf false, _ => true
  | Inf true, _ => false
  | Dec _ _, Inf b => b
  | Dec m1 s1, Dec m2 s2 =>
      m2 * 10 ^ Z.of_nat s1 <? m1 * 10 ^ Z.of_nat s2
  end.

(** ToBoolean on a number: false for 0 and NaN. *)
Definition truthy (x : number) : bool :=
  match x with
  | NaN => false
  | Inf _ => true
  | Dec m _ => negb (m =? 0)
  end.

Definition digits (n : Z) : string :=
  NilZero.string_of_uint (N.to_uint (Z.to_N n)).

Definition digit_of (c : ascii) : option Z :=
  let n := N_of_ascii c in
  if ((48 <=? n) && (n <=? 57))%N then Some (Z.of_N n - 48) else None.

Fixpoint strip_zeros_end (s : string) : string :=
  match s with
  | EmptyString => EmptyString
  | String c t =>
      match strip_zeros_end t with
      | EmptyString => if Str.eqb_ascii c "0" then EmptyString else String c EmptyString
      | t' => String c t'
      end
  end.

Definition len (s : string) : Z := Z.of_nat (String.length s).

Definition exponent_part (e : Z) : string :=
  "e" +:+ (if e <? 0 then "-" else "+") +:+ digits (Z.abs e).

(** Number::toString of a positive decimal, from its digit string [sd]
    (no trailing zero, [k] digits) and the position [n] of the decimal
    point: the value is [0.sd * 10^n]. *)
Definition render (sd : string) (n : Z) : string :=
  let k := len sd in
  if (k <=? n) && (n <=? 21) then
    sd +:+ Str.repeat "0" (Z.to_nat (n - k))
  else if (0 <? n) && (n <=? 21) then
    Str.take (Z.to_nat n) sd +:+ "." +:+ Str.drop (Z.to_nat n) sd
  else if (-6 <? n) && (n <=? 0) then
    "0." +:+ Str.repeat "0" (Z.to_nat (- n)) +:+ sd
  else if k =? 1 then
    sd +:+ exponent_part (n - 1)
  else
    Str.take 1 sd +:+ "." +:+ Str.drop 1 sd +:+ exponent_part (n - 1).

(** Number::toString (radix 10). *)
Definition to_string (x : number) : string :=
  match x with
  | NaN => "NaN"
  | Inf false => "Infinity"
  | Inf true => "-Infinity"
  | Dec m s =>
      if m =? 0 then "0"
      else
        let d := digits (Z.abs m) in
        let body := render (strip_zeros_end d) (len d - Z.of_nat s) in
        if m <? 0 then "-" +:+ body else body
  end.

(** Number.prototype.toFixed: the integer [n] closest to [x * 10^f],
    the larger one on a tie, printed with [f] decimals. *)
Definition toFixed (x : number) (f : nat) : string :=
  match x with
  | Dec m s =>
      let a := Z.abs m in
      if 10 ^ (21 + Z.of_nat s) <=? a then to_string x
      else
        let d := 10 ^ Z.of_nat s in
        let n := (2 * a * 10 ^ Z.of_nat f + d) / (2 * d) in
        let ds := digits n in
        let ds := Str.repeat "0" (S f - String.length ds) +:+ ds in
        let k := String.length ds in
        let body :=
          match f with
          | O => ds
          | _ => Str.take (k - f) ds +:+ "." +:+ Str.drop (k - f) ds
          end in
        if m <? 0 then "-" +:+ body else body
  | _ => to_string x
  end.

(** *** Reading numbers *)

Fixpoint scan_digits (acc : Z) (n : nat) (s : string) : Z * nat * string :=
  match s with
  | String c t =>
      match digit_of c with
      | Some d => scan_digits (10 * acc + d) (S n) t
      | None => (acc, n, s)
      end
  | EmptyString => (acc, n, EmptyString)
  end.

Fixpoint starts_with (p s : string) : option string :=
  match p, s with
  | EmptyString, _ => Some s
  | String a p', String b s' =>
      if Str.eqb_ascii a b then starts_with p' s' else None
  | _, _ => None
  end.

Definition scan_sign (s : string) : bool * string :=
  match s with
  | String "-" t => (true, t)
  | String "+" t => (false, t)
  | _ => (false, s)
  end.

(** The exponent part [e[+-]digits], when it is there. *)
Definition scan_exponent (s : string) : Z * string :=
  match s with
  | String c t =>
      if Str.eqb_ascii c "e" || Str.eqb_ascii c "E" then
        let '(sg, t') := scan_sign t in
        let '(e, n, r) := scan_digits 0 0 t' in
        match n with
        | O => (0, s)
        | _ => (if sg then - e else e, r)
        end
      else (0, s)
  | EmptyString => (0, s)
  end.

(** The longest prefix that is a StrDecimalLiteral, with what follows it;
    NaN when there is none. *)
Definition scan_decimal (s : string) : number * string :=
  let '(sg, s0) := scan_sign s in
  match starts_with "Infinity" s0 with
  | Some r => (Inf sg, r)
  | None =>
      let '(i, ni, r1) := scan_digits 0 0 s0 in
      let '(mant, nf, r2) :=
        match r1 with
        | String "." t => scan_digits i 0 t
        | _ => (i, O, r1)
        end in
      match ni, nf with
      | O, O => (NaN, s)
      | _, _ =>
          let '(e, r3) := scan_exponent r2 in
          let x := of_exp mant (e - Z.of_nat nf) in
          (if sg then neg x else x, r3)
      end
  end.

(** [parseFloat] on a string. *)
Definition parseFloat (s : string) : number :=
  fst (scan_decimal (Str.trim_start s)).

Fixpoint scan_radix (radix : Z) (acc : Z) (s : string) : option Z :=
  match s with
  | EmptyString => Some acc
  | String c t =>
      match URI.hexval c with
      | Some d =>
          if Z.of_N d <? radix then scan_radix radix (radix * acc + Z.of_N d) t
          else None
      | None => None
      end
  end.

Definition radix_literal (radix : Z) (s : string) : number :=
  match s with
  | EmptyString => NaN
  | _ => match scan_radix radix 0 s with Some z => Dec z 0 | None => NaN end
  end.

(** ToNumber on a string (StringToNumber): the whole trimmed string has
    to be a numeric literal; the empty string is 0. *)
Definition of_string (s : string) : number :=
  match Str.trim s with
  | EmptyString => Dec 0 0
  | String "0" (String "x" t) | String "0" (String "X" t) => radix_literal 16 t
  | String "0" (String "o" t) | String "0" (String "O" t) => radix_literal 8 t
  | String "0" (String "b" t) | String "0" (String "B" t) => radix_literal 2 t
  | t =>
      match scan_decimal t with
      | (x, EmptyString) => x
      | _ => NaN
      end
  end.

End Num.

(** ** Values and objects *)

(** The values a state holds: [null], strings, numbers, and the arrays of
    strings and [null]s that [queryString.parse] builds for a repeated key. *)
Inductive value : Type :=
  | VNull
  | VStr (s : string)
  | VNum (n : number)
  | VArr (l : list (option string)).

Global Instance number_eq_dec : EqDecision number.
Proof. solve_decision. Defined.
Global Instance value_eq_dec : EqDecision value.
Proof. solve_decision. Defined.

(** A plain object used as a mapping: property order plays no part in the
    code modelled here. *)
Abbreviation obj := (gmap string value).

Module JS.

(** ToBoolean. *)
Definition truthy (v : value) : bool :=
  match v with
  | VNull => false
  | VStr s => negb (Str.is_empty s)
  | VNum n => Num.truthy n
  | VArr _ => true
  end.

(** ToString; an array joins its elements with a comma, [null] elements
    as the empty string. *)
Definition to_string (v : value) : string :=
  match v with
  | VNull => "null"
  | VStr s => s
  | VNum n => Num.to_string n
  | VArr l => Str.join "," (map (default EmptyString) l)
  end.

(** ToNumber. *)
Definition to_number (v : value) : number :=
  match v with
  | VNull => Dec 0 0
  | VNum n => n
  | _ => Num.of_string (to_string v)
  end.

(** [v > k] against a number literal. *)
Definition gt (v : value) (k : Z) : bool := Num.gt (to_number v) (Num.of_Z k).

(** [parseFloat(v)]. *)
Definition parseFloat (v : value) : number := Num.parseFloat (to_string v).

(** [v.toFixed(p)]: only numbers have the method. *)
Definition toFixed (v : value) (p : nat) : result string :=
  match v with
  | VNum n => Ok (Num.toFixed n p)
  | _ => Throw (TypeError "toFixed is not a function")
  end.

(** [o[k]] read for its truth value: a missing property is [undefined]. *)
Definition truthy_at (o : obj) (k : string) : bool :=
  match o !! k with Some v => truthy v | None => false end.

End JS.

(** ** The query-string package (defaults: arrayFormat none, sorted keys) *)

Module QueryString.

Fixpoint escape_chars (set : string) (s : string) : string :=
  match s with
  | EmptyString => EmptyString
  | String c t =>
      (if Str.mem c set then URI.escape c else String c EmptyString)
      +:+ escape_chars set t
  end.

(** strict-uri-encode: [encodeURIComponent] and then [! ' ( ) *] escaped. *)
Definition strictUriEncode (s : string) : string :=
  escape_chars "!'()*" (URI.encodeURIComponent s).

Definition encode (s : string) : string := strictUriEncode s.

Definition key_le (a b : string * value) : Prop := String.le a.1 b.1.

Global Instance key_le_dec : RelDecision key_le.
Proof. intros a b. unfold key_le. apply _. Defined.

(** [Object.keys(object).sort()], each key with its value. *)
Definition sorted_entries (o : obj) : list (string * value) :=
  merge_sort key_le (map_to_list o).

Definition encode_element (k : string) (e : option string) : string :=
  match e with
  | None => encode k
  | Some s => encode k +:+ "=" +:+ encode s
  end.

Definition encode_entry (kv : string * value) : string :=
  match kv.2 with
  | VNull => encode kv.1
  | VArr l => Str.join "&" (map (encode_element kv.1) l)
  | v => encode kv.1 +:+ "=" +:+ encode (JS.to_string v)
  end.

Definition stringify (o : obj) : string :=
  Str.join "&"
    (List.filter (λ x, negb (Str.is_empty x)) (map encode_entry (sorted_entries o))).

(** decode-uri-component: escapes are decoded, a [%] that starts no
    escape is kept; it never throws. *)
Fixpoint decode (s : string) : string :=
  match s with
  | EmptyString => EmptyString
  | String c t =>
      if Str.eqb_ascii c "%" then
        match t with
        | String a (String b r) =>
            match URI.hexval a, URI.hexval b with
            | Some h, Some l => String (ascii_of_N (16 * h + l)) (decode r)
            | _, _ => String c (decode t)
            end
        | _ => String c (decode t)
        end
      else String c (decode t)
  end.

Definition splitOnFirst (sep : ascii) (s : string) : string * option string :=
  let i := Str.search sep s in
  if i =? -1 then (s, None)
  else (Str.substr_to i s, Some (Str.substr_from (i + 1) s)).

(** [[].concat(old, value)]: the elements of an array, or the value
    itself. (The accumulator only ever holds strings, [null]s and arrays
    of them.) *)
Definition items (v : value) : list (option string) :=
  match v with
  | VArr l => l
  | VNull => [None]
  | v => [Some (JS.to_string v)]
  end.

(** The accumulator of arrayFormat none: a second value for a key turns
    the entry into an array. *)
Definition formatter (key : string) (v : value) (acc : obj) : obj :=
  match acc !! key with
  | None => <[key := v]> acc
  | Some old => <[key := VArr (items old ++ items v)]> acc
  end.

Definition parse_param (acc : obj) (param : string) : obj :=
  if Str.is_empty param then acc
  else
    let '(k, v) := splitOnFirst "=" (Str.map_char "+" " " param) in
    let v := match v with None => VNull | Some s => VStr (decode s) end in
    formatter (decode k) v acc.

(** [query.replace(/^[?#&]/, '')] *)
Definition strip_prefix_char (s : string) : string :=
  match s with
  | String c t => if Str.mem c "?#&" then t else s
  | EmptyString => EmptyString
  end.

Definition parse (query : string) : obj :=
  let query := strip_prefix_char (Str.trim query) in
  if Str.is_empty query then ∅
  else fold_left parse_param (Str.split "&" query) ∅.

End QueryString.

(** ** Parameter formatters: [State#parameters] *)

Module Formatter.
Record t : Type := make {
  stringify : option (value → value);
  parse : option (value → value)
}.
End Formatter.

Abbreviation formatters := (gmap string Formatter.t).

(** [Object.entries(this.parameters).forEach(([k, parameter]) => { if
    (state[k] && parameter.f) { state[k] = parameter.f(state[k]) } })] *)
Definition format_step (sel : Formatter.t → option (value → value))
    (k : string) (p : Formatter.t) (st : obj) : obj :=
  match st !! k, sel p with
  | Some v, Some f => if JS.truthy v then <[k := f v]> st else st
  | _, _ => st
  end.

Definition format_with (sel : Formatter.t → option (value → value))
    (params : formatters) (st : obj) : obj :=
  map_fold (format_step sel) st params.

(** ** The URL codec of [State]: the methods as functions of objects *)

Module Codec.

(** [if (state.path) { link += encodeURIComponent(state.path); delete state.path }] *)
Definition path_stage (st : obj) : string * obj :=
  match st !! "path" with
  | Some p =>
      if JS.truthy p then (URI.encodeURIComponent (JS.to_string p), delete "path" st)
      else (EmptyString, st)
  | None => (EmptyString, st)
  end.

Definition precision_of (zoom : value) : nat :=
  if JS.gt zoom 16 then 5%nat
  else if JS.gt zoom 8 then 4%nat
  else if JS.gt zoom 4 then 3%nat
  else if JS.gt zoom 2 then 2%nat
  else if JS.gt zoom 1 then 1%nat
  else 0%nat.

Definition locPrecision (st : obj) : nat :=
  match st !! "zoom" with
  | Some z => if JS.truthy z then precision_of z else 5%nat
  | None => 5%nat
  end.

(** [link === '' ? '' : '&'] *)
Definition sep (link : string) : string :=
  if Str.is_empty link then EmptyString else "&".

Definition map_segment (zoom lat lon : string) : string :=
  "map=" +:+ zoom +:+ "/" +:+ lat +:+ "/" +:+ lon.

(** [if (state.zoom && state.lat && state.lon) { link += ...; delete ... }] *)
Definition location_stage (link : string) (st : obj) : result (string * obj) :=
  match st !! "zoom", st !! "lat", st !! "lon" with
  | Some zoom, Some lat, Some lon =>
      if JS.truthy zoom && JS.truthy lat && JS.truthy lon then
        let z := Num.toFixed (JS.parseFloat zoom) 0 in
        la ← JS.toFixed lat (locPrecision st);
        lo ← JS.toFixed lon (locPrecision st);
        Ok (link +:+ sep link +:+ map_segment z la lo,
            delete "lon" (delete "lat" (delete "zoom" st)))
      else Ok (link, st)
  | _, _, _ => Ok (link, st)
  end.

(** [Object.fromEntries(Object.entries(state).filter(([k, v]) => v !== null))] *)
Definition filter_null (st : obj) : obj :=
  filter (λ kv : string * value, kv.2 ≠ VNull) st.

(** The three characters put back after [queryString.stringify]. *)
Definition unescape (s : string) : string :=
  Str.replace3 "%" "3" "A" ":"
    (Str.replace3 "%" "2" "C" ","
       (Str.replace3 "%" "2" "F" "/" s)).

Definition encode_stage (link : string) (st : obj) : string :=
  let newHash := unescape (QueryString.stringify st) in
  if Str.is_empty newHash then link else link +:+ sep link +:+ newHash.

(** [stringify(state)] for an object [state]. *)
Definition stringify (params : formatters) (state : obj) : result string :=
  let '(link, st) := path_stage state in
  '(link, st) ← location_stage link st;
  let st := filter_null st in
  let st := format_with Formatter.stringify params st in
  Ok (encode_stage link st).

(** The split of a link into its path and its parameters. *)
Definition split_link (link : string) : string * string :=
  let firstEquals := Str.search "=" link in
  let firstAmp := Str.search "&" link in
  if Str.is_empty link then (EmptyString, EmptyString)
  else if firstEquals =? -1 then
    if firstAmp =? -1 then (link, EmptyString)
    else (Str.substr_to firstAmp link, EmptyString)
  else
    if firstAmp =? -1 then (EmptyString, link)
    else if firstAmp <? firstEquals then
      (Str.substr_to firstAmp link, Str.substr_from (firstAmp + 1) link)
    else (EmptyString, link).

(** [parseFloat(parts[i])]; a missing part is [undefined], which reads
    as NaN. *)
Definition parseFloat_part (parts : list string) (i : nat) : value :=
  VNum (match parts !! i with Some s => Num.parseFloat s | None => NaN end).

(** [if ('map' in newState && newState.map !== 'auto') { ... }] *)
Definition expand_map (newState : obj) : result obj :=
  match newState !! "map" with
  | None => Ok newState
  | Some m =>
      if decide (m = VStr "auto") then Ok newState
      else
        match m with
        | VStr s =>
            let parts := Str.split "/" s in
            Ok (delete "map"
                  (<["lon" := parseFloat_part parts 2]>
                     (<["lat" := parseFloat_part parts 1]>
                        (<["zoom" := parseFloat_part parts 0]> newState))))
        | VNull => Throw (TypeError "Cannot read properties of null (reading 'split')")
        | _ => Throw (TypeError "newState.map.split is not a function")
        end
  end.

(** [parse(link)]; [hash] is [global.location.hash], read when no link
    (or the empty one) is given. *)
Definition parse (params : formatters) (hash : string) (link : option string)
  : result obj :=
  let link :=
    match link with
    | Some l => if Str.is_empty l then Str.strip_leading "#" hash else l
    | None => Str.strip_leading "#" hash
    end in
  let '(newPath, urlNonPathPart) := split_link link in
  let newState := QueryString.parse urlNonPathPart in
  newState ←
    (if Str.is_empty newPath then Ok newState
     else p ← URI.decodeURIComponent newPath; Ok (<["path" := VStr p]> newState));
  newState ← expand_map newState;
  Ok (format_with Formatter.parse params newState).

End Codec.

(** ** The object store *)

(** An object reference is an index into the store; a new object goes to
    its end. *)
Abbreviation loc := nat.

(** ** The [State] instance and the browser around it *)

Inductive history_call : Type :=
  | pushState (url : string)
  | replaceState (url : string).

Record world : Type := World {
  heap : list obj;                      (* the objects *)
  current : loc;                        (* this.current *)
  previous : option loc;                (* this.previous, undefined at first *)
  parameters : formatters;              (* this.parameters *)
  get_listeners : list (obj → obj);     (* handlers of 'get': each adds to the object it is given *)
  apply_listeners : list string;        (* handlers of 'apply', by name *)
  hash : string;                        (* global.location.hash *)
  history : list history_call;          (* the calls made on global.history *)
  timers : list loc;                    (* pending setTimeout(() => this.emit('apply', state), 0) *)
  delivered : list (string * loc)       (* runs of 'apply' handlers so far: handler and argument *)
}.

Definition set_heap (h : list obj) (w : world) : world :=
  World h (current w) (previous w) (parameters w) (get_listeners w)
    (apply_listeners w) (hash w) (history w) (timers w) (delivered w).

Definition set_previous (p : option loc) (w : world) : world :=
  World (heap w) (current w) p (parameters w) (get_listeners w)
    (apply_listeners w) (hash w) (history w) (timers w) (delivered w).

Definition set_location (h : string) (c : history_call) (w : world) : world :=
  World (heap w) (current w) (previous w) (parameters w) (get_listeners w)
    (apply_listeners w) h (history w ++ [c]) (timers w) (delivered w).

Definition set_timers (t : list loc) (w : world) : world :=
  World (heap w) (current w) (previous w) (parameters w) (get_listeners w)
    (apply_listeners w) (hash w) (history w) t (delivered w).

Definition set_delivered (d : list (string * loc)) (w : world) : world :=
  World (heap w) (current w) (previous w) (parameters w) (get_listeners w)
    (apply_listeners w) (hash w) (history w) (timers w) d.

(** Computations of the methods: they change the world and return or throw. *)
Definition M (A : Type) : Type := world → result A * world.

Global Instance M_ret : MRet M := λ A a w, (Ok a, w).
Global Instance M_bind : MBind M := λ A B k m w,
  match m w with
  | (Ok a, w') => k a w'
  | (Throw e, w') => (Throw e, w')
  end.

Definition throw {A} (e : exn) : M A := λ w, (Throw e, w).

Definition lift {A} (r : result A) : M A := λ w, (r, w).

Definition read {A} (f : world → A) : M A := λ w, (Ok (f w), w).

Definition modify (f : world → world) : M unit := λ w, (Ok tt, f w).

(** [{ ...o }] or a fresh literal: a new object. *)
Definition alloc (o : obj) : M loc := λ w,
  (Ok (length (heap w)), set_heap (heap w ++ [o]) w).

Definition load (r : loc) : M obj := λ w,
  match heap w !! r with
  | Some o => (Ok o, w)
  | None => (Throw (TypeError "not an object"), w)
  end.

(** An update in place of the object at [r]. *)
Definition store (r : loc) (o : obj) : M unit :=
  modify (λ w, set_heap (<[r := o]> (heap w)) w).

Inductive input : Type :=
  | INull
  | IString (s : string)
  | IObject (r : loc).

Record options : Type := Options { update : option string }.

Module State.

(** [constructor]: [this.current = {}], [this.parameters = {}], nothing
    else set and no handler registered; [hash0] is the page's fragment. *)
Definition new (hash0 : string) : world :=
  World [∅] 0%nat None ∅ [] [] hash0 [] [] [].

(** [this.emit('get', state)]: the handlers run one after the other on
    the same object. *)
Definition emit_get (ls : list (obj → obj)) (o : obj) : obj :=
  fold_left (λ acc f, f acc) ls o.

(** [get()] *)
Definition get : M loc :=
  state ← alloc ∅;
  ls ← read get_listeners;
  o ← load state;
  store state (emit_get ls o);;
  mret state.

(** [stringify(state = null)] *)
Definition stringify (state : option loc) : M string :=
  state ← (match state with Some r => mret r | None => get end);
  o ← load state;
  state ← alloc o;
  o ← load state;
  let '(link, o') := Codec.path_stage o in
  store state o';;
  o ← load state;
  '(link, o') ← lift (Codec.location_stage link o);
  store state o';;
  o ← load state;
  state ← alloc (Codec.filter_null o);
  params ← read parameters;
  o ← load state;
  store state (format_with Formatter.stringify params o);;
  o ← load state;
  mret (Codec.encode_stage link o).

(** [parse(link = null)]: the result is a new object. *)
Definition parse (link : option string) : M loc :=
  params ← read parameters;
  h ← read hash;
  newState ← lift (Codec.parse params h link);
  alloc newState.

(** [updateLink(push = false)] *)
Definition updateLink (push : bool) : M unit :=
  link ← stringify None;
  let url := "#" +:+ link in
  modify (set_location url (if push then pushState url else replaceState url)).

(** ToBoolean of [options.update]. *)
Definition wants_update (o : options) : bool :=
  match update o with
  | Some s => negb (Str.is_empty s)
  | None => false
  end.

Definition is_push (o : options) : bool :=
  bool_decide (update o = Some "push").

(** [apply(state = null, options = {})] *)
Definition apply (state : input) (opts : options) : M loc :=
  cur ← read current;
  o ← load cur;
  prev ← alloc o;
  modify (set_previous (Some prev));;
  state ← (match state with
           | INull => parse None
           | IString s => parse (Some s)
           | IObject r => mret r
           end);
  delta ← load state;
  o ← load cur;
  store cur (delta ∪ o);;
  (if wants_update opts then updateLink (is_push opts) else mret tt);;
  modify (λ w, set_timers (timers w ++ [state]) w);;
  mret state.

(** [this.emit('apply', state)]: every handler runs with the object. *)
Definition emit_apply (state : loc) (w : world) : world :=
  set_delivered (delivered w ++ map (λ l, (l, state)) (apply_listeners w)) w.

(** One turn of the event loop: the oldest pending timer fires. *)
Definition run_timer (w : world) : world :=
  match timers w with
  | [] => w
  | state :: rest => emit_apply state (set_timers rest w)
  end.

(** [init()]: what the handler it registers does when the fragment of
    the page changes to [h]. *)
Definition on_hashchange (h : string) : M loc := λ w,
  let w := World (heap w) (current w) (previous w) (parameters w)
             (get_listeners w) (apply_listeners w) h (history w) (timers w)
             (delivered w) in
  apply (IString (Str.substr_from 1 h)) (Options None) w.

End State.

(** ** The bootstrap: [App] *)

Module AppModule.
(** A registered module; [appInit] is what its hook hands to the
    callback: an error or nothing. *)
Record t : Type := make {
  id : string;
  requireModules : list string;
  appInit : option exn;
  cssFiles : option (list string)
}.
End AppModule.

(** What is shown or done on the page during start-up; [Thrown] is an
    exception that leaves [getInitState] (what its caller makes of it is
    not in the sources). *)
Inductive event : Type :=
  | Alert (msg : string)
  | AppendStylesheet (href : string)
  | StateApply (initState : obj)
  | Thrown (e : exn).

(** The outcome of Twig on a template. *)
Inductive twig_outcome : Type :=
  | CompileFails (msg : string)
  | RenderFails (msg : string)
  | Rendered (text : string).

Inductive default_state : Type :=
  | DefaultData (o : obj)               (* an object, or nothing: spread as it is *)
  | DefaultTemplate (template : string).

Record env : Type := Env {
  modules : list AppModule.t;                   (* App.modules *)
  config : option default_state;                (* this.config, if a hook has set it: its defaultState *)
  twig : string → obj → twig_outcome;           (* the twig package on a template and the [state] of its context *)
  yaml_load : string → result obj;              (* yaml.load *)
  state_get_listeners : list (obj → obj);       (* handlers of the App's 'state-get' *)
  init_promises : list (result unit)            (* what handlers of 'init' pushed, settled *)
}.

Module InitModules.

(** Modelled from the spec: part of the helper [./initModules], which is
    not among the sources. The modules [m] requires are initialized. *)
Definition ready (done : list string) (m : AppModule.t) : bool :=
  forallb (λ d, bool_decide (d ∈ done)) (AppModule.requireModules m).

(** Modelled from the spec: part of the helper [./initModules]. The first
    module of the list whose dependencies are all initialized, and the
    others. *)
Fixpoint pick (done : list string) (pending : list AppModule.t)
  : option (AppModule.t * list AppModule.t) :=
  match pending with
  | [] => None
  | m :: rest =>
      if ready done m then Some (m, rest)
      else match pick done rest with
           | Some (m', rest') => Some (m', m :: rest')
           | None => None
           end
  end.

(** Modelled from the spec: part of the helper [./initModules]. The hooks
    run one after the other; [done] are the modules initialized so far.
    The first error ends the chain. *)
Fixpoint chain (fuel : nat) (done : list string) (pending : list AppModule.t)
  : list string * option exn :=
  match fuel with
  | O => (done, None)
  | S fuel' =>
      match pick done pending with
      | None => (done, None)
      | Some (m, rest) =>
          match AppModule.appInit m with
          | Some e => (done, Some e)
          | None => chain fuel' (done ++ [AppModule.id m]) rest
          end
      end
  end.

(** Modelled from the spec: the helper [./initModules] that [App] imports
    is not among the sources. Following section 4.3, step 1, it invokes
    the hook of each registered module, a module only after the modules
    it requires are initialized, and the first error ends the chain and
    is handed to the caller's callback. The result is the list of
    initialized modules and that error, if any. A module whose
    requirements never become initialized is not invoked. *)
Definition initModules (ms : list AppModule.t) : list string * option exn :=
  chain (length ms) [] ms.

End InitModules.

Module App.

(** [twigGet(template, { state }, callback)]: what the callback receives.
    A compile error is passed as a string, a render error as an Error. *)
Inductive twig_error : Type :=
  | CompileMessage (text : string)
  | RenderError (e : exn).

Definition twigGet (e : env) (template : string) (state : obj)
  : twig_error + string :=
  match twig e template state with
  | CompileFails msg => inl (CompileMessage ("Error compiling Twig template: " +:+ msg))
  | RenderFails msg => inl (RenderError (Error ("Error rendering Twig template: " +:+ msg)))
  | Rendered text => inr (Str.trim text)
  end.

(** [e.message]: a string has no such property. *)
Definition twig_error_message (e : twig_error) : string :=
  match e with
  | CompileMessage _ => "undefined"
  | RenderError e => message e
  end.

(** [loadCssFiles()] *)
Definition loadCssFiles (e : env) : list event :=
  flat_map (λ m, map AppendStylesheet (default [] (AppModule.cssFiles m))) (modules e).

(** [Promise.all(promises)]: the first rejection, if there is one. *)
Fixpoint all_settled (ps : list (result unit)) : result unit :=
  match ps with
  | [] => Ok tt
  | Ok _ :: rest => all_settled rest
  | Throw err :: _ => Throw err
  end.

(** [init(initState)]: the handlers of 'get' and 'apply' that forward to
    the App are registered, and once the promises are settled the state
    is applied or the rejection is shown. *)
Definition init (e : env) (initState : obj) (w : world) : list event * world :=
  let w := World (heap w) (current w) (previous w) (parameters w)
             (get_listeners w ++ [State.emit_get (state_get_listeners e)])
             (apply_listeners w ++ ["state-apply"])
             (hash w) (history w) (timers w) (delivered w) in
  match all_settled (init_promises e) with
  | Ok _ =>
      match (r ← alloc initState; State.apply (IObject r) (Options None)) w with
      | (Ok _, w') => ([StateApply initState], w')
      | (Throw err, w') => ([StateApply initState; Alert (message err)], w')
      end
  | Throw err => ([Alert (message err)], w)
  end.

(** [getInitState()]; reading [this.config.defaultState] throws when no
    hook has set [this.config]. *)
Definition getInitState (e : env) (w : world) : list event * world :=
  match Codec.parse (parameters w) (hash w) None with
  | Throw err => ([Thrown err], w)
  | Ok initState =>
      match config e with
      | None =>
          ([Thrown (TypeError
                      "Cannot read properties of undefined (reading 'defaultState')")],
           w)
      | Some (DefaultTemplate template) =>
          match twigGet e template initState with
          | inl err => ([Alert (twig_error_message err)], w)
          | inr text =>
              match yaml_load e text with
              | Throw err => ([Alert (message err)], w)
              | Ok d => init e (initState ∪ d) w
              end
          end
      | Some (DefaultData d) => init e (initState ∪ d) w
      end
  end.

(** [initModules(callback)] with the callback of the constructor,
    [() => this.getInitState()]. *)
Definition initModules (e : env) (w : world) : list event * world :=
  let err := (InitModules.initModules (modules e)).2 in
  let shown := match err with Some x => [Alert (message x)] | None => [] end in
  let css := loadCssFiles e in
  let '(rest, w') := getInitState e w in
  ((shown ++ css ++ rest)%list, w').

(** [constructor] *)
Definition new (e : env) (w : world) : list event * world := initModules e w.

End App.

(** ** The template cache: [twigGet] *)

Module TwigGet.

(** The options a caller may pass: the two that [defaultOptions] sets
    (both to true), and any others, which go to Twig as they are. *)
Record user_options : Type := UserOptions {
  autoescape : option bool;
  rethrow : option bool;
  others : obj
}.

(** [{}] *)
Definition no_options : user_options := UserOptions None None ∅.

(** [{ ...defaultOptions, ...options }] with [data] set to the template. *)
Record twig_options : Type := TwigOptions {
  opt_autoescape : bool;
  opt_rethrow : bool;
  opt_others : obj;
  opt_data : string
}.

Definition merge_options (o : user_options) (template : string) : twig_options :=
  TwigOptions (default true (autoescape o)) (default true (rethrow o))
    (delete "data" (others o)) template.

(** A compiled template, by what rendering it on a context gives
    ([render] returns or throws, [renderAsync] fulfils or rejects
    with the same). *)
Abbreviation compiled := (obj → result string).

(** What the callback is called with. *)
Inductive callback_call : Type :=
  | CallError (text : string)          (* callback(error), the error a string *)
  | CallFailure (e : exn)              (* callback(new Error(...)) *)
  | CallResult (text : string).        (* callback(null, result) *)

(** A callback, by what it returns for what it is called with ([None]
    is [undefined]); it is taken not to throw. *)
Abbreviation callback := (callback_call → option value).

(** The third argument of a call: nothing, options, or the callback. *)
Inductive third : Type :=
  | Omitted
  | Given (o : user_options)
  | Callback (cb : callback).

(** The names every plain object inherits: [name in {}] is true for
    them. *)
Definition inherited : list string :=
  ["constructor"; "__defineGetter__"; "__defineSetter__"; "hasOwnProperty";
   "__lookupGetter__"; "__lookupSetter__"; "isPrototypeOf";
   "propertyIsEnumerable"; "toString"; "valueOf"; "__proto__";
   "toLocaleString"].

(** [template in twigTemplates] *)
Definition known (cache : gmap string compiled) (template : string) : bool :=
  bool_decide (is_Some (cache !! template)) || bool_decide (template ∈ inherited).

(** One call: what is returned or thrown ([None] is [undefined]), the
    calls of the callback, and the cache afterwards. *)
Record reply : Type := Reply {
  returned : result (option value);
  calls : list callback_call;
  cache_after : gmap string compiled
}.

(** The part of [twigGet] behind the compilation: the template is
    rendered, with [renderAsync] when there is a callback, and then
    nothing is returned. An inherited name that was never compiled has
    no [render]. *)
Definition render (cache : gmap string compiled) (template : string) (data : obj)
    (cb : option callback) : reply :=
  match cache !! template with
  | None =>
      Reply (Throw (TypeError
                      match cb with
                      | Some _ => "twigTemplates[template].renderAsync is not a function"
                      | None => "twigTemplates[template].render is not a function"
                      end))
        [] cache
  | Some tpl =>
      match cb with
      | Some _ =>
          match tpl data with
          | Ok text => Reply (Ok None) [CallResult (Str.trim text)] cache
          | Throw e =>
              Reply (Ok None)
                [CallFailure (Error ("Error rendering Twig template: " +:+ message e))]
                cache
          end
      | None =>
          match tpl data with
          | Ok text => Reply (Ok (Some (VStr (Str.trim text)))) [] cache
          | Throw e => Reply (Throw e) [] cache
          end
      end
  end.

(** [if (typeof options === 'function') { callback = options; options =
    {} }]: the callback after it, if there is one, and the options. *)
Definition callback_of (options : third) (fourth : option callback)
  : option callback :=
  match options with Callback cb => Some cb | _ => fourth end.

Definition options_of (options : third) : user_options :=
  match options with Given o => o | _ => no_options end.

(** [twigGet(template, data, options = {}, callback)]; [twig] is
    [Twig.twig], [cache] is [twigTemplates], and [fourth] is the fourth
    argument, if one was passed. A compile error with a callback
    returns what the callback returns. *)
Definition twigGet (twig : twig_options → result compiled)
    (cache : gmap string compiled)
    (template : value) (data : obj) (options : third) (fourth : option callback)
  : reply :=
  match template with
  | VStr text =>
      let callback := callback_of options fourth in
      let options := options_of options in
      if known cache text then render cache text data callback
      else
        match twig (merge_options options text) with
        | Ok tpl => render (<[text := tpl]> cache) text data callback
        | Throw e =>
            let error := "Error compiling Twig template: " +:+ message e in
            match callback with
            | Some cb => Reply (Ok (cb (CallError error))) [CallError error] cache
            | None => Reply (Throw (Error error)) [] cache
            end
        end
  | other => Reply (Ok (Some other)) [] cache
  end.

End TwigGet.

(** ** Notions used in the statements and proofs *)

(** *** Characters of written links *)

Fixpoint sforall (P : ascii → bool) (s : string) : bool :=
  match s with
  | EmptyString => true
  | String c t => P c && sforall P t
  end.

(** [c] does not occur in [s]. *)
Definition lacks (c : ascii) (s : string) : Prop := Str.mem c s = false.

(** The characters [strictUriEncode] leaves alone. *)
Definition keep (c : ascii) : bool := URI.unreserved c && negb (Str.mem c "!'()*").

(** Characters that are no separator of a link and no white space. *)
Definition plain (c : ascii) : bool :=
  negb (Str.mem c "&=+?#") && negb (Str.is_space c).

Definition nospace (c : ascii) : bool := negb (Str.is_space c).

(** What the three replacements of [Codec.unescape] make of the escape
    [%xy]. *)
Definition unescape_token (x y : ascii) : string :=
  if Str.eqb_ascii x "2" && Str.eqb_ascii y "F" then "/"
  else if Str.eqb_ascii x "2" && Str.eqb_ascii y "C" then ","
  else if Str.eqb_ascii x "3" && Str.eqb_ascii y "A" then ":"
  else String "%" (String x (String y EmptyString)).

(** The code of one character in the parameters of a link: what
    [Codec.unescape] leaves of its strict encoding. *)
Definition E_char (c : ascii) : string :=
  Codec.unescape (QueryString.strictUriEncode (String c EmptyString)).

Fixpoint E (s : string) : string :=
  match s with
  | EmptyString => EmptyString
  | String c t => E_char c +:+ E t
  end.

(** The entry of a key with a string value, as it is written. *)
Definition entry (kv : string * string) : string := E kv.1 +:+ "=" +:+ E kv.2.

Definition as_value (kv : string * string) : string * value := (kv.1, VStr kv.2).

Definition string_of (v : value) : string :=
  match v with VStr s => s | _ => EmptyString end.

(** *** Objects *)

(** Every property holds a string. *)
Definition string_valued (st : obj) : Prop :=
  ∀ k v, st !! k = Some v → ∃ s, v = VStr s.

(** A [map] property, if there is one, is the literal [auto]. *)
Definition map_only_auto (o : obj) : Prop :=
  ∀ v, o !! "map" = Some v → v = VStr "auto".

(** What the formatters selected by [sel] leave in the property [k] that
    held [v]. *)
Definition formatted_value (sel : Formatter.t → option (value → value))
    (params : formatters) (k : string) (v : value) : value :=
  match params !! k with
  | Some p =>
      match sel p with
      | Some f => if JS.truthy v then f v else v
      | None => v
      end
  | None => v
  end.

(** *** Stages of [State.apply] *)

(** The world once [apply] has taken its snapshot of [cur] and merged
    [delta]; [extra] are the objects made in between. *)
Definition merged (extra : list obj) (cur delta : obj) (w : world) : world :=
  set_heap (<[current w := delta ∪ cur]> (heap w) ++ cur :: extra)
    (set_previous (Some (length (heap w))) w).

(** The end of [apply]: the link, the timer and the result. *)
Definition finish (state : loc) (opts : options) : M loc :=
  (if State.wants_update opts then State.updateLink (State.is_push opts) else mret tt);;
  modify (λ w, set_timers (timers w ++ [state]) w);;
  mret state.

(** [apply] up to its call of [setTimeout]. *)
Definition before_timer (state : input) (opts : options) : M loc :=
  cur ← read current;
  o ← load cur;
  prev ← alloc o;
  modify (set_previous (Some prev));;
  state ← (match state with
           | INull => State.parse None
           | IString s => State.parse (Some s)
           | IObject r => mret r
           end);
  delta ← load state;
  o ← load cur;
  store cur (delta ∪ o);;
  (if State.wants_update opts then State.updateLink (State.is_push opts) else mret tt);;
  mret state.

(** The link [apply] parses for an input that is no object. *)
Definition link_of (i : input) : option (option string) :=
  match i with
  | INull => Some None
  | IString s => Some (Some s)
  | IObject _ => None
  end.

(** The state [apply] merges for an input: the object passed in, or what
    the link parses to. *)
Definition input_delta (w : world) (state : input) (delta : obj) : Prop :=
  match state with
  | IObject r => heap w !! r = Some delta
  | _ => ∃ link, link_of state = Some link
                 ∧ Codec.parse (parameters w) (hash w) link = Ok delta
  end.

(** Computations that run no handler of 'apply' and leave the timers and
    the registered handlers alone. *)
Definition quiet {A} (m : M A) : Prop :=
  ∀ w, delivered (m w).2 = delivered w ∧ timers (m w).2 = timers w
       ∧ apply_listeners (m w).2 = apply_listeners w.

(** *** Runs of the store *)

(** One change of the store: a link (or nothing) is applied, the fragment
    of the page changes, or an object is applied whose [map], if it has
    one, is [auto]. *)
Inductive step (w : world) : world → Prop :=
  | step_link (state : input) (link : option string) (opts : options) :
      link_of state = Some link →
      step w (State.apply state opts w).2
  | step_hashchange (h : string) :
      step w (State.on_hashchange h w).2
  | step_object (r : loc) (delta : obj) (opts : options) :
      heap w !! r = Some delta →
      map_only_auto delta →
      step w (State.apply (IObject r) opts w).2.

(** [this.current] is an object whose [map], if it has one, is [auto], and
    no parser is registered for [map]. *)
Definition current_map_auto (w : world) : Prop :=
  (∃ cur, heap w !! current w = Some cur ∧ map_only_auto cur)
  ∧ ∀ p, parameters w !! "map" = Some p → Formatter.parse p = None.

(** *** Sample inputs *)

Module Sample.

Definition x1 : obj := {[ "x" := VNum (Dec 1 0) ]}.
Definition y2 : obj := {[ "y" := VNum (Dec 2 0) ]}.

(** [apply(o)] on a new object [o]. *)
Definition apply_object (o : obj) (opts : options) : M loc :=
  r ← alloc o; State.apply (IObject r) opts.

(** A new store after [apply({x: 1})]. *)
Definition after_x1 : world := (apply_object x1 (Options None) (State.new "")).2.

(** The same with [{y: 2}] made, ready to be applied. *)
Definition with_y2 : world := (alloc y2 after_x1).2.

(** A store with one handler of 'get' that reports the layer. *)
Definition with_layer : world :=
  World [∅; x1] 0%nat None ∅ [λ o, <["layer" := VStr "osm"]> o] [] "" [] [] [].

Definition push : options := Options (Some "push").

(** A formatter whose [stringify] writes [X] for every value. *)
Definition always_X : Formatter.t :=
  Formatter.make (Some (λ _, VStr "X")) None.

Definition formats_a : formatters := {[ "a" := always_X ]}.

(** The example of the specification, section 8. *)
Definition zoom17 : obj :=
  {[ "zoom" := VNum (Dec 17 0); "lat" := VNum (Dec 1123456789 9);
     "lon" := VNum (Dec 2987654321 9) ]}.

(** A position on the equator. *)
Definition equator : obj :=
  {[ "zoom" := VNum (Dec 5 0); "lat" := VNum (Dec 0 0); "lon" := VNum (Dec 10 0) ]}.

(** A state of strings with a path. *)
Definition place : obj :=
  {[ "path" := VStr "a b"; "q" := VStr "x/y,z"; "lang" := VStr "de" ]}.

(** A state with a path and a property without value. *)
Definition draft : obj := {[ "path" := VStr "p"; "note" := VNull ]}.

(** The module that sets [app.config]; its hook succeeds. *)
Definition settings : AppModule.t := AppModule.make "config" [] None None.

(** A module whose hook reports an error, as [lang.js] is registered:
    it requires the configuration. *)
Definition broken : AppModule.t :=
  AppModule.make "lang" ["config"] (Some (Error "boom")) (Some ["lang.css"]).

(** An application with the two: the configuration is there, with no
    default state, when the hook of the second fails. *)
Definition env_broken : env :=
  Env [settings; broken] (Some (DefaultData ∅)) (λ _ _, Rendered "") (λ _, Ok ∅) [] [].

(** An application whose only module fails: no hook has set
    [app.config]. *)
Definition env_unconfigured : env :=
  Env [AppModule.make "map" [] (Some (Error "boom")) (Some ["map.css"])] None
    (λ _ _, Rendered "") (λ _, Ok ∅) [] [].

End Sample.

(** *** Notions for the statements on the codec *)

(** [typeof o[k] === 'number'] *)
Definition number_at (o : obj) (k : string) : bool :=
  match o !! k with Some (VNum _) => true | _ => false end.

(** [state.zoom && state.lat && state.lon] *)
Definition writes_map (o : obj) : bool :=
  JS.truthy_at o "zoom" && JS.truthy_at o "lat" && JS.truthy_at o "lon".

(** The link [parse] works on: its argument, or the fragment of the page
    without its leading [#]s when there is none or it is empty. *)
Definition link_read (hash : string) (link : option string) : string :=
  match link with
  | Some l => if Str.is_empty l then Str.strip_leading "#" hash else l
  | None => Str.strip_leading "#" hash
  end.

(** The path of a link cannot be decoded. *)
Definition path_fails (path : string) : Prop :=
  Str.is_empty path = false ∧ ∃ e, URI.decodeURIComponent path = Throw e.

(** The parameters of a link have a [map] that is no string: one without
    value, or one given more than once. *)
Definition map_unreadable (query : obj) : Prop :=
  ∃ v, query !! "map" = Some v ∧ ∀ s, v ≠ VStr s.

(** A fragment as the browser reports it: empty, or one [#] and what
    follows it, which does not begin with another [#]. *)
Definition single_hash (h : string) : Prop :=
  h = "" ∨ ∃ rest, h = String "#" rest ∧ Str.strip_leading "#" rest = rest.

(** *** Notions for the round trip of a position *)

(** A decimal digit. *)
Definition is_digit (c : ascii) : bool :=
  match Num.digit_of c with Some _ => true | None => false end.


(** The characters of a coordinate as [toFixed] writes it. *)
Definition coord (c : ascii) : bool :=
  is_digit c || Str.eqb_ascii c "-" || Str.eqb_ascii c ".".

(** A state that is a position and nothing else. *)
Definition position (zoom : value) (lat lon : number) : obj :=
  {[ "zoom" := zoom; "lat" := VNum lat; "lon" := VNum lon ]}.

(** *** Notions for the statements on the store *)

(** The page at the fragment [h]. *)
Definition at_fragment (h : string) (w : world) : world :=
  World (heap w) (current w) (previous w) (parameters w)
    (get_listeners w) (apply_listeners w) h (history w) (timers w) (delivered w).

(** The runs of the handlers of 'apply' on the object [r]. *)
Definition broadcast (w : world) (r : loc) : list (string * loc) :=
  map (λ l, (l, r)) (apply_listeners w).

(** [history.pushState] or [history.replaceState] with the URL. *)
Definition history_entry (push : bool) (url : string) : history_call :=
  if push then pushState url else replaceState url.

(** *** Notions for the statements on the bootstrap *)

(** The default state comes to [d] for the state [initState] of the URL:
    the configuration is there, and its default state is this object, or
    a template that renders to YAML for it. *)
Definition default_resolves (e : env) (initState d : obj) : Prop :=
  match config e with
  | Some (DefaultData d') => d' = d
  | Some (DefaultTemplate template) =>
      ∃ text, twig e template initState = Rendered text
              ∧ yaml_load e (Str.trim text) = Ok d
  | None => False
  end.

(** The default state is a template that fails for [initState]: it does
    not compile, does not render, or renders to what is no YAML; [msg] is
    the [message] of what the callback gets or of what [yaml.load]
    throws. *)
Definition default_fails (e : env) (initState : obj) (msg : string) : Prop :=
  ∃ template, config e = Some (DefaultTemplate template)
    ∧ match twig e template initState with
      | CompileFails _ => msg = "undefined"
      | RenderFails m => msg = "Error rendering Twig template: " +:+ m
      | Rendered text =>
          ∃ err, yaml_load e (Str.trim text) = Throw err ∧ msg = message err
      end.

(** [Twig.twig] with the default options and the rendering of what it
    returns, as the one outcome an [env] records for a template. *)
Definition outcome_of (twig : TwigGet.twig_options → result TwigGet.compiled)
    (template : string) (state : obj) : twig_outcome :=
  match twig (TwigGet.merge_options TwigGet.no_options template) with
  | Throw e => CompileFails (message e)
  | Ok tpl =>
      match tpl state with
      | Ok text => Rendered text
      | Throw e => RenderFails (message e)
      end
  end.

(** A call of the callback [(e, defaultState) => ...] of [getInitState],
    as what [App.twigGet] gives. *)
Definition received (c : TwigGet.callback_call) : App.twig_error + string :=
  match c with
  | TwigGet.CallError text => inl (App.CompileMessage text)
  | TwigGet.CallFailure e => inl (App.RenderError e)
  | TwigGet.CallResult text => inr text
  end.

(** *** Further sample inputs *)

Module Case.

(** A state with a key set to [null]. *)
Definition with_null : obj := {[ "a" := VStr "1"; "b" := VNull ]}.

(** A store whose handler of 'get' reports a position with the
    latitude as a string. *)
Definition with_text_position : world :=
  World [∅] 0%nat None ∅
    [λ o, <["zoom" := VNum (Dec 5 0)]>
            (<["lat" := VStr "48.2"]> (<["lon" := VNum (Dec 163 1)]> o))]
    ["map"] "" [] [] [].

(** A new store with one handler of 'apply'. *)
Definition listening : world :=
  World [∅] 0%nat None ∅ [] ["map"] "" [] [] [].

(** [Twig.twig] that compiles every template to one that renders to its
    own text, and one that never compiles. *)
Definition echo : TwigGet.twig_options → result TwigGet.compiled :=
  λ o, Ok (λ _, Ok (TwigGet.opt_data o)).

Definition refuse : TwigGet.twig_options → result TwigGet.compiled :=
  λ _, Throw (Error "Unexpected token").

(** An application whose default state is a template that does not
    compile. *)
Definition env_template : env :=
  Env [] (Some (DefaultTemplate "{{")) (λ _ _, CompileFails "Unclosed tag") (λ _, Ok ∅) [] [].

(** An application whose default state sets the language and a layer. *)
Definition env_default : env :=
  Env [] (Some (DefaultData {[ "lang" := VStr "en"; "layer" := VStr "osm" ]}))
    (λ _ _, Rendered "") (λ _, Ok ∅) [] [].

(** An application one of whose 'init' promises is rejected. *)
Definition env_rejected : env :=
  Env [] (Some (DefaultData ∅)) (λ _ _, Rendered "") (λ _, Ok ∅) []
    [Ok tt; Throw (Error "no data")].

End Case.

(* ===================================================================== *)
(** * Properties *)
(* ===================================================================== *)

(** ** The built-ins on concrete inputs *)

Example toFixed_spec_lat : Num.toFixed (Dec 1123456789 9) 5 = "1.12346".
Proof. reflexivity. Qed.
Example toFixed_spec_lon : Num.toFixed (Dec 2987654321 9) 5 = "2.98765".
Proof. reflexivity. Qed.
Example toFixed_half : Num.toFixed (Dec 5 1) 0 = "1".
Proof. reflexivity. Qed.
Example toFixed_small_negative : Num.toFixed (Dec (-1) 3) 2 = "-0.00".
Proof. reflexivity. Qed.
Example to_string_fraction : Num.to_string (Dec 15 1) = "1.5".
Proof. reflexivity. Qed.
Example to_string_small : Num.to_string (Dec 1 7) = "1e-7".
Proof. reflexivity. Qed.
Example to_string_large : Num.to_string (Dec (10 ^ 21) 0) = "1e+21".
Proof. reflexivity. Qed.
Example to_string_hundred : Num.to_string (Dec 100 0) = "100".
Proof. reflexivity. Qed.
Example parseFloat_prefix : Num.parseFloat " 12.50abc" = Dec 125 1.
Proof. reflexivity. Qed.
Example parseFloat_exponent : Num.parseFloat "1.5e3x" = Dec 1500 0.
Proof. reflexivity. Qed.
Example parseFloat_none : Num.parseFloat "abc" = NaN.
Proof. reflexivity. Qed.
Example of_string_junk : Num.of_string "12px" = NaN.
Proof. reflexivity. Qed.
Example of_string_hex : Num.of_string " 0x1F " = Dec 31 0.
Proof. reflexivity. Qed.
Example stringify_spec_zoom17 :
  Codec.stringify ∅
    {[ "zoom" := VNum (Dec 17 0); "lat" := VNum (Dec 1123456789 9);
       "lon" := VNum (Dec 2987654321 9) ]}
  = Ok "map=17/1.12346/2.98765".
Proof. vm_compute. reflexivity. Qed.
Example stringify_spec_null :
  Codec.stringify ∅ {[ "a" := VNull; "b" := VNum (Dec 1 0) ]} = Ok "b=1".
Proof. vm_compute. reflexivity. Qed.
Example stringify_path_and_params :
  Codec.stringify ∅
    {[ "path" := VStr "a b/c"; "q" := VStr "x/y,z:w&v"; "k" := VStr "(1)" ]}
  = Ok "a%20b%2Fc&k=%281%29&q=x/y,z:w%26v".
Proof. vm_compute. reflexivity. Qed.
Example parse_spec_path : Codec.parse ∅ "" (Some "foo") = Ok {[ "path" := VStr "foo" ]}.
Proof. vm_compute. reflexivity. Qed.
Example parse_spec_empty : Codec.parse ∅ "" (Some "") = Ok ∅.
Proof. vm_compute. reflexivity. Qed.
Example parse_map :
  Codec.parse ∅ "" (Some "p&map=17/1.5/2.25&a=b%20c")
  = Ok {[ "path" := VStr "p"; "zoom" := VNum (Dec 17 0); "lat" := VNum (Dec 15 1);
          "lon" := VNum (Dec 225 2); "a" := VStr "b c" ]}.
Proof. vm_compute. reflexivity. Qed.
Example parse_keeps_map_auto :
  Codec.parse ∅ "" (Some "map=auto") = Ok {[ "map" := VStr "auto" ]}.
Proof. vm_compute. reflexivity. Qed.
Example parse_repeated_key :
  Codec.parse ∅ "" (Some "a=1&a=2&a") = Ok {[ "a" := VArr [Some "1"; Some "2"; None] ]}.
Proof. vm_compute. reflexivity. Qed.

(** ** Strings and their encodings *)

Local Arguments String.append : simpl nomatch.

Lemma sapp_assoc (a b c : string) : (a +:+ b) +:+ c = a +:+ (b +:+ c).
Proof. induction a as [|x a IH]; simpl; [done|]. by f_equal. Qed.

Lemma sapp_nil_r (a : string) : a +:+ "" = a.
Proof. induction a as [|x a IH]; simpl; [done|]. by f_equal. Qed.

Lemma sapp_one (c : ascii) (r : string) : String c EmptyString +:+ r = String c r.
Proof. reflexivity. Qed.

(** ** Characters of a string *)

Lemma sforall_app P a b : sforall P (a +:+ b) = sforall P a && sforall P b.
Proof. induction a as [|x a IH]; simpl; [done|]. by rewrite IH, andb_assoc. Qed.

Lemma sforall_impl (P Q : ascii → bool) s :
  (∀ c, P c = true → Q c = true) → sforall P s = true → sforall Q s = true.
Proof.
  intros H. induction s as [|c s IH]; simpl; [done|].
  rewrite !andb_true_iff. intros [? ?]. auto.
Qed.

Lemma eqb_ascii_false (a b : ascii) : a ≠ b → Str.eqb_ascii a b = false.
Proof. intros. by apply Ascii.eqb_neq. Qed.

Lemma eqb_ascii_true (a : ascii) : Str.eqb_ascii a a = true.
Proof. apply Ascii.eqb_refl. Qed.

(** ** The three replacements *)

Section replace3.
Variables (b d : ascii) (rep : string).

Lemma replace3_plain c r :
  c ≠ "%"%char →
  Str.replace3 "%" b d rep (String c r) = String c (Str.replace3 "%" b d rep r).
Proof.
  intros Hc. destruct r as [|x [|y r]]; simpl; try done.
  by rewrite (eqb_ascii_false c "%").
Qed.

Lemma replace3_escape x y r :
  x ≠ "%"%char → y ≠ "%"%char →
  Str.replace3 "%" b d rep (String "%" (String x (String y r)))
  = if Str.eqb_ascii x b && Str.eqb_ascii y d
    then rep +:+ Str.replace3 "%" b d rep r
    else String "%" (String x (String y (Str.replace3 "%" b d rep r))).
Proof.
  intros Hx Hy.
  change (Str.replace3 "%" b d rep (String "%" (String x (String y r))))
    with (if Str.eqb_ascii "%" "%" && Str.eqb_ascii x b && Str.eqb_ascii y d
          then rep +:+ Str.replace3 "%" b d rep r
          else String "%" (Str.replace3 "%" b d rep (String x (String y r)))).
  rewrite eqb_ascii_true, andb_true_l.
  destruct (Str.eqb_ascii x b && Str.eqb_ascii y d); [done|].
  by rewrite !replace3_plain.
Qed.
End replace3.

Lemma unescape_plain c r :
  c ≠ "%"%char → Codec.unescape (String c r) = String c (Codec.unescape r).
Proof. intros Hc. unfold Codec.unescape. by rewrite !replace3_plain. Qed.

Lemma unescape_escape x y r :
  x ≠ "%"%char → y ≠ "%"%char →
  Codec.unescape (String "%" (String x (String y r)))
  = unescape_token x y +:+ Codec.unescape r.
Proof.
  intros Hx Hy. unfold Codec.unescape, unescape_token.
  rewrite (replace3_escape "2" "F" "/" x y r Hx Hy).
  destruct (Str.eqb_ascii x "2" && Str.eqb_ascii y "F") eqn:E1.
  { rewrite !sapp_one. by rewrite !replace3_plain. }
  rewrite (replace3_escape "2" "C" "," x y _ Hx Hy).
  destruct (Str.eqb_ascii x "2" && Str.eqb_ascii y "C") eqn:E2.
  { rewrite !sapp_one. by rewrite !replace3_plain. }
  rewrite (replace3_escape "3" "A" ":" x y _ Hx Hy).
  by destruct (Str.eqb_ascii x "3" && Str.eqb_ascii y "A") eqn:E3.
Qed.

(** ** One character through the encoders *)

Ltac each_ascii c := destruct c as [[] [] [] [] [] [] [] []].

Lemma escape_shape c :
  ∃ x y, URI.escape c = String "%" (String x (String y EmptyString))
         ∧ x ≠ "%"%char ∧ y ≠ "%"%char
         ∧ URI.hexval x = Some (N_of_ascii c / 16)%N
         ∧ URI.hexval y = Some (N_of_ascii c mod 16)%N
         ∧ plain x = true ∧ plain y = true.
Proof.
  each_ascii c; eexists _, _; (split; [reflexivity|]);
    split_and!; (discriminate || reflexivity).
Qed.

Lemma keep_plain c : keep c = true → plain c = true ∧ c ≠ "%"%char.
Proof. each_ascii c; vm_compute; intros; (split; [congruence|discriminate]). Qed.

Lemma unreserved_plain c : URI.unreserved c = true → plain c = true ∧ c ≠ "%"%char.
Proof. each_ascii c; vm_compute; intros; (split; [congruence|discriminate]). Qed.

Lemma ascii_of_hex c : ascii_of_N (16 * (N_of_ascii c / 16) + N_of_ascii c mod 16) = c.
Proof. rewrite <- N.div_mod by done. apply ascii_N_embedding. Qed.

Lemma escape_chars_app set a b :
  QueryString.escape_chars set (a +:+ b)
  = QueryString.escape_chars set a +:+ QueryString.escape_chars set b.
Proof. induction a as [|x a IH]; simpl; [done|]. by rewrite IH, sapp_assoc. Qed.

Lemma strict_cons c t :
  QueryString.strictUriEncode (String c t)
  = QueryString.strictUriEncode (String c EmptyString) +:+ QueryString.strictUriEncode t.
Proof.
  unfold QueryString.strictUriEncode. simpl URI.encodeURIComponent.
  by rewrite sapp_nil_r, escape_chars_app.
Qed.

Lemma strict_char c :
  QueryString.strictUriEncode (String c EmptyString)
  = if keep c then String c EmptyString else URI.escape c.
Proof. each_ascii c; reflexivity. Qed.

Lemma unescape_char c r :
  Codec.unescape (QueryString.strictUriEncode (String c EmptyString) +:+ r)
  = E_char c +:+ Codec.unescape r.
Proof.
  unfold E_char. rewrite strict_char. destruct (keep c) eqn:Hk.
  - destruct (keep_plain c Hk) as [_ Hc].
    rewrite sapp_one, !unescape_plain by done. reflexivity.
  - destruct (escape_shape c) as (x & y & -> & Hx & Hy & _).
    change (String "%" (String x (String y EmptyString)) +:+ r)
      with (String "%" (String x (String y r))).
    rewrite !unescape_escape by done.
    change (Codec.unescape EmptyString) with EmptyString.
    by rewrite sapp_nil_r.
Qed.

Lemma decode_char c r :
  QueryString.decode (E_char c +:+ r) = String c (QueryString.decode r).
Proof. each_ascii c; reflexivity. Qed.

Lemma E_char_plain c : sforall plain (E_char c) = true.
Proof. each_ascii c; reflexivity. Qed.

Lemma unescape_encode s r :
  Codec.unescape (QueryString.encode s +:+ r) = E s +:+ Codec.unescape r.
Proof.
  unfold QueryString.encode. induction s as [|c s IH]; [done|].
  rewrite strict_cons, sapp_assoc, unescape_char, IH. simpl.
  by rewrite sapp_assoc.
Qed.

Lemma decode_E s r : QueryString.decode (E s +:+ r) = s +:+ QueryString.decode r.
Proof.
  induction s as [|c s IH]; [done|]. simpl E.
  rewrite sapp_assoc, decode_char, IH. reflexivity.
Qed.

Lemma E_plain s : sforall plain (E s) = true.
Proof.
  induction s as [|c s IH]; [done|]. simpl.
  by rewrite sforall_app, E_char_plain, IH.
Qed.

(** The same for the path, which only goes through [encodeURIComponent]. *)
Lemma uri_decode_encode s :
  URI.decodeURIComponent (URI.encodeURIComponent s) = Ok s.
Proof.
  induction s as [|c s IH]; [done|]. simpl URI.encodeURIComponent.
  destruct (URI.unreserved c) eqn:Hu.
  - destruct (unreserved_plain c Hu) as [_ Hc]. rewrite sapp_one.
    simpl. rewrite (eqb_ascii_false c "%") by done. by rewrite IH.
  - destruct (escape_shape c) as (x & y & -> & _ & _ & Hx & Hy & _).
    simpl. rewrite Hx, Hy, IH. simpl. by rewrite ascii_of_hex.
Qed.

Lemma uri_encode_plain s : sforall plain (URI.encodeURIComponent s) = true.
Proof.
  induction s as [|c s IH]; [done|]. simpl URI.encodeURIComponent.
  rewrite sforall_app, IH, andb_true_r.
  destruct (URI.unreserved c) eqn:Hu.
  - destruct (unreserved_plain c Hu) as [Hp _]. simpl. by rewrite Hp.
  - destruct (escape_shape c) as (x & y & -> & _ & _ & _ & _ & Hx & Hy).
    simpl. by rewrite Hx, Hy.
Qed.

Lemma uri_encode_nonempty c s : Str.is_empty (URI.encodeURIComponent (String c s)) = false.
Proof.
  simpl. destruct (URI.unreserved c); [done|].
  by destruct (escape_shape c) as (x & y & -> & _).
Qed.

(** ** Searching and splitting *)

Lemma lacks_app c a b : lacks c (a +:+ b) ↔ lacks c a ∧ lacks c b.
Proof.
  unfold lacks. induction a as [|x a IH]; simpl; [tauto|].
  rewrite !orb_false_iff, IH. tauto.
Qed.

Lemma plain_lacks c s :
  Str.mem c "&=+?#" = true → sforall plain s = true → lacks c s.
Proof.
  intros Hc. unfold lacks. induction s as [|x s IH]; simpl; [done|].
  rewrite andb_true_iff. intros [Hx Hs]. rewrite (IH Hs), orb_false_r.
  unfold plain in Hx. apply andb_true_iff in Hx as [Hx _].
  destruct (Str.eqb_ascii c x) eqn:He; [|done].
  apply Ascii.eqb_eq in He as ->. by rewrite Hc in Hx.
Qed.

Lemma search_lacks c s : lacks c s → Str.search c s = -1.
Proof.
  unfold lacks. induction s as [|x s IH]; simpl; [done|].
  rewrite orb_false_iff. intros [Hx Hs].
  rewrite Ascii.eqb_sym in Hx. unfold Str.eqb_ascii. rewrite Hx, (IH Hs). done.
Qed.

Lemma search_nonneg c s : Str.search c s = -1 ∨ 0 <= Str.search c s.
Proof.
  induction s as [|x s IH]; simpl; [by left|].
  destruct (Str.eqb_ascii x c); [right; lia|].
  destruct (Z.eqb_spec (Str.search c s) (-1)); [by left|right; lia].
Qed.

Lemma search_app c a r :
  lacks c a →
  Str.search c (a +:+ r)
  = if Str.search c r =? -1 then -1 else Z.of_nat (String.length a) + Str.search c r.
Proof.
  unfold lacks. induction a as [|x a IH]; simpl.
  - intros _. destruct (Z.eqb_spec (Str.search c r) (-1)); lia.
  - rewrite orb_false_iff. intros [Hx Ha].
    rewrite Ascii.eqb_sym in Hx. unfold Str.eqb_ascii. rewrite Hx, (IH Ha).
    destruct (Z.eqb_spec (Str.search c r) (-1)); [done|].
    destruct (search_nonneg c r); [done|].
    destruct (Z.eqb_spec (Z.of_nat (String.length a) + Str.search c r) (-1)); lia.
Qed.

Lemma search_here c r : Str.search c (String c r) = 0.
Proof. simpl. by rewrite eqb_ascii_true. Qed.

Lemma search_at c a r :
  lacks c a → Str.search c (a +:+ String c r) = Z.of_nat (String.length a).
Proof. intros Ha. rewrite (search_app c a _ Ha), search_here. simpl. lia. Qed.

Lemma take_app a r : Str.take (String.length a) (a +:+ r) = a.
Proof. induction a as [|x a IH]; simpl; [by destruct r|]. by rewrite IH. Qed.

Lemma drop_app a r : Str.drop (String.length a) (a +:+ r) = r.
Proof. induction a as [|x a IH]; simpl; [by destruct r|]. done. Qed.

Lemma substr_to_app a r : Str.substr_to (Z.of_nat (String.length a)) (a +:+ r) = a.
Proof. unfold Str.substr_to. by rewrite Nat2Z.id, take_app. Qed.

Lemma substr_from_app a c r :
  Str.substr_from (Z.of_nat (String.length a) + 1) (a +:+ String c r) = r.
Proof.
  unfold Str.substr_from.
  replace (Z.to_nat (Z.of_nat (String.length a) + 1)) with (S (String.length a)) by lia.
  induction a as [|x a IH]; simpl; [done|]. apply IH.
Qed.

Lemma split_lacks c s : lacks c s → Str.split c s = [s].
Proof.
  unfold lacks. induction s as [|x s IH]; simpl; [done|].
  rewrite orb_false_iff. intros [Hx Hs].
  rewrite Ascii.eqb_sym in Hx. unfold Str.eqb_ascii. by rewrite Hx, (IH Hs).
Qed.

Lemma split_app c a r :
  lacks c a → Str.split c (a +:+ String c r) = a :: Str.split c r.
Proof.
  unfold lacks. induction a as [|x a IH]; simpl.
  - intros _. by rewrite eqb_ascii_true.
  - rewrite orb_false_iff. intros [Hx Ha].
    rewrite Ascii.eqb_sym in Hx. unfold Str.eqb_ascii. by rewrite Hx, (IH Ha).
Qed.

Lemma join_cons sep x y l :
  Str.join sep (x :: y :: l) = x +:+ sep +:+ Str.join sep (y :: l).
Proof. reflexivity. Qed.

Lemma split_join (l : list string) :
  l ≠ [] → Forall (lacks "&") l → Str.split "&" (Str.join "&" l) = l.
Proof.
  induction l as [|x [|y l] IH]; [done| |].
  - intros _ Hl. simpl. apply split_lacks. by inversion Hl.
  - intros _ Hl. rewrite join_cons. inversion Hl as [|? ? Hx Hl']; subst.
    change (x +:+ "&" +:+ Str.join "&" (y :: l))
      with (x +:+ String "&" (Str.join "&" (y :: l))).
    rewrite split_app by done. f_equal. by apply IH.
Qed.

Lemma map_char_lacks c d s : lacks c s → Str.map_char c d s = s.
Proof.
  unfold lacks. induction s as [|x s IH]; simpl; [done|].
  rewrite orb_false_iff. intros [Hx Hs].
  rewrite Ascii.eqb_sym in Hx. unfold Str.eqb_ascii. by rewrite Hx, (IH Hs).
Qed.

(** ** Trimming *)

Lemma trim_end_nospace s : sforall nospace s = true → Str.trim_end s = s.
Proof.
  induction s as [|c s IH]; simpl; [done|].
  rewrite andb_true_iff. intros [Hc Hs]. rewrite (IH Hs).
  unfold nospace in Hc. destruct s; [|done].
  by destruct (Str.is_space c).
Qed.

Lemma trim_nospace s : sforall nospace s = true → Str.trim s = s.
Proof.
  intros Hs. unfold Str.trim.
  assert (Str.trim_start s = s) as ->.
  { destruct s as [|c s]; [done|]. simpl in *.
    apply andb_true_iff in Hs as [Hc _]. unfold nospace in Hc.
    by destruct (Str.is_space c). }
  by apply trim_end_nospace.
Qed.

Lemma plain_nospace s : sforall plain s = true → sforall nospace s = true.
Proof.
  apply sforall_impl. intros c. unfold plain, nospace.
  rewrite andb_true_iff. tauto.
Qed.

(** ** Entries of string-valued objects *)

Lemma encode_entry_string kv :
  QueryString.encode_entry (as_value kv)
  = QueryString.encode kv.1 +:+ "=" +:+ QueryString.encode kv.2.
Proof. reflexivity. Qed.

Lemma encode_nonempty_entry kv : Str.is_empty (QueryString.encode_entry (as_value kv)) = false.
Proof.
  rewrite encode_entry_string. by destruct (QueryString.encode kv.1).
Qed.

Lemma filter_nonempty_entries (l : list (string * string)) :
  List.filter (λ x, negb (Str.is_empty x)) (map QueryString.encode_entry (map as_value l))
  = map QueryString.encode_entry (map as_value l).
Proof.
  induction l as [|kv l IH]; [done|].
  cbn [map List.filter]. rewrite encode_nonempty_entry. simpl negb. cbv iota.
  by rewrite IH.
Qed.

Lemma unescape_entry kv r :
  Codec.unescape (QueryString.encode_entry (as_value kv) +:+ r)
  = entry kv +:+ Codec.unescape r.
Proof.
  rewrite encode_entry_string. unfold entry.
  rewrite !sapp_assoc, unescape_encode.
  change ("=" +:+ QueryString.encode kv.2 +:+ r)
    with (String "=" (QueryString.encode kv.2 +:+ r)).
  rewrite unescape_plain by done. rewrite unescape_encode. reflexivity.
Qed.

Lemma unescape_join (l : list (string * string)) :
  Codec.unescape (Str.join "&" (map QueryString.encode_entry (map as_value l)))
  = Str.join "&" (map entry l).
Proof.
  induction l as [|kv [|kv' l] IH]; [done| |].
  - simpl. rewrite <- (sapp_nil_r (QueryString.encode_entry _)).
    rewrite unescape_entry. change (Codec.unescape EmptyString) with EmptyString.
    by rewrite sapp_nil_r.
  - cbn [map] in *. rewrite !join_cons.
    rewrite unescape_entry.
    change ("&" +:+ ?x) with (String "&" x).
    rewrite unescape_plain by done. by rewrite IH.
Qed.

Lemma entry_plain kv : sforall (λ c, plain c || Str.eqb_ascii c "=") (entry kv) = true.
Proof.
  assert (∀ s, sforall (λ c, plain c || Str.eqb_ascii c "=") (E s) = true) as H.
  { intros s. eapply sforall_impl; [|apply E_plain]. by intros c ->. }
  unfold entry. rewrite !sforall_app, !H. done.
Qed.

Lemma entry_lacks c kv : Str.mem c "&+?#" = true → lacks c (entry kv).
Proof.
  intros Hc. unfold entry. rewrite !lacks_app.
  assert (Str.mem c "&=+?#" = true) as Hc'.
  { simpl in *. rewrite !orb_true_iff in *. tauto. }
  split_and!; try by apply plain_lacks, E_plain.
  unfold lacks. simpl. destruct (Str.eqb_ascii c "=") eqn:He; [|done].
  apply Ascii.eqb_eq in He as ->. done.
Qed.

Lemma entry_nonempty kv : Str.is_empty (entry kv) = false.
Proof. unfold entry. by destruct (E kv.1). Qed.

Lemma splitOnFirst_entry kv :
  QueryString.splitOnFirst "=" (entry kv) = (E kv.1, Some (E kv.2)).
Proof.
  unfold QueryString.splitOnFirst, entry.
  change ("=" +:+ E kv.2) with (String "=" (E kv.2)).
  rewrite search_at by (by apply plain_lacks, E_plain).
  destruct (Z.eqb_spec (Z.of_nat (String.length (E kv.1))) (-1)); [lia|].
  by rewrite substr_to_app, substr_from_app.
Qed.

Lemma decode_E_id s : QueryString.decode (E s) = s.
Proof. rewrite <- (sapp_nil_r (E s)), decode_E. simpl. by rewrite sapp_nil_r. Qed.

Lemma parse_param_entry acc kv :
  QueryString.parse_param acc (entry kv)
  = QueryString.formatter kv.1 (VStr kv.2) acc.
Proof.
  unfold QueryString.parse_param. rewrite entry_nonempty.
  rewrite map_char_lacks by (by apply entry_lacks).
  by rewrite splitOnFirst_entry, !decode_E_id.
Qed.

Lemma fold_parse_entries (l : list (string * string)) (acc : obj) :
  NoDup l.*1 →
  (∀ k, k ∈ l.*1 → acc !! k = None) →
  fold_left QueryString.parse_param (map entry l) acc
  = list_to_map (map as_value l) ∪ acc.
Proof.
  revert acc. induction l as [|[k v] l IH]; intros acc Hnd Hacc.
  - simpl. by rewrite (left_id_L ∅ (∪)).
  - cbn [map fold_left]. rewrite parse_param_entry. simpl.
    unfold QueryString.formatter. rewrite Hacc by (simpl; apply list_elem_of_here).
    inversion Hnd as [|? ? Hk Hnd']; subst.
    rewrite IH; [|done|].
    + rewrite <- insert_union_l. rewrite <- insert_union_r; [done|].
      apply not_elem_of_list_to_map_1.
      rewrite <- list_fmap_compose. by change (fst ∘ as_value) with (fst : string * string → string).
    + intros k' Hk'. rewrite lookup_insert_ne; [|by intros ->].
      apply Hacc. simpl. by apply list_elem_of_further.
Qed.

Lemma join_entries_plain (l : list (string * string)) :
  sforall nospace (Str.join "&" (map entry l)) = true.
Proof.
  induction l as [|kv [|kv' l] IH]; [done| |].
  - simpl. eapply sforall_impl; [|apply entry_plain].
    intros c. unfold plain, nospace. rewrite orb_true_iff, andb_true_iff.
    intros [[_ ?]|He]; [done|]. apply Ascii.eqb_eq in He as ->. done.
  - cbn [map] in *. rewrite join_cons, !sforall_app, IH. simpl.
    rewrite andb_true_r.
    eapply sforall_impl; [|apply entry_plain].
    intros c. unfold plain, nospace. rewrite orb_true_iff, andb_true_iff.
    intros [[_ ?]|He]; [done|]. apply Ascii.eqb_eq in He as ->. done.
Qed.

Lemma join_entries_nonempty kv (l : list (string * string)) :
  Str.is_empty (Str.join "&" (map entry (kv :: l))) = false.
Proof.
  destruct l; simpl.
  - apply entry_nonempty.
  - unfold entry. by destruct (E kv.1).
Qed.

Lemma join_entries_first kv (l : list (string * string)) :
  QueryString.strip_prefix_char (Str.join "&" (map entry (kv :: l)))
  = Str.join "&" (map entry (kv :: l)).
Proof.
  assert (∀ r, QueryString.strip_prefix_char (entry kv +:+ r) = entry kv +:+ r) as H.
  { intros r. unfold entry. pose proof (E_plain kv.1) as Hp.
    destruct (E kv.1) as [|c s]; [done|]. simpl in *.
    apply andb_true_iff in Hp as [Hc _]. unfold plain in Hc.
    apply andb_true_iff in Hc as [Hc _]. simpl in Hc.
    apply negb_true_iff in Hc. rewrite !orb_false_iff in Hc.
    simpl. rewrite !orb_false_r.
    destruct Hc as (-> & _ & _ & -> & -> & _). done. }
  destruct l as [|kv' l]; simpl.
  - rewrite <- (sapp_nil_r (entry kv)). apply H.
  - apply H.
Qed.

Lemma parse_join_entries (l : list (string * string)) :
  NoDup l.*1 →
  QueryString.parse (Str.join "&" (map entry l)) = list_to_map (map as_value l).
Proof.
  intros Hnd. unfold QueryString.parse.
  rewrite trim_nospace by apply join_entries_plain.
  destruct l as [|kv l]; [done|].
  rewrite join_entries_first, join_entries_nonempty.
  rewrite split_join.
  - rewrite fold_parse_entries by done. by rewrite (right_id_L ∅ (∪)).
  - done.
  - apply Forall_fmap, Forall_true. intros kv'. by apply entry_lacks.
Qed.

(** ** Objects with string values *)

Lemma sorted_entries_strings (st : obj) :
  string_valued st →
  ∃ l : list (string * string),
    QueryString.sorted_entries st = map as_value l
    ∧ NoDup l.*1
    ∧ list_to_map (map as_value l) = st.
Proof.
  intros Hst. unfold QueryString.sorted_entries.
  pose proof (merge_sort_Permutation QueryString.key_le (map_to_list st)) as Hperm.
  set (L := merge_sort QueryString.key_le (map_to_list st)) in *.
  assert (Forall (λ kv : string * value, ∃ s, kv.2 = VStr s) L) as Hall.
  { rewrite Hperm. apply list.Forall_forall. intros [k v] Hkv.
    apply elem_of_map_to_list in Hkv. simpl. eauto. }
  assert (NoDup L.*1) as Hnd.
  { rewrite Hperm. apply NoDup_fst_map_to_list. }
  exists (map (λ kv : string * value, (kv.1, string_of kv.2)) L).
  assert (map as_value (map (λ kv : string * value, (kv.1, string_of kv.2)) L) = L) as HL.
  { clear Hperm Hnd. induction Hall as [|[k v] L [s Hs] _ IH]; [done|].
    simpl in *. subst v. by rewrite IH. }
  rewrite HL. split_and!.
  - done.
  - rewrite <- list_fmap_compose.
    by change (fst ∘ (λ kv : string * value, (kv.1, string_of kv.2))) with (fst : string * value → string).
  - rewrite (list_to_map_proper L (map_to_list st)) by done.
    apply list_to_map_to_list.
Qed.

Lemma stringify_strings (st : obj) (l : list (string * string)) :
  QueryString.sorted_entries st = map as_value l →
  Codec.unescape (QueryString.stringify st) = Str.join "&" (map entry l).
Proof.
  intros Hl. unfold QueryString.stringify. rewrite Hl, filter_nonempty_entries.
  apply unescape_join.
Qed.

(** ** The split of a written link *)

Lemma join_entries_shape kv (l : list (string * string)) :
  ∃ r, Str.join "&" (map entry (kv :: l)) = E kv.1 +:+ String "=" r.
Proof.
  destruct l as [|kv' l].
  - exists (E kv.2). reflexivity.
  - exists (E kv.2 +:+ "&" +:+ Str.join "&" (map entry (kv' :: l))).
    cbn [map]. rewrite join_cons. unfold entry at 1. by rewrite !sapp_assoc.
Qed.

Lemma search_amp_after_equals r :
  Str.search "&" (String "=" r) = -1 ∨ 1 <= Str.search "&" (String "=" r).
Proof.
  simpl. destruct (Z.eqb_spec (Str.search "&" r) (-1)); [by left|].
  destruct (search_nonneg "&" r); [done|]. right. lia.
Qed.

Lemma split_link_params kv (l : list (string * string)) :
  Codec.split_link (Str.join "&" (map entry (kv :: l)))
  = (EmptyString, Str.join "&" (map entry (kv :: l))).
Proof.
  destruct (join_entries_shape kv l) as [r Hr].
  unfold Codec.split_link. rewrite join_entries_nonempty, Hr.
  rewrite search_at by (by apply plain_lacks, E_plain).
  rewrite (search_app "&") by (by apply plain_lacks, E_plain).
  destruct (Z.eqb_spec (Z.of_nat (String.length (E kv.1))) (-1)); [lia|].
  destruct (search_amp_after_equals r) as [->|Hge]; [done|].
  destruct (Z.eqb_spec (Str.search "&" (String "=" r)) (-1)); [lia|].
  destruct (Z.eqb_spec (Z.of_nat (String.length (E kv.1)) + Str.search "&" (String "=" r)) (-1));
    [lia|].
  destruct (Z.ltb_spec (Z.of_nat (String.length (E kv.1)) + Str.search "&" (String "=" r))
              (Z.of_nat (String.length (E kv.1)))); [lia|done].
Qed.

Lemma split_link_path (p : string) :
  Str.is_empty p = false → sforall plain p = true →
  Codec.split_link p = (p, EmptyString).
Proof.
  intros Hne Hp. unfold Codec.split_link. rewrite Hne.
  rewrite !search_lacks by (by apply plain_lacks). done.
Qed.

Lemma split_link_path_params (p : string) kv (l : list (string * string)) :
  Str.is_empty p = false → sforall plain p = true →
  Codec.split_link (p +:+ "&" +:+ Str.join "&" (map entry (kv :: l)))
  = (p, Str.join "&" (map entry (kv :: l))).
Proof.
  intros Hne Hp. destruct (join_entries_shape kv l) as [r Hr].
  unfold Codec.split_link.
  assert (Str.is_empty (p +:+ "&" +:+ Str.join "&" (map entry (kv :: l))) = false)
    as -> by (by destruct p).
  change (p +:+ "&" +:+ ?x) with (p +:+ String "&" x).
  rewrite (search_at "&") by (by apply plain_lacks).
  rewrite (search_app "=") by (by apply plain_lacks).
  assert (Str.search "=" (String "&" (Str.join "&" (map entry (kv :: l))))
          = Z.of_nat (String.length (E kv.1)) + 1) as ->.
  { rewrite Hr. cbn [Str.search].
    change (Str.eqb_ascii "&" "=") with false. cbv iota.
    rewrite search_at by (by apply plain_lacks, E_plain).
    destruct (Z.eqb_spec (Z.of_nat (String.length (E kv.1))) (-1)); [lia|done]. }
  destruct (Z.eqb_spec (Z.of_nat (String.length (E kv.1)) + 1) (-1)); [lia|].
  destruct (Z.eqb_spec (Z.of_nat (String.length p) + (Z.of_nat (String.length (E kv.1)) + 1)) (-1));
    [lia|].
  destruct (Z.eqb_spec (Z.of_nat (String.length p)) (-1)); [lia|].
  destruct (Z.ltb_spec (Z.of_nat (String.length p))
              (Z.of_nat (String.length p) + (Z.of_nat (String.length (E kv.1)) + 1))); [|lia].
  by rewrite substr_to_app, substr_from_app.
Qed.

(** ** The codec *)

Lemma format_with_lookup sel params (st : obj) (k : string) :
  format_with sel params st !! k = formatted_value sel params k <$> st !! k.
Proof.
  unfold format_with.
  apply (map_fold_weak_ind
    (λ (r : obj) (m : formatters), r !! k = formatted_value sel m k <$> st !! k)).
  - destruct (st !! k) as [v|]; simpl; [|done].
    unfold formatted_value. by rewrite lookup_empty.
  - intros i p m r Hi IH. unfold format_step.
    destruct (decide (i = k)) as [->|Hne].
    + unfold formatted_value in *. rewrite Hi in IH. rewrite IH, lookup_insert_eq.
      destruct (st !! k) as [v|]; simpl in *; [|done].
      destruct (sel p) as [f|]; [|done].
      destruct (JS.truthy v); [|done]. by rewrite lookup_insert_eq.
    + assert (formatted_value sel (<[i:=p]> m) k = formatted_value sel m k) as ->.
      { unfold formatted_value. by rewrite lookup_insert_ne. }
      destruct (r !! i) as [v|]; [|done].
      destruct (sel p) as [f|]; [|done].
      destruct (JS.truthy v); [|done]. by rewrite lookup_insert_ne.
Qed.

Lemma format_with_id sel params (st : obj) :
  (∀ k, is_Some (st !! k) → params !! k = None) →
  format_with sel params st = st.
Proof.
  intros H. apply map_eq. intros k. rewrite format_with_lookup.
  destruct (st !! k) as [v|] eqn:Hk; [|done]. simpl.
  unfold formatted_value. by rewrite H.
Qed.

Lemma is_empty_app_cons a c b : Str.is_empty (a +:+ String c b) = false.
Proof. by destruct a. Qed.

Lemma stringify_unfold params st :
  Codec.stringify params st =
    '(link, st2) ← Codec.location_stage (Codec.path_stage st).1 (Codec.path_stage st).2;
    Ok (Codec.encode_stage link
          (format_with Formatter.stringify params (Codec.filter_null st2))).
Proof. unfold Codec.stringify. by destruct (Codec.path_stage st). Qed.

Lemma path_stage_other st k :
  k ≠ "path" → (Codec.path_stage st).2 !! k = st !! k.
Proof.
  intros Hk. unfold Codec.path_stage.
  destruct (st !! "path") as [p|]; [|done].
  destruct (JS.truthy p); [|done]. simpl. by rewrite lookup_delete_ne.
Qed.

(** C4, as amended: when [zoom], [lat] and [lon] are all truthy (present
    and not [null], zero, NaN or the empty string) and [lat] and [lon] are
    numbers, [stringify] writes, after the path, the segment
    [map=<zoom>/<lat>/<lon>]: the zoom as an integer, the coordinates with
    the number of decimals the table gives for the zoom (above 16: 5,
    above 8: 4, above 4: 3, above 2: 2, above 1: 1, otherwise 0), and the
    three keys are not among the parameters encoded behind it. *)
Theorem stringify_map_segment (params : formatters) (st : obj)
    (zoom : value) (lat lon : number) :
  st !! "zoom" = Some zoom →
  st !! "lat" = Some (VNum lat) →
  st !! "lon" = Some (VNum lon) →
  JS.truthy zoom = true →
  Num.truthy lat = true →
  Num.truthy lon = true →
  let p := Codec.precision_of zoom in
  let path := (Codec.path_stage st).1 in
  let others :=
    format_with Formatter.stringify params
      (Codec.filter_null
         (delete "lon" (delete "lat" (delete "zoom" (Codec.path_stage st).2)))) in
  let rest := Codec.unescape (QueryString.stringify others) in
  Codec.stringify params st
  = Ok (path +:+ (if Str.is_empty path then "" else "&")
        +:+ "map=" +:+ Num.toFixed (JS.parseFloat zoom) 0
        +:+ "/" +:+ Num.toFixed lat p +:+ "/" +:+ Num.toFixed lon p
        +:+ (if Str.is_empty rest then "" else "&" +:+ rest))
  ∧ p = (if JS.gt zoom 16 then 5%nat else if JS.gt zoom 8 then 4%nat
         else if JS.gt zoom 4 then 3%nat else if JS.gt zoom 2 then 2%nat
         else if JS.gt zoom 1 then 1%nat else 0%nat)
  ∧ others !! "zoom" = None ∧ others !! "lat" = None ∧ others !! "lon" = None.
Proof.
  intros Hz Hla Hlo Tz Tla Tlo p path others rest.
  split_and!.
  - rewrite stringify_unfold. unfold Codec.location_stage.
    rewrite !path_stage_other by done. rewrite Hz, Hla, Hlo. simpl.
    rewrite Tz, Tla, Tlo. simpl.
    unfold Codec.locPrecision. rewrite path_stage_other by done. rewrite Hz, Tz.
    unfold mbind, result_bind; simpl. f_equal.
    unfold Codec.encode_stage. fold others. fold rest. fold path. fold p.
    unfold Codec.map_segment, Codec.sep.
    destruct (Str.is_empty rest) eqn:Hrest.
    + simpl. by rewrite sapp_nil_r.
    + simpl. destruct (Str.is_empty (path +:+ _)) eqn:He.
      * by destruct path, (Str.is_empty "").
      * by repeat first [rewrite sapp_assoc | progress simpl].
  - reflexivity.
  - unfold others. rewrite format_with_lookup. unfold Codec.filter_null.
    rewrite map_lookup_filter.
    rewrite lookup_delete_ne, lookup_delete_ne, lookup_delete_eq by done. done.
  - unfold others. rewrite format_with_lookup. unfold Codec.filter_null.
    rewrite map_lookup_filter.
    rewrite lookup_delete_ne, lookup_delete_eq by done. done.
  - unfold others. rewrite format_with_lookup. unfold Codec.filter_null.
    rewrite map_lookup_filter. rewrite lookup_delete_eq. done.
Qed.

Lemma map_segment_witness :
  (Sample.zoom17 !! "zoom" = Some (VNum (Dec 17 0))
   ∧ Sample.zoom17 !! "lat" = Some (VNum (Dec 1123456789 9))
   ∧ Sample.zoom17 !! "lon" = Some (VNum (Dec 2987654321 9))
   ∧ JS.truthy (VNum (Dec 17 0)) = true
   ∧ Num.truthy (Dec 1123456789 9) = true
   ∧ Num.truthy (Dec 2987654321 9) = true)
  ∧ Codec.stringify ∅ Sample.zoom17 = Ok "map=17/1.12346/2.98765".
Proof.
  split; [repeat split; vm_compute; reflexivity|].
  pose proof (stringify_map_segment ∅ Sample.zoom17 (VNum (Dec 17 0))
                (Dec 1123456789 9) (Dec 2987654321 9)
                eq_refl eq_refl eq_refl eq_refl eq_refl eq_refl) as [H _].
  vm_compute in H. vm_compute. exact H.
Defined.

(** The counterexample to C4 as stated: all three keys are present, the
    latitude is 0, and no [map] segment is written (by the table it would
    be [map=5/0.000/10.000]); the keys stay among the parameters. *)
Lemma zero_latitude_gets_no_map_segment :
  is_Some (Sample.equator !! "zoom")
  ∧ is_Some (Sample.equator !! "lat")
  ∧ is_Some (Sample.equator !! "lon")
  ∧ Codec.stringify ∅ Sample.equator = Ok "lat=0&lon=10&zoom=5"
  ∧ Codec.stringify ∅ Sample.equator ≠ Ok "map=5/0.000/10.000".
Proof. repeat split; vm_compute; eauto; discriminate. Qed.

Lemma precision_of_number (m : Z) (s : nat) :
  Codec.precision_of (VNum (Dec m s))
  = if 16 * 10 ^ Z.of_nat s <? m then 5%nat
    else if 8 * 10 ^ Z.of_nat s <? m then 4%nat
    else if 4 * 10 ^ Z.of_nat s <? m then 3%nat
    else if 2 * 10 ^ Z.of_nat s <? m then 2%nat
    else if 1 * 10 ^ Z.of_nat s <? m then 1%nat
    else 0%nat.
Proof.
  unfold Codec.precision_of, JS.gt, JS.to_number, Num.gt, Num.of_Z.
  change (10 ^ Z.of_nat 0)%Z with 1%Z. by rewrite Z.mul_1_r.
Qed.

(** C8, as amended: for a key with a registered formatter that has a
    [stringify] function, and a truthy value of that key among the
    parameters left after the path and the map segment, the value encoded
    into the output is [formatter.stringify(value)]. (A falsy value, such
    as 0 or the empty string, is encoded as it is:
    [stringify_keeps_falsy_values].) *)
Theorem stringify_formats_truthy_values (params : formatters) (st : obj)
    (k : string) (p : Formatter.t) (f : value → value)
    (link : string) (st2 : obj) (v : value) :
  params !! k = Some p →
  Formatter.stringify p = Some f →
  Codec.location_stage (Codec.path_stage st).1 (Codec.path_stage st).2 = Ok (link, st2) →
  st2 !! k = Some v →
  JS.truthy v = true →
  let encoded := format_with Formatter.stringify params (Codec.filter_null st2) in
  Codec.stringify params st = Ok (Codec.encode_stage link encoded)
  ∧ encoded !! k = Some (f v).
Proof.
  intros Hp Hf Hloc Hk Hv encoded. split.
  - rewrite stringify_unfold, Hloc. reflexivity.
  - unfold encoded. rewrite format_with_lookup. unfold Codec.filter_null.
    rewrite map_lookup_filter, Hk. simpl.
    rewrite option_guard_True by (by destruct v). simpl.
    unfold formatted_value. by rewrite Hp, Hf, Hv.
Qed.

Lemma formatter_witness :
  (Sample.formats_a !! "a" = Some Sample.always_X
   ∧ Formatter.stringify Sample.always_X = Some (λ _, VStr "X")
   ∧ Codec.location_stage (Codec.path_stage {[ "a" := VNum (Dec 7 0) ]}).1
       (Codec.path_stage {[ "a" := VNum (Dec 7 0) ]}).2
     = Ok (EmptyString, {[ "a" := VNum (Dec 7 0) ]})
   ∧ ({[ "a" := VNum (Dec 7 0) ]} : obj) !! "a" = Some (VNum (Dec 7 0))
   ∧ JS.truthy (VNum (Dec 7 0)) = true)
  ∧ Codec.stringify Sample.formats_a {[ "a" := VNum (Dec 7 0) ]} = Ok "a=X".
Proof.
  split; [repeat split; vm_compute; reflexivity|].
  pose proof (stringify_formats_truthy_values Sample.formats_a
                {[ "a" := VNum (Dec 7 0) ]} "a" Sample.always_X (λ _, VStr "X")
                EmptyString {[ "a" := VNum (Dec 7 0) ]} (VNum (Dec 7 0))
                eq_refl eq_refl eq_refl eq_refl eq_refl) as [H _].
  vm_compute in H. vm_compute. exact H.
Defined.

(** The counterexample to C8 as stated: the key has a formatter whose
    [stringify] returns [X], its value is 0, and 0 is what is encoded. *)
Lemma zero_is_not_formatted :
  Sample.formats_a !! "a" = Some Sample.always_X
  ∧ Formatter.stringify Sample.always_X = Some (λ _, VStr "X")
  ∧ Codec.stringify Sample.formats_a {[ "a" := VNum (Dec 0 0) ]} = Ok "a=0"
  ∧ Codec.stringify Sample.formats_a {[ "a" := VNum (Dec 0 0) ]} ≠ Ok "a=X".
Proof. repeat split; vm_compute; eauto; discriminate. Qed.

Lemma stringify_keeps_falsy_values (params : formatters) (st : obj)
    (k : string) (link : string) (st2 : obj) (v : value) :
  Codec.location_stage (Codec.path_stage st).1 (Codec.path_stage st).2 = Ok (link, st2) →
  st2 !! k = Some v →
  v ≠ VNull →
  JS.truthy v = false →
  format_with Formatter.stringify params (Codec.filter_null st2) !! k = Some v.
Proof.
  intros Hloc Hk Hn Hv. rewrite format_with_lookup. unfold Codec.filter_null.
  rewrite map_lookup_filter, Hk. simpl.
  rewrite option_guard_True by done. simpl.
  unfold formatted_value. rewrite Hv.
  destruct (params !! k) as [p|]; [|done]. by destruct (Formatter.stringify p).
Qed.

Lemma expand_map_auto (st st' : obj) (v : value) :
  Codec.expand_map st = Ok st' → st' !! "map" = Some v → v = VStr "auto".
Proof.
  unfold Codec.expand_map. destruct (st !! "map") as [m|] eqn:Hm.
  - destruct (decide (m = VStr "auto")) as [->|Hne].
    + intros [= <-]. rewrite Hm. by intros [= <-].
    + destruct m; try done. intros [= <-]. by rewrite lookup_delete_eq.
  - intros [= <-]. by rewrite Hm.
Qed.

Lemma parse_map_auto (params : formatters) (h : string) (link : option string)
    (st : obj) (v : value) :
  (∀ p, params !! "map" = Some p → Formatter.parse p = None) →
  Codec.parse params h link = Ok st →
  st !! "map" = Some v →
  v = VStr "auto".
Proof.
  intros Hp. unfold Codec.parse.
  destruct (Codec.split_link _) as [newPath rest].
  unfold mbind, result_bind, rbind.
  destruct (if Str.is_empty newPath then _ else _) as [st1|e]; [|done].
  destruct (Codec.expand_map st1) as [st2|e] eqn:He; [|done].
  intros [= <-]. rewrite format_with_lookup.
  destruct (st2 !! "map") as [m|] eqn:Hm; [|done]. simpl.
  intros [= <-]. rewrite (expand_map_auto _ _ _ He Hm).
  unfold formatted_value. destruct (params !! "map") as [p|] eqn:Hpm; [|done].
  by rewrite (Hp p).
Qed.

(** The other rows of the zoom table, on the example of the specification. *)
Example stringify_zoom9 :
  Codec.stringify ∅
    {[ "zoom" := VNum (Dec 9 0); "lat" := VNum (Dec 1123456789 9);
       "lon" := VNum (Dec 2987654321 9) ]}
  = Ok "map=9/1.1235/2.9877".
Proof. vm_compute. reflexivity. Qed.

Example stringify_zoom_half :
  Codec.stringify ∅
    {[ "zoom" := VNum (Dec 5 1); "lat" := VNum (Dec 1123456789 9);
       "lon" := VNum (Dec 2987654321 9) ]}
  = Ok "map=1/1/3".
Proof. vm_compute. reflexivity. Qed.

(** A zoom given as a string is compared as a number. *)
Example stringify_zoom_string :
  Codec.stringify ∅
    {[ "zoom" := VStr "17"; "lat" := VNum (Dec 15 1); "lon" := VNum (Dec 25 1) ]}
  = Ok "map=17/1.50000/2.50000".
Proof. vm_compute. reflexivity. Qed.

(** ** The round trip *)

Lemma expand_map_id (st : obj) :
  (∀ v, st !! "map" = Some v → v = VStr "auto") → Codec.expand_map st = Ok st.
Proof.
  intros H. unfold Codec.expand_map. destruct (st !! "map") as [m|]; [|done].
  rewrite (H m eq_refl). by rewrite decide_True.
Qed.

Lemma filter_null_strings (st : obj) : string_valued st → Codec.filter_null st = st.
Proof.
  intros Hst. apply map_filter_id. intros k v Hk.
  destruct (Hst k v Hk) as [s ->]. done.
Qed.

Lemma path_stage_strings (st : obj) :
  string_valued st →
  ((Codec.path_stage st).1 = EmptyString ∧ (Codec.path_stage st).2 = st
   ∧ ∀ p, st !! "path" = Some p → p = VStr EmptyString)
  ∨ (∃ c s, st !! "path" = Some (VStr (String c s))
            ∧ (Codec.path_stage st).1 = URI.encodeURIComponent (String c s)
            ∧ (Codec.path_stage st).2 = delete "path" st).
Proof.
  intros Hst. unfold Codec.path_stage.
  destruct (st !! "path") as [p|] eqn:Hp; [|left; done].
  destruct (Hst _ _ Hp) as [[|c s] ->]; simpl.
  - left. split_and!; try done. by intros ? [= <-].
  - right. by exists c, s.
Qed.

Lemma location_stage_skipped link (st : obj) :
  JS.truthy_at st "zoom" && JS.truthy_at st "lat" && JS.truthy_at st "lon" = false →
  Codec.location_stage link st = Ok (link, st).
Proof.
  unfold Codec.location_stage, JS.truthy_at.
  destruct (st !! "zoom") as [z|]; [|done].
  destruct (st !! "lat") as [la|]; [|done].
  destruct (st !! "lon") as [lo|]; [|done].
  by intros ->.
Qed.

Lemma parse_written (params : formatters) (h : string) (p : string)
    (l : list (string * string)) (st : obj) :
  NoDup l.*1 →
  sforall plain p = true →
  (∀ k, is_Some (st !! k) → params !! k = None) →
  (∀ v, st !! "map" = Some v → v = VStr "auto") →
  (Str.is_empty p = true → l = [] → Str.strip_leading "#" h = EmptyString) →
  (if Str.is_empty p then Ok (list_to_map (map as_value l))
   else s ← URI.decodeURIComponent p; Ok (<["path" := VStr s]> (list_to_map (map as_value l))))
  = Ok st →
  let newHash := Str.join "&" (map entry l) in
  Codec.parse params h
    (Some (if Str.is_empty newHash then p else p +:+ Codec.sep p +:+ newHash))
  = Ok st.
Proof.
  intros Hnd Hp Hparams Hmap Hhash Hst newHash. unfold Codec.parse.
  assert (∀ path rest,
    QueryString.parse rest = list_to_map (map as_value l) →
    path = p →
    (newState ← (if Str.is_empty path then Ok (QueryString.parse rest)
                 else s ← URI.decodeURIComponent path;
                      Ok (<["path" := VStr s]> (QueryString.parse rest)));
     newState ← Codec.expand_map newState;
     Ok (format_with Formatter.parse params newState)) = Ok st) as Hrest.
  { intros path rest -> ->. rewrite Hst. simpl.
    rewrite expand_map_id by done. simpl. by rewrite format_with_id. }
  destruct l as [|kv l]; subst newHash.
  - change (if Str.is_empty (Str.join "&" (map entry [])) then p else _) with p.
    destruct (Str.is_empty p) eqn:Hne.
    + destruct p; [|done]. change (Str.is_empty "") with true. cbv iota.
      rewrite Hhash by done. change (Codec.split_link "") with ("", "").
      by apply Hrest.
    + rewrite split_link_path by done. by apply Hrest.
  - rewrite join_entries_nonempty.
    destruct (Str.is_empty p) eqn:Hne.
    + destruct p; [|done]. unfold Codec.sep.
      change (Str.is_empty "") with true. cbv iota.
      change ("" +:+ "" +:+ ?x) with x.
      rewrite join_entries_nonempty, split_link_params.
      apply Hrest; [|done]. by apply parse_join_entries.
    + unfold Codec.sep. rewrite Hne.
      assert (Str.is_empty (p +:+ "&" +:+ Str.join "&" (map entry (kv :: l))) = false)
        as -> by (by destruct p).
      rewrite split_link_path_params by done.
      apply Hrest; [|done]. by apply parse_join_entries.
Qed.

(** C3, as amended: [parse(stringify(state))] reproduces [state] exactly
    when every value of [state] (the path included) is a string, no key
    of [state] has a registered formatter, [map] is absent or the literal
    [auto], [zoom], [lat] and [lon] are not all three non-empty, and the
    state is not empty (or the fragment of the page is): the empty state is
    written as the empty link, for which [parse] reads the page's
    fragment. *)
Theorem parse_stringify_roundtrip (params : formatters) (h : string) (st : obj) :
  string_valued st →
  (∀ k, is_Some (st !! k) → params !! k = None) →
  (∀ v, st !! "map" = Some v → v = VStr "auto") →
  JS.truthy_at st "zoom" && JS.truthy_at st "lat" && JS.truthy_at st "lon" = false →
  (st = ∅ → Str.strip_leading "#" h = EmptyString) →
  ∃ link, Codec.stringify params st = Ok link
          ∧ Codec.parse params h (Some link) = Ok st.
Proof.
  intros Hst Hparams Hmap Hloc Hhash.
  set (p := (Codec.path_stage st).1). set (st1 := (Codec.path_stage st).2).
  assert (string_valued st1 ∧ (∀ k, is_Some (st1 !! k) → is_Some (st !! k))) as [Hst1 Hsub].
  { destruct (path_stage_strings st Hst) as [(_ & H1 & _)|(c & s & _ & _ & H1)];
      subst st1; rewrite H1; [done|].
    split.
    - intros k v. rewrite lookup_delete_Some. intros [_ ?]. eauto.
    - intros k. rewrite lookup_delete_is_Some. tauto. }
  destruct (sorted_entries_strings st1 Hst1) as (l & Hl & Hnd & Hmapl).
  exists (Codec.encode_stage p st1). split.
  - rewrite stringify_unfold. fold p. fold st1.
    rewrite location_stage_skipped.
    + simpl. rewrite filter_null_strings by done.
      rewrite format_with_id; [done|]. intros k Hk. by apply Hparams, Hsub.
    + subst st1. unfold JS.truthy_at. by rewrite !path_stage_other.
  - unfold Codec.encode_stage. rewrite (stringify_strings st1 l Hl).
    apply parse_written; try done.
    + subst p. destruct (path_stage_strings st Hst) as [(-> & _)|(c & s & _ & -> & _)]; [done|].
      apply uri_encode_plain.
    + intros Hp ->. apply Hhash. simpl in Hmapl. subst p st1.
      destruct (path_stage_strings st Hst) as [(_ & H1 & _)|(c & s & _ & H2 & _)].
      * by rewrite <- H1.
      * by rewrite H2, uri_encode_nonempty in Hp.
    + rewrite Hmapl. subst p st1.
      destruct (path_stage_strings st Hst) as [(-> & -> & _)|(c & s & Hpath & -> & ->)].
      * done.
      * rewrite uri_encode_nonempty, uri_decode_encode. simpl.
        rewrite insert_delete_id; done.
Qed.

Lemma string_valued_check (st : obj) :
  map_Forall (λ _ v, v = VStr (string_of v)) st → string_valued st.
Proof. intros H k v Hk. exists (string_of v). exact (H k v Hk). Qed.

Lemma roundtrip_witness :
  (string_valued Sample.place
   ∧ (∀ k, is_Some (Sample.place !! k) → (∅ : formatters) !! k = None)
   ∧ (∀ v, Sample.place !! "map" = Some v → v = VStr "auto")
   ∧ JS.truthy_at Sample.place "zoom" && JS.truthy_at Sample.place "lat"
     && JS.truthy_at Sample.place "lon" = false
   ∧ (Sample.place = ∅ → Str.strip_leading "#" "#x=1" = EmptyString))
  ∧ ∃ link, Codec.stringify ∅ Sample.place = Ok link
            ∧ Codec.parse ∅ "#x=1" (Some link) = Ok Sample.place.
Proof.
  assert (string_valued Sample.place) as H1.
  { apply string_valued_check. apply (bool_decide_unpack _). by vm_compute. }
  assert (∀ k, is_Some (Sample.place !! k) → (∅ : formatters) !! k = None) as H2.
  { intros k _. apply lookup_empty. }
  assert (∀ v, Sample.place !! "map" = Some v → v = VStr "auto") as H3.
  { intros v H. vm_compute in H. discriminate. }
  assert (Sample.place = ∅ → Str.strip_leading "#" "#x=1" = EmptyString) as H5.
  { intros H. apply (f_equal (λ m : obj, m !! "q")) in H. vm_compute in H. discriminate. }
  split; [by split_and!|].
  exact (parse_stringify_roundtrip ∅ "#x=1" Sample.place H1 H2 H3 eq_refl H5).
Defined.

Example roundtrip_place :
  Codec.stringify ∅ Sample.place = Ok "a%20b&lang=de&q=x/y,z"
  ∧ Codec.parse ∅ "" (Some "a%20b&lang=de&q=x/y,z") = Ok Sample.place.
Proof. split; vm_compute; reflexivity. Qed.

(** The counterexample to C3 as stated: [{x: 1}] holds a non-null scalar
    without formatter, and comes back as [{x: "1"}]. *)
Lemma number_does_not_round_trip :
  Codec.stringify ∅ Sample.x1 = Ok "x=1"
  ∧ Codec.parse ∅ "" (Some "x=1") = Ok {[ "x" := VStr "1" ]}
  ∧ Codec.parse ∅ "" (Some "x=1") ≠ Ok Sample.x1.
Proof. split_and!; [by vm_compute|by vm_compute|]. vm_compute. discriminate. Qed.

(** The empty state is written as the empty link, and [parse] then reads
    the fragment of the page. *)
Example empty_state_reads_fragment :
  Codec.stringify ∅ ∅ = Ok EmptyString
  ∧ Codec.parse ∅ "#a=b" (Some EmptyString) = Ok {[ "a" := VStr "b" ]}.
Proof. split; vm_compute; reflexivity. Qed.

(** A [map] that is not [auto] does not come back either. *)
Example map_string_is_expanded :
  Codec.stringify ∅ {[ "map" := VStr "1/2/3" ]} = Ok "map=1/2/3"
  ∧ Codec.parse ∅ "" (Some "map=1/2/3")
    = Ok {[ "zoom" := VNum (Dec 1 0); "lat" := VNum (Dec 2 0); "lon" := VNum (Dec 3 0) ]}.
Proof. split; vm_compute; reflexivity. Qed.

(** Strings in [zoom], [lat] and [lon] make [stringify] throw. *)
Example string_coordinates_throw :
  Codec.stringify ∅ {[ "zoom" := VStr "5"; "lat" := VStr "1"; "lon" := VStr "2" ]}
  = Throw (TypeError "toFixed is not a function").
Proof. vm_compute. reflexivity. Qed.

(** ** The store *)

Section store_lemmas.
Context {A : Type}.
Implicit Types (h l : list A) (x y z : A).

Lemma lookup_ext0 h x l : (h ++ x :: l) !! length h = Some x.
Proof. by rewrite list_lookup_middle. Qed.

Lemma lookup_ext1 h x y l : (h ++ x :: y :: l) !! S (length h) = Some y.
Proof.
  replace (h ++ x :: y :: l) with ((h ++ [x]) ++ y :: l) by by rewrite <- app_assoc.
  apply list_lookup_middle. rewrite length_app. simpl. lia.
Qed.

Lemma insert_ext0 h x z l : <[length h := z]> (h ++ x :: l) = h ++ z :: l.
Proof. rewrite insert_app_r_alt by lia. by rewrite Nat.sub_diag. Qed.

Lemma insert_ext1 h x y z l :
  <[S (length h) := z]> (h ++ x :: y :: l) = h ++ x :: z :: l.
Proof.
  rewrite insert_app_r_alt by lia.
  by replace (S (length h) - length h)%nat with 1%nat by lia.
Qed.

Lemma lookup_ext_old h l r x : h !! r = Some x → (h ++ l) !! r = Some x.
Proof. intros. by apply lookup_app_l_Some. Qed.
End store_lemmas.

Ltac run :=
  unfold mbind, M_bind, mret, M_ret, read, load, alloc, store, modify, lift, throw; simpl.

Ltac heap_norm :=
  repeat first
    [ rewrite lookup_ext0 | rewrite lookup_ext1
    | rewrite insert_ext0 | rewrite insert_ext1
    | rewrite length_app | rewrite Nat.add_1_r
    | rewrite <- app_assoc | progress simpl ].

Lemma stringify_some w r o :
  heap w !! r = Some o →
  State.stringify (Some r) w =
    match Codec.location_stage (Codec.path_stage o).1 (Codec.path_stage o).2 with
    | Ok (link, o2) =>
        let o3 := format_with Formatter.stringify (parameters w) (Codec.filter_null o2) in
        (Ok (Codec.encode_stage link o3), set_heap (heap w ++ [o2; o3]) w)
    | Throw e => (Throw e, set_heap (heap w ++ [(Codec.path_stage o).2]) w)
    end.
Proof.
  intros Hr. unfold State.stringify. run. rewrite Hr. heap_norm.
  destruct (Codec.path_stage o) as [link o1]. heap_norm.
  destruct (Codec.location_stage link o1) as [[link2 o2]|e]; heap_norm; reflexivity.
Qed.

Lemma stringify_none w :
  State.stringify None w =
    let o := State.emit_get (get_listeners w) ∅ in
    match Codec.location_stage (Codec.path_stage o).1 (Codec.path_stage o).2 with
    | Ok (link, o2) =>
        let o3 := format_with Formatter.stringify (parameters w) (Codec.filter_null o2) in
        (Ok (Codec.encode_stage link o3), set_heap (heap w ++ [o; o2; o3]) w)
    | Throw e => (Throw e, set_heap (heap w ++ [o; (Codec.path_stage o).2]) w)
    end.
Proof.
  unfold State.stringify, State.get. run. heap_norm.
  destruct (Codec.path_stage _) as [link o1]. heap_norm.
  destruct (Codec.location_stage link o1) as [[link2 o2]|e]; heap_norm; reflexivity.
Qed.

Lemma stringify_extends arg w :
  ∃ l, (State.stringify arg w).2 = set_heap (heap w ++ l) w.
Proof.
  destruct arg as [r|].
  - destruct (heap w !! r) as [o|] eqn:Hr.
    + rewrite (stringify_some w r o Hr).
      destruct (Codec.location_stage _ _) as [[link o2]|e]; simpl; eauto.
    + exists []. unfold State.stringify. run. rewrite Hr. simpl.
      rewrite app_nil_r. by destruct w.
  - rewrite stringify_none. simpl.
    destruct (Codec.location_stage _ _) as [[link o2]|e]; simpl; eauto.
Qed.

Lemma stringify_result w r o :
  heap w !! r = Some o →
  (State.stringify (Some r) w).1 = Codec.stringify (parameters w) o.
Proof.
  intros Hr. rewrite (stringify_some w r o Hr). unfold Codec.stringify.
  destruct (Codec.path_stage o) as [link o1]. simpl.
  unfold mbind, result_bind, rbind.
  by destruct (Codec.location_stage link o1) as [[link2 o2]|e].
Qed.

Lemma stringify_none_result w :
  (State.stringify None w).1
  = Codec.stringify (parameters w) (State.emit_get (get_listeners w) ∅).
Proof.
  rewrite stringify_none. unfold Codec.stringify. simpl.
  destruct (Codec.path_stage _) as [link o1]. simpl.
  unfold mbind, result_bind, rbind.
  by destruct (Codec.location_stage link o1) as [[link2 o2]|e].
Qed.

(** C9: [stringify] never changes the object it is given. The object at
    the argument's location is the same after the call, and so is every
    other object that existed before it: the deletions of [path], [zoom],
    [lat] and [lon], the filter of [null]s and the formatters all work on
    objects made during the call. The string returned is the one the codec
    computes from the argument. *)
Theorem stringify_keeps_argument (w : world) (r : loc) (o : obj) :
  heap w !! r = Some o →
  heap (State.stringify (Some r) w).2 !! r = Some o
  ∧ (∀ r' o', heap w !! r' = Some o' → heap (State.stringify (Some r) w).2 !! r' = Some o')
  ∧ (State.stringify (Some r) w).1 = Codec.stringify (parameters w) o.
Proof.
  intros Hr. destruct (stringify_extends (Some r) w) as [l Hl].
  rewrite Hl. simpl. split_and!.
  - by apply lookup_ext_old.
  - intros. by apply lookup_ext_old.
  - by apply stringify_result.
Qed.

Lemma stringify_keeps_witness :
  heap (World [Sample.draft] 0%nat None ∅ [] [] "" [] [] []) !! 0%nat = Some Sample.draft
  ∧ heap (State.stringify (Some 0%nat)
            (World [Sample.draft] 0%nat None ∅ [] [] "" [] [] [])).2 !! 0%nat
    = Some Sample.draft
  ∧ (State.stringify (Some 0%nat)
       (World [Sample.draft] 0%nat None ∅ [] [] "" [] [] [])).1 = Ok "p".
Proof.
  pose proof (stringify_keeps_argument
                (World [Sample.draft] 0%nat None ∅ [] [] "" [] [] []) 0%nat
                Sample.draft eq_refl) as (H1 & _ & H3).
  split_and!; [reflexivity|exact H1|].
  rewrite H3. vm_compute. reflexivity.
Defined.

(** Had [stringify] worked on its argument, the object would have lost
    its path and its [null]: the objects made during the call show it. *)
Example stringify_works_on_copies :
  heap (State.stringify (Some 0%nat)
          (World [Sample.draft] 0%nat None ∅ [] [] "" [] [] [])).2
  = [Sample.draft; {[ "note" := VNull ]}; ∅].
Proof. vm_compute. reflexivity. Qed.

Lemma apply_object_cases w r cur opts :
  heap w !! current w = Some cur →
  State.apply (IObject r) opts w =
    match (heap w ++ [cur]) !! r with
    | Some delta => finish r opts (merged [] cur delta w)
    | None => (Throw (TypeError "not an object"),
               set_heap (heap w ++ [cur]) (set_previous (Some (length (heap w))) w))
    end.
Proof.
  intros Hc. unfold State.apply, finish, merged.
  unfold mbind at 1, M_bind at 1. simpl.
  unfold mbind at 1, M_bind at 1. unfold load at 1. rewrite Hc.
  unfold mbind at 1, M_bind at 1. unfold alloc at 1.
  unfold mbind at 1, M_bind at 1. unfold modify at 1.
  unfold mbind at 1, M_bind at 1. unfold mret at 1, M_ret at 1.
  unfold mbind at 1, M_bind at 1. unfold load at 1. simpl.
  destruct ((heap w ++ [cur]) !! r) as [delta|] eqn:Hr; [|reflexivity].
  unfold mbind at 1, M_bind at 1. unfold load at 1. simpl.
  rewrite (lookup_ext_old _ [cur] _ _ Hc).
  unfold mbind at 1, M_bind at 1. unfold store at 1, modify at 1. simpl.
  rewrite insert_app_l by (by eapply lookup_lt_Some).
  reflexivity.
Qed.

Lemma apply_object_run w r cur delta opts :
  heap w !! current w = Some cur →
  heap w !! r = Some delta →
  State.apply (IObject r) opts w = finish r opts (merged [] cur delta w).
Proof.
  intros Hc Hr. rewrite (apply_object_cases w r cur opts Hc).
  by rewrite (lookup_ext_old _ [cur] _ _ Hr).
Qed.

Lemma apply_parse_run w link cur delta input opts :
  heap w !! current w = Some cur →
  (input = INull ∧ link = None ∨ ∃ s, input = IString s ∧ link = Some s) →
  Codec.parse (parameters w) (hash w) link = Ok delta →
  State.apply input opts w
  = finish (S (length (heap w))) opts (merged [delta] cur delta w).
Proof.
  intros Hc Hin Hp. unfold State.apply, finish, merged.
  unfold mbind at 1, M_bind at 1. simpl.
  unfold mbind at 1, M_bind at 1. unfold load at 1. rewrite Hc.
  unfold mbind at 1, M_bind at 1. unfold alloc at 1.
  unfold mbind at 1, M_bind at 1. unfold modify at 1.
  unfold mbind at 1, M_bind at 1.
  assert (match input with
          | INull => State.parse None
          | IString s => State.parse (Some s)
          | IObject r => mret r
          end = State.parse link) as ->.
  { destruct Hin as [[-> ->]|(s & -> & ->)]; reflexivity. }
  unfold State.parse at 1. run. rewrite Hp. heap_norm.
  rewrite (lookup_ext_old _ [cur; delta] _ _ Hc).
  unfold set_heap, set_previous; simpl.
  rewrite insert_app_l by (by eapply lookup_lt_Some).
  reflexivity.
Qed.

Lemma apply_parse_throws w link cur e input opts :
  heap w !! current w = Some cur →
  (input = INull ∧ link = None ∨ ∃ s, input = IString s ∧ link = Some s) →
  Codec.parse (parameters w) (hash w) link = Throw e →
  State.apply input opts w
  = (Throw e, set_heap (heap w ++ [cur]) (set_previous (Some (length (heap w))) w)).
Proof.
  intros Hc Hin Hp. unfold State.apply.
  unfold mbind at 1, M_bind at 1. simpl.
  unfold mbind at 1, M_bind at 1. unfold load at 1. rewrite Hc.
  unfold mbind at 1, M_bind at 1. unfold alloc at 1.
  unfold mbind at 1, M_bind at 1. unfold modify at 1.
  unfold mbind at 1, M_bind at 1.
  assert (match input with
          | INull => State.parse None
          | IString s => State.parse (Some s)
          | IObject r => mret r
          end = State.parse link) as ->.
  { destruct Hin as [[-> ->]|(s & -> & ->)]; reflexivity. }
  unfold State.parse at 1. run. rewrite Hp. reflexivity.
Qed.

Lemma updateLink_run push w :
  State.updateLink push w =
    match State.stringify None w with
    | (Ok link, w') =>
        (Ok tt, set_location ("#" +:+ link)
                  (if push then pushState ("#" +:+ link) else replaceState ("#" +:+ link)) w')
    | (Throw e, w') => (Throw e, w')
    end.
Proof.
  unfold State.updateLink. unfold mbind at 1, M_bind at 1.
  by destruct (State.stringify None w) as [[link|e] w'].
Qed.

Lemma quiet_ret {A} (a : A) : quiet (mret a).
Proof. by intros w. Qed.

Lemma quiet_bind {A B} (m : M A) (k : A → M B) :
  quiet m → (∀ a, quiet (k a)) → quiet (m ≫= k).
Proof.
  intros Hm Hk w. unfold mbind, M_bind.
  destruct (Hm w) as (H1 & H2 & H3).
  destruct (m w) as [[a|e] w1]; simpl in *.
  - destruct (Hk a w1) as (H4 & H5 & H6). by rewrite H4, H5, H6.
  - done.
Qed.

Lemma quiet_read {A} (f : world → A) : quiet (read f).
Proof. by intros w. Qed.

Lemma quiet_lift {A} (r : result A) : quiet (lift r).
Proof. by intros w. Qed.

Lemma quiet_alloc o : quiet (alloc o).
Proof. by intros w. Qed.

Lemma quiet_load r : quiet (load r).
Proof. intros w. unfold load. by destruct (heap w !! r). Qed.

Lemma quiet_store r o : quiet (store r o).
Proof. by intros w. Qed.

Lemma quiet_set_previous p : quiet (modify (set_previous p)).
Proof. by intros w. Qed.

Lemma quiet_set_location url c : quiet (modify (set_location url c)).
Proof. by intros w. Qed.

Create HintDb quiet.
#[local] Hint Resolve quiet_ret quiet_read quiet_lift quiet_alloc quiet_load
  quiet_store quiet_set_previous quiet_set_location : quiet.

Ltac quiet_tac :=
  repeat first
    [ apply quiet_bind; [| intros ?]
    | match goal with |- quiet (let '(_, _) := ?p in _) => destruct p end
    | match goal with |- quiet (match ?x with _ => _ end) => destruct x end
    | solve [auto with quiet] ].

Lemma quiet_get : quiet State.get.
Proof. unfold State.get. quiet_tac. Qed.

Lemma quiet_stringify arg : quiet (State.stringify arg).
Proof. unfold State.stringify. pose proof quiet_get. quiet_tac. Qed.

Lemma quiet_parse link : quiet (State.parse link).
Proof. unfold State.parse. quiet_tac. Qed.

Lemma quiet_updateLink push : quiet (State.updateLink push).
Proof. unfold State.updateLink. pose proof (quiet_stringify None). quiet_tac. Qed.

Lemma quiet_before_timer state opts : quiet (before_timer state opts).
Proof.
  unfold before_timer.
  pose proof quiet_parse. pose proof quiet_updateLink. quiet_tac.
Qed.

Lemma apply_before_timer state opts w :
  State.apply state opts w =
    match before_timer state opts w with
    | (Ok r, w') => (Ok r, set_timers (timers w' ++ [r]) w')
    | (Throw e, w') => (Throw e, w')
    end.
Proof.
  unfold State.apply, before_timer.
  unfold mbind, M_bind, mret, M_ret, modify.
  repeat match goal with
         | |- context [match ?m w with _ => _ end] => destruct (m w) as [[?|?] ?]
         | |- context [let (_, _) := ?p in _] => destruct p as [[?|?] ?]
         | |- _ => progress simpl
         end; try reflexivity.
Qed.

Lemma finish_object w state opts :
  ∃ l, heap (finish state opts w).2 = heap w ++ l
       ∧ current (finish state opts w).2 = current w
       ∧ previous (finish state opts w).2 = previous w.
Proof.
  unfold finish. run.
  destruct (State.wants_update opts).
  - rewrite updateLink_run.
    destruct (stringify_extends None w) as [l Hl].
    destruct (State.stringify None w) as [[link|e] w1]; simpl in *; subst w1;
      exists l; done.
  - exists []. simpl. by rewrite app_nil_r.
Qed.

Lemma apply_merges w state cur delta opts :
  heap w !! current w = Some cur →
  input_delta w state delta →
  ∃ st extra, State.apply state opts w = finish st opts (merged extra cur delta w).
Proof.
  intros Hc Hd. destruct state as [|s|r]; simpl in Hd.
  - destruct Hd as (link & [= <-] & Hp). eexists _, _.
    by apply (apply_parse_run w None cur delta INull opts Hc); eauto.
  - destruct Hd as (link & [= <-] & Hp). eexists _, _.
    by apply (apply_parse_run w (Some s) cur delta (IString s) opts Hc); eauto.
  - eexists _, _. by apply apply_object_run.
Qed.

Lemma finish_run st opts w :
  ∃ l,
    finish st opts w =
      if State.wants_update opts then
        match Codec.stringify (parameters w) (State.emit_get (get_listeners w) ∅) with
        | Ok link =>
            let w1 := set_location ("#" +:+ link)
                        (history_entry (State.is_push opts) ("#" +:+ link))
                        (set_heap (heap w ++ l) w) in
            (Ok st, set_timers (timers w1 ++ [st]) w1)
        | Throw e => (Throw e, set_heap (heap w ++ l) w)
        end
      else (Ok st, set_timers (timers w ++ [st]) w).
Proof.
  unfold finish. destruct (State.wants_update opts).
  - unfold mbind at 1, M_bind at 1. rewrite updateLink_run.
    pose proof (stringify_none_result w) as Hres.
    destruct (stringify_extends None w) as [l Hl]. exists l.
    destruct (State.stringify None w) as [[link|e] w1]; simpl in *; subst w1;
      rewrite <- Hres; [|done].
    run. by destruct (State.is_push opts).
  - exists []. by run.
Qed.

(** C6, as amended: [apply] runs no handler of 'apply' itself, whether
    it returns or throws. When it returns, the broadcast with the
    returned state is the last of the pending timers, behind those
    already waiting, and with no other timer pending the next turn of the
    event loop gives it to every registered handler. It does return
    when the state is an object or a link that parses and, if the URL is to
    be updated, the state the handlers of 'get' report can be written. A
    call that throws leaves the pending timers as they were: no broadcast
    is scheduled for it. *)
Theorem apply_broadcast_is_deferred (state : input) (opts : options) (w : world) :
  delivered (State.apply state opts w).2 = delivered w
  ∧ (∀ e, (State.apply state opts w).1 = Throw e →
       timers (State.apply state opts w).2 = timers w)
  ∧ (∀ r, (State.apply state opts w).1 = Ok r →
       timers (State.apply state opts w).2 = timers w ++ [r]
       ∧ (timers w = [] →
          delivered (State.run_timer (State.apply state opts w).2)
          = delivered w ++ map (λ l, (l, r)) (apply_listeners w)))
  ∧ (∀ cur delta,
       heap w !! current w = Some cur →
       input_delta w state delta →
       (State.wants_update opts = true →
        ∃ link, Codec.stringify (parameters w) (State.emit_get (get_listeners w) ∅)
                = Ok link) →
       ∃ r, (State.apply state opts w).1 = Ok r).
Proof.
  assert (delivered (State.apply state opts w).2 = delivered w
          ∧ (∀ e, (State.apply state opts w).1 = Throw e →
               timers (State.apply state opts w).2 = timers w)
          ∧ (∀ r, (State.apply state opts w).1 = Ok r →
               timers (State.apply state opts w).2 = timers w ++ [r]
               ∧ (timers w = [] →
                  delivered (State.run_timer (State.apply state opts w).2)
                  = delivered w ++ map (λ l, (l, r)) (apply_listeners w))))
    as (H1 & H2 & H3).
  { rewrite apply_before_timer.
    destruct (quiet_before_timer state opts w) as (Hd & Ht & Hl).
    destruct (before_timer state opts w) as [[r|e] w']; simpl in *.
    - split_and!; [done|done|].
      intros r' [= <-]. rewrite Ht. split; [done|].
      intros Hnil. rewrite Hnil. unfold State.run_timer. simpl.
      by rewrite Hd, Hl.
    - split_and!; [done| |done]. by intros. }
  split_and!; [exact H1|exact H2|exact H3|].
  intros cur delta Hc Hdelta Hu.
  destruct (apply_merges w state cur delta opts Hc Hdelta) as (st & extra & ->).
  destruct (finish_run st opts (merged extra cur delta w)) as [l ->].
  destruct (State.wants_update opts); [|by exists st].
  destruct (Hu eq_refl) as [link Hlink].
  simpl parameters. simpl get_listeners. rewrite Hlink. by exists st.
Qed.

Lemma apply_broadcast_witness :
  (heap Case.listening !! current Case.listening = Some (∅ : obj)
   ∧ input_delta Case.listening (IString "x=1") {[ "x" := VStr "1" ]}
   ∧ (State.wants_update Sample.push = true →
      ∃ link, Codec.stringify (parameters Case.listening)
                (State.emit_get (get_listeners Case.listening) ∅) = Ok link))
  ∧ ∃ r, (State.apply (IString "x=1") Sample.push Case.listening).1 = Ok r
         ∧ timers (State.apply (IString "x=1") Sample.push Case.listening).2 = [] ++ [r]
         ∧ delivered (State.apply (IString "x=1") Sample.push Case.listening).2 = []
         ∧ delivered (State.run_timer
                        (State.apply (IString "x=1") Sample.push Case.listening).2)
           = [] ++ map (λ l, (l, r)) ["map"].
Proof.
  assert (input_delta Case.listening (IString "x=1") {[ "x" := VStr "1" ]}) as H2
    by (exists (Some "x=1"); split; vm_compute; reflexivity).
  assert (State.wants_update Sample.push = true →
          ∃ link, Codec.stringify (parameters Case.listening)
                    (State.emit_get (get_listeners Case.listening) ∅) = Ok link) as H3
    by (intros _; exists ""; vm_compute; reflexivity).
  split; [split_and!; [reflexivity|exact H2|exact H3]|].
  destruct (apply_broadcast_is_deferred (IString "x=1") Sample.push Case.listening)
    as (Hd & _ & Hok & Hret).
  destruct (Hret ∅ _ eq_refl H2 H3) as [r Hr].
  destruct (Hok r Hr) as [Ht Hrun].
  exists r. split_and!; [exact Hr|exact Ht|exact Hd|exact (Hrun eq_refl)].
Defined.

(** The counterexample to C6 as stated: a handler of 'apply' is
    registered and [apply] is called with a link that cannot be decoded.
    The call throws, no timer is pending afterwards, and a turn of the
    event loop gives the handler nothing: for this call no broadcast is
    scheduled at all. *)
Lemma apply_that_throws_schedules_nothing :
  apply_listeners Case.listening = ["map"]
  ∧ (State.apply (IString "%") (Options None) Case.listening).1
    = Throw (URIError "URI malformed")
  ∧ timers (State.apply (IString "%") (Options None) Case.listening).2 = []
  ∧ delivered
      (State.run_timer (State.apply (IString "%") (Options None) Case.listening).2)
    = [].
Proof. split_and!; vm_compute; reflexivity. Qed.

(** C7: [apply] first makes [previous] a new object that holds what
    [current] held, and then writes the keys of the state it is given (the
    object passed in, or what the link parses to) over [current], which
    stays the same object: a key of the input gets the input's value,
    every other key keeps its value. The witness is the example of the
    specification: after [apply({x:1})] and [apply({y:2})], [previous] is
    [{x:1}] and [current] is [{x:1,y:2}]. *)
Theorem apply_snapshots_then_merges (w : world) (state : input) (cur delta : obj)
    (opts : options) :
  heap w !! current w = Some cur →
  input_delta w state delta →
  let w' := (State.apply state opts w).2 in
  ∃ p, previous w' = Some p
       ∧ p ≠ current w'
       ∧ heap w !! p = None
       ∧ heap w' !! p = Some cur
       ∧ current w' = current w
       ∧ heap w' !! current w' = Some (delta ∪ cur)
       ∧ ∀ k, (delta ∪ cur) !! k = match delta !! k with
                                    | Some v => Some v
                                    | None => cur !! k
                                    end.
Proof.
  intros Hc Hd w'. subst w'.
  destruct (apply_merges w state cur delta opts Hc Hd) as (st & extra & ->).
  destruct (finish_object (merged extra cur delta w) st opts) as (l & Hh & Hcur & Hprev).
  rewrite Hh, Hcur, Hprev. simpl.
  pose proof (lookup_lt_Some _ _ _ Hc) as Hlt.
  exists (length (heap w)). split_and!.
  - done.
  - lia.
  - apply lookup_ge_None_2. lia.
  - apply lookup_ext_old.
    rewrite <- (length_insert (heap w) (current w) (delta ∪ cur)).
    apply lookup_ext0.
  - done.
  - apply lookup_ext_old, lookup_ext_old. by apply list_lookup_insert_eq.
  - intros k. rewrite lookup_union. destruct (delta !! k), (cur !! k); done.
Qed.

Lemma apply_twice_witness :
  (heap Sample.with_y2 !! current Sample.with_y2 = Some Sample.x1
   ∧ input_delta Sample.with_y2 (IObject 3%nat) Sample.y2)
  ∧ let w' := (State.apply (IObject 3%nat) (Options None) Sample.with_y2).2 in
    ∃ p, previous w' = Some p
         ∧ heap w' !! p = Some ({[ "x" := VNum (Dec 1 0) ]} : obj)
         ∧ heap w' !! current w'
           = Some ({[ "x" := VNum (Dec 1 0); "y" := VNum (Dec 2 0) ]} : obj).
Proof.
  split; [split; vm_compute; reflexivity|].
  destruct (apply_snapshots_then_merges Sample.with_y2 (IObject 3%nat) Sample.x1
              Sample.y2 (Options None) eq_refl eq_refl)
    as (p & Hp & _ & _ & Hprev & _ & Hcur & _).
  exists p. split_and!; [exact Hp|exact Hprev|].
  rewrite Hcur. vm_compute. reflexivity.
Defined.

Lemma link_of_cases i link :
  link_of i = Some link →
  i = INull ∧ link = None ∨ ∃ s, i = IString s ∧ link = Some s.
Proof. destruct i; intros [= <-]; eauto. Qed.

(** C10: when [apply] is given [null] or a string and parsing throws, the
    exception reaches the caller, [previous] is already a new object with
    what [current] holds, and [current] is unchanged; no timer is set and
    the history is not touched. *)
Theorem apply_parse_error_keeps_snapshot (w : world) (state : input)
    (link : option string) (opts : options) (cur : obj) (e : exn) :
  heap w !! current w = Some cur →
  link_of state = Some link →
  Codec.parse (parameters w) (hash w) link = Throw e →
  let res := State.apply state opts w in
  res.1 = Throw e
  ∧ previous res.2 = Some (length (heap w))
  ∧ heap res.2 !! length (heap w) = Some cur
  ∧ current res.2 = current w
  ∧ heap res.2 !! current w = Some cur
  ∧ timers res.2 = timers w
  ∧ history res.2 = history w.
Proof.
  intros Hc Hl Hp res. subst res.
  rewrite (apply_parse_throws w link cur e state opts Hc (link_of_cases _ _ Hl) Hp).
  simpl. split_and!; try done.
  - apply lookup_ext0.
  - by apply lookup_ext_old.
Qed.

Lemma parse_error_witness :
  (heap Sample.after_x1 !! current Sample.after_x1 = Some Sample.x1
   ∧ link_of (IString "%") = Some (Some "%")
   ∧ Codec.parse (parameters Sample.after_x1) (hash Sample.after_x1) (Some "%")
     = Throw (URIError "URI malformed"))
  ∧ let res := State.apply (IString "%") (Options None) Sample.after_x1 in
    res.1 = Throw (URIError "URI malformed")
    ∧ previous res.2 = Some (length (heap Sample.after_x1))
    ∧ heap res.2 !! length (heap Sample.after_x1) = Some Sample.x1
    ∧ current res.2 = current Sample.after_x1
    ∧ heap res.2 !! current Sample.after_x1 = Some Sample.x1
    ∧ timers res.2 = timers Sample.after_x1
    ∧ history res.2 = history Sample.after_x1.
Proof.
  split; [split_and!; vm_compute; reflexivity|].
  exact (apply_parse_error_keeps_snapshot Sample.after_x1 (IString "%") (Some "%")
           (Options None) Sample.x1 (URIError "URI malformed") eq_refl eq_refl eq_refl).
Defined.

(** A parameter [map] without value makes [parse] throw as well. *)
Example parse_throws_on_bare_map :
  Codec.parse ∅ "" (Some "a=1&map")
  = Throw (TypeError "Cannot read properties of null (reading 'split')").
Proof. vm_compute. reflexivity. Qed.

(** C2, as amended: when [apply] is called with a truthy [options.update]
    and returns, the URL is updated with [#] and the link that
    [stringify] writes for the state collected by [get()] from the handlers
    of 'get' (a new history entry for ["push"], a replacement for any
    other value): neither the state passed to [apply] nor [current] is
    what is written. *)
Theorem apply_update_stringifies_collected_state (w : world) (state : input)
    (opts : options) (r : loc) (w' : world) :
  State.wants_update opts = true →
  State.apply state opts w = (Ok r, w') →
  ∃ link,
    Codec.stringify (parameters w) (State.emit_get (get_listeners w) ∅) = Ok link
    ∧ history w' = history w ++ [if State.is_push opts then pushState ("#" +:+ link)
                                 else replaceState ("#" +:+ link)]
    ∧ hash w' = "#" +:+ link.
Proof.
  intros Hu Ha.
  assert (∀ st extra cur delta,
    finish st opts (merged extra cur delta w) = (Ok r, w') →
    ∃ link,
      Codec.stringify (parameters w) (State.emit_get (get_listeners w) ∅) = Ok link
      ∧ history w' = history w ++ [if State.is_push opts then pushState ("#" +:+ link)
                                   else replaceState ("#" +:+ link)]
      ∧ hash w' = "#" +:+ link) as Hfin.
  { intros st extra cur delta. unfold finish. rewrite Hu. run.
    rewrite updateLink_run.
    pose proof (stringify_none_result (merged extra cur delta w)) as Hres.
    destruct (State.stringify None (merged extra cur delta w)) as [[link|e] w1] eqn:Hs;
      simpl in *; [|done].
    intros [= <- <-]. exists link. split_and!; try done.
    all: pose proof (stringify_extends None (merged extra cur delta w)) as [l Hl];
      rewrite Hs in Hl; simpl in Hl; subst w1; done. }
  destruct (heap w !! current w) as [cur|] eqn:Hc; cycle 1.
  { unfold State.apply in Ha. unfold mbind at 1, M_bind at 1 in Ha. simpl in Ha.
    unfold mbind at 1, M_bind at 1, load at 1 in Ha. by rewrite Hc in Ha. }
  destruct state as [|s|r0].
  - destruct (Codec.parse (parameters w) (hash w) None) as [delta|e] eqn:Hp.
    + rewrite (apply_parse_run w None cur delta INull opts Hc) in Ha by eauto. eauto.
    + rewrite (apply_parse_throws w None cur e INull opts Hc) in Ha by eauto. done.
  - destruct (Codec.parse (parameters w) (hash w) (Some s)) as [delta|e] eqn:Hp.
    + rewrite (apply_parse_run w (Some s) cur delta (IString s) opts Hc) in Ha by eauto. eauto.
    + rewrite (apply_parse_throws w (Some s) cur e (IString s) opts Hc) in Ha by eauto. done.
  - rewrite (apply_object_cases w r0 cur opts Hc) in Ha.
    destruct ((heap w ++ [cur]) !! r0) as [delta|]; [eauto|done].
Qed.

Lemma apply_update_witness :
  (State.wants_update Sample.push = true
   ∧ State.apply (IObject 1%nat) Sample.push Sample.with_layer
     = (Ok 1%nat, (State.apply (IObject 1%nat) Sample.push Sample.with_layer).2))
  ∧ ∃ link,
      Codec.stringify (parameters Sample.with_layer)
        (State.emit_get (get_listeners Sample.with_layer) ∅) = Ok link
      ∧ history (State.apply (IObject 1%nat) Sample.push Sample.with_layer).2
        = history Sample.with_layer
          ++ [if State.is_push Sample.push then pushState ("#" +:+ link)
              else replaceState ("#" +:+ link)]
      ∧ hash (State.apply (IObject 1%nat) Sample.push Sample.with_layer).2
        = "#" +:+ link.
Proof.
  assert (State.apply (IObject 1%nat) Sample.push Sample.with_layer
          = (Ok 1%nat, (State.apply (IObject 1%nat) Sample.push Sample.with_layer).2)) as H.
  { vm_compute. reflexivity. }
  split; [split; [reflexivity|exact H]|].
  exact (apply_update_stringifies_collected_state Sample.with_layer (IObject 1%nat)
           Sample.push 1%nat _ eq_refl H).
Defined.

(** The counterexample to C2 as stated: [{x: 1}] is applied with
    [update: "push"]; the link of the state passed in is [x=1], the URL
    pushed is the one of the state the handler of 'get' reports. *)
Lemma pushed_url_is_not_the_delta :
  heap Sample.with_layer !! 1%nat = Some Sample.x1
  ∧ Codec.stringify ∅ Sample.x1 = Ok "x=1"
  ∧ (State.apply (IObject 1%nat) Sample.push Sample.with_layer).1 = Ok 1%nat
  ∧ history (State.apply (IObject 1%nat) Sample.push Sample.with_layer).2
    = [pushState "#layer=osm"]
  ∧ history (State.apply (IObject 1%nat) Sample.push Sample.with_layer).2
    ≠ [pushState "#x=1"]
  ∧ heap (State.apply (IObject 1%nat) Sample.push Sample.with_layer).2 !! 0%nat
    = Some Sample.x1.
Proof. split_and!; vm_compute; (reflexivity || discriminate). Qed.

(** *** The map in [current] *)

Lemma map_only_auto_union (delta cur : obj) :
  map_only_auto delta → map_only_auto cur → map_only_auto (delta ∪ cur).
Proof.
  intros Hd Hc v. rewrite lookup_union_Some_raw. intros [?|[_ ?]]; auto.
Qed.

Lemma finish_current w state opts cur :
  heap w !! current w = Some cur →
  heap (finish state opts w).2 !! current (finish state opts w).2 = Some cur
  ∧ parameters (finish state opts w).2 = parameters w.
Proof.
  intros Hc. destruct (finish_object w state opts) as (l & Hh & Hcur & _).
  rewrite Hh, Hcur. split; [by apply lookup_ext_old|].
  unfold finish. run. destruct (State.wants_update opts); [|done].
  rewrite updateLink_run.
  destruct (stringify_extends None w) as [l' Hl'].
  by destruct (State.stringify None w) as [[link|e] w1]; simpl in *; subst w1.
Qed.

Lemma merged_current extra cur delta w :
  heap w !! current w = Some cur →
  heap (merged extra cur delta w) !! current (merged extra cur delta w)
  = Some (delta ∪ cur).
Proof.
  intros Hc. unfold merged. simpl. apply lookup_ext_old.
  apply list_lookup_insert_eq. by eapply lookup_lt_Some.
Qed.

Lemma apply_link_keeps_map_auto w state link opts :
  link_of state = Some link →
  current_map_auto w →
  current_map_auto (State.apply state opts w).2.
Proof.
  intros Hl [(cur & Hc & Hcur) Hp].
  destruct (Codec.parse (parameters w) (hash w) link) as [delta|e] eqn:Hparse.
  - rewrite (apply_parse_run w link cur delta state opts Hc (link_of_cases _ _ Hl) Hparse).
    destruct (finish_current (merged [delta] cur delta w) (S (length (heap w))) opts
                (delta ∪ cur) (merged_current _ _ _ _ Hc)) as [H1 H2].
    split.
    + exists (delta ∪ cur). split; [done|].
      apply map_only_auto_union; [|done].
      intros v. by apply (parse_map_auto (parameters w) (hash w) link).
    + by rewrite H2.
  - rewrite (apply_parse_throws w link cur e state opts Hc (link_of_cases _ _ Hl) Hparse).
    split; [|done]. exists cur. split; [|done]. simpl. by apply lookup_ext_old.
Qed.

Lemma step_keeps_map_auto w w' :
  step w w' → current_map_auto w → current_map_auto w'.
Proof.
  intros [state link opts Hl|h|r delta opts Hr Hd] Hw.
  - by eapply apply_link_keeps_map_auto.
  - unfold State.on_hashchange.
    apply (apply_link_keeps_map_auto _ _ (Some (Str.substr_from 1 h))); [done|].
    destruct Hw as [(cur & Hc & Hcur) Hp]. split; [|done]. by exists cur.
  - destruct Hw as [(cur & Hc & Hcur) Hp].
    rewrite (apply_object_run w r cur delta opts Hc Hr).
    destruct (finish_current (merged [] cur delta w) r opts
                (delta ∪ cur) (merged_current _ _ _ _ Hc)) as [H1 H2].
    split.
    + exists (delta ∪ cur). split; [done|]. by apply map_only_auto_union.
    + by rewrite H2.
Qed.

(** C5, as amended: in every state of the store reached from one where
    [current] has no [map] other than the literal [auto] (a new store is
    one), by applying links, [null], changes of the page's fragment and
    objects without such a [map], with no parser registered for [map],
    [current] has no [map] other than [auto]: [parse] turns every other
    [map] into [zoom], [lat] and [lon] and deletes it, and [apply] merges
    what it is given. A [map] that is [auto] is never translated and may
    stand beside [zoom], [lat] and [lon]. *)
Theorem current_map_is_auto (w w' : world) :
  current_map_auto w →
  rtc step w w' →
  current_map_auto w'.
Proof.
  intros Hw Hsteps. induction Hsteps as [|w1 w2 w3 Hs _ IH]; [done|].
  apply IH. by eapply step_keeps_map_auto.
Qed.

Lemma new_current_map_auto h : current_map_auto (State.new h).
Proof.
  split.
  - exists ∅. split; [done|]. by intros v.
  - by intros p.
Qed.

Lemma current_map_witness :
  (current_map_auto (State.new "")
   ∧ rtc step (State.new "")
       (State.apply (IString "map=17/1.5/2.5") (Options None) (State.new "")).2)
  ∧ current_map_auto
      (State.apply (IString "map=17/1.5/2.5") (Options None) (State.new "")).2.
Proof.
  assert (rtc step (State.new "")
            (State.apply (IString "map=17/1.5/2.5") (Options None) (State.new "")).2) as H.
  { apply rtc_once. by apply (step_link _ _ (Some "map=17/1.5/2.5")). }
  split; [split; [apply new_current_map_auto|exact H]|].
  exact (current_map_is_auto _ _ (new_current_map_auto "") H).
Defined.

Example map_link_is_translated :
  let w := (State.apply (IString "map=17/1.5/2.5") (Options None) (State.new "")).2 in
  heap w !! current w
  = Some {[ "zoom" := VNum (Dec 17 0); "lat" := VNum (Dec 15 1); "lon" := VNum (Dec 25 1) ]}.
Proof. vm_compute. reflexivity. Qed.

(** The counterexample to C5 as stated: one link applied to a new store,
    and [current] holds [map] together with [zoom]. *)
Lemma map_auto_beside_zoom :
  let w := (State.apply (IString "map=auto&zoom=3") (Options None) (State.new "")).2 in
  step (State.new "") w
  ∧ heap w !! current w = Some {[ "map" := VStr "auto"; "zoom" := VStr "3" ]}
  ∧ ∃ cur, heap w !! current w = Some cur
           ∧ is_Some (cur !! "map") ∧ is_Some (cur !! "zoom").
Proof.
  split_and!.
  - by apply (step_link _ _ (Some "map=auto&zoom=3")).
  - vm_compute. reflexivity.
  - exists {[ "map" := VStr "auto"; "zoom" := VStr "3" ]}.
    split_and!; vm_compute; eauto.
Qed.

(** ** The bootstrap *)

Lemma pick_elem ds pending m rest :
  InitModules.pick ds pending = Some (m, rest) →
  m ∈ pending ∧ (∀ m', m' ∈ rest → m' ∈ pending) ∧ InitModules.ready ds m = true.
Proof.
  revert m rest. induction pending as [|x pending IH]; intros m rest; simpl; [done|].
  destruct (InitModules.ready ds x) eqn:Hr.
  - intros [= <- <-]. split_and!; [left|by right|done].
  - destruct (InitModules.pick ds pending) as [[m' rest']|]; [|done].
    intros [= <- <-]. destruct (IH m' rest' eq_refl) as (H1 & H2 & H3).
    split_and!; [by right| |done].
    intros m'' Hin. inversion Hin; subst; [left|right; auto].
Qed.

(** The error the chain ends with is the one of an invoked hook; every
    module initialized before it had a hook that succeeded. *)
Lemma chain_error fuel ds pending ds' err :
  InitModules.chain fuel ds pending = (ds', Some err) →
  ∃ m, m ∈ pending ∧ AppModule.appInit m = Some err
       ∧ InitModules.ready ds' m = true.
Proof.
  revert ds pending. induction fuel as [|fuel IH]; intros ds pending; simpl; [done|].
  destruct (InitModules.pick ds pending) as [[m rest]|] eqn:Hp; [|done].
  destruct (pick_elem _ _ _ _ Hp) as (Hm & Hrest & Hready).
  destruct (AppModule.appInit m) as [e|] eqn:He.
  - intros [= <- <-]. eauto.
  - intros Hc. destruct (IH _ _ Hc) as (m' & Hm' & ? & ?). eauto.
Qed.

Lemma init_reaches_apply e initState w :
  App.all_settled (init_promises e) = Ok tt →
  ∃ rest w', App.init e initState w = (StateApply initState :: rest, w').
Proof.
  intros Hp. unfold App.init. rewrite Hp.
  destruct ((_ ← alloc initState; State.apply (IObject _) (Options None)) _) as [[r|err] w'];
    eauto.
Qed.

(** Whenever the initialization of the modules ends with an error, its
    message is shown in an alert and start-up goes on: the callback of
    [initModules] has no [return] behind the alert. The style sheets are
    added, and when the link of the page parses, the configuration is
    there with plain data as default state and the promises of 'init' are
    fulfilled, [state.apply] is called with the initial state. *)
Lemma startup_goes_on_after_init_error (e : env) (w : world)
    (err : exn) (initState d : obj) :
  (InitModules.initModules (modules e)).2 = Some err →
  Codec.parse (parameters w) (hash w) None = Ok initState →
  config e = Some (DefaultData d) →
  App.all_settled (init_promises e) = Ok tt →
  ∃ rest w',
    App.new e w
    = (Alert (message err) :: App.loadCssFiles e
         ++ StateApply (initState ∪ d) :: rest, w').
Proof.
  intros Herr Hparse Hd Hp.
  unfold App.new, App.initModules, App.getInitState.
  rewrite Herr, Hparse, Hd.
  destruct (init_reaches_apply e (initState ∪ d) w Hp) as (rest & w' & ->).
  by exists rest, w'.
Qed.

(** C1, a defect of the code: two modules are registered, the one that
    sets the configuration, whose hook succeeds, and one that requires it,
    whose hook hands an error to its callback; the fragment of the page is
    empty. The chain ends with that error after the first module, the
    error is shown, and start-up goes on all the same: the style sheet is
    added, [state.apply] is called with the initial state, the state is
    merged and its broadcast is scheduled. The claim says that
    [state.apply] is not reached. The other error paths of [App] (the two
    in [getInitState], the one in [init]) end at their alert. *)
Theorem init_error_does_not_stop_startup :
  InitModules.initModules (modules Sample.env_broken) = (["config"], Some (Error "boom"))
  ∧ (App.new Sample.env_broken (State.new "")).1
    = [Alert "boom"; AppendStylesheet "lang.css"; StateApply ∅]
  ∧ StateApply ∅ ∈ (App.new Sample.env_broken (State.new "")).1
  ∧ timers (App.new Sample.env_broken (State.new "")).2 = [1%nat]
  ∧ heap (App.new Sample.env_broken (State.new "")).2 !! 1%nat = Some (∅ : obj).
Proof.
  split_and!; [by vm_compute|by vm_compute| |by vm_compute|by vm_compute].
  assert ((App.new Sample.env_broken (State.new "")).1
          = [Alert "boom"; AppendStylesheet "lang.css"; StateApply ∅]) as ->
    by (by vm_compute).
  apply list_elem_of_further, list_elem_of_further, list_elem_of_here.
Qed.

(** When the module that fails is the only one, no hook has set
    [app.config]: after the alert and the style sheet, [getInitState]
    throws where it reads the default state, and [state.apply] is not
    reached. *)
Example unconfigured_startup_throws :
  (App.new Sample.env_unconfigured (State.new "")).1
  = [Alert "boom"; AppendStylesheet "map.css";
     Thrown (TypeError "Cannot read properties of undefined (reading 'defaultState')")]
  ∧ timers (App.new Sample.env_unconfigured (State.new "")).2 = [].
Proof. split; vm_compute; reflexivity. Qed.

(** ** The template cache *)

Section template_cache.
Import TwigGet.

Lemma known_spec cache text :
  known cache text = true ↔ is_Some (cache !! text) ∨ text ∈ inherited.
Proof. unfold known. by rewrite orb_true_iff, !bool_decide_eq_true. Qed.

Lemma known_new cache text :
  text ∉ inherited → cache !! text = None → known cache text = false.
Proof.
  intros Hin Hnone. apply not_true_iff_false. rewrite known_spec, Hnone.
  intros [[? [=]]|?]; done.
Qed.

Lemma render_cache cache text data cb :
  cache_after (render cache text data cb) = cache.
Proof.
  unfold render. destruct (cache !! text) as [tpl|]; [|done].
  destruct cb, (tpl data); done.
Qed.

Lemma render_compiled cache text tpl data cb :
  cache !! text = Some tpl →
  render cache text data cb =
    match cb with
    | Some _ =>
        Reply (Ok None)
          [match tpl data with
           | Ok s => CallResult (Str.trim s)
           | Throw e =>
               CallFailure (Error ("Error rendering Twig template: " +:+ message e))
           end] cache
    | None =>
        Reply (match tpl data with
               | Ok s => Ok (Some (VStr (Str.trim s)))
               | Throw e => Throw e
               end) [] cache
    end.
Proof. intros H. unfold render. rewrite H. destruct cb, (tpl data); done. Qed.

Lemma sample_name_not_inherited : "hi" ∉ inherited.
Proof. apply (bool_decide_eq_false_1 _). vm_compute. reflexivity. Qed.
End template_cache.

(** X1: with a callback (as the third or the fourth argument) and a
    template that is a string, not the name of an inherited property
    unless it is in the cache, the callback is called exactly once,
    whether the template compiles and renders or not. Nothing is
    returned, except after a compile error, where what the callback
    returns is returned. *)
Theorem twigGet_calls_back_once (twig : TwigGet.twig_options → result TwigGet.compiled)
    (cache : gmap string TwigGet.compiled) (text : string) (data : obj)
    (options : TwigGet.third) (fourth : option TwigGet.callback)
    (cb : TwigGet.callback) :
  TwigGet.callback_of options fourth = Some cb →
  text ∉ TwigGet.inherited ∨ is_Some (cache !! text) →
  ∃ c,
    TwigGet.calls (TwigGet.twigGet twig cache (VStr text) data options fourth) = [c]
    ∧ TwigGet.returned (TwigGet.twigGet twig cache (VStr text) data options fourth)
      = match c with
        | TwigGet.CallError _ => Ok (cb c)
        | _ => Ok None
        end.
Proof.
  intros Hcb Hor. unfold TwigGet.twigGet. rewrite Hcb.
  destruct (TwigGet.known cache text) eqn:Hk.
  - apply known_spec in Hk.
    assert (is_Some (cache !! text)) as [tpl Ht] by (destruct Hor, Hk; done).
    rewrite (render_compiled _ _ _ _ _ Ht). simpl.
    eexists. split; [done|]. by destruct (tpl data).
  - destruct (twig _) as [tpl|e]; simpl; [|eauto].
    rewrite (render_compiled _ _ tpl) by apply lookup_insert_eq. simpl.
    eexists. split; [done|]. by destruct (tpl data).
Qed.

Lemma twigGet_calls_back_once_witness :
  (TwigGet.callback_of (TwigGet.Callback (λ _, None)) None = Some (λ _, None)
   ∧ (("hi" ∉ TwigGet.inherited) ∨ is_Some ((∅ : gmap string TwigGet.compiled) !! "hi")))
  ∧ ∃ c,
      TwigGet.calls
        (TwigGet.twigGet Case.refuse ∅ (VStr "hi") ∅ (TwigGet.Callback (λ _, None)) None)
      = [c]
      ∧ TwigGet.returned
          (TwigGet.twigGet Case.refuse ∅ (VStr "hi") ∅ (TwigGet.Callback (λ _, None)) None)
        = match c with
          | TwigGet.CallError _ => Ok ((λ _ : TwigGet.callback_call, @None value) c)
          | _ => Ok None
          end.
Proof.
  split; [split; [reflexivity|left; apply sample_name_not_inherited]|].
  exact (twigGet_calls_back_once Case.refuse ∅ "hi" ∅ (TwigGet.Callback (λ _, None)) None
           (λ _, None) eq_refl (or_introl sample_name_not_inherited)).
Defined.

(** X2: [twigGet] never removes or replaces an entry of the template
    cache: the cache after a call contains the cache before it, and an
    entry that is new is the template of this call, compiled by
    [Twig.twig] with the merged options of this call. *)
Theorem twigGet_cache_grows_by_compiled
    (twig : TwigGet.twig_options → result TwigGet.compiled)
    (cache : gmap string TwigGet.compiled) (template : value) (data : obj)
    (options : TwigGet.third) (fourth : option TwigGet.callback) :
  let cache' :=
    TwigGet.cache_after (TwigGet.twigGet twig cache template data options fourth) in
  cache ⊆ cache'
  ∧ ∀ k tpl, cache' !! k = Some tpl → cache !! k = None →
      template = VStr k
      ∧ twig (TwigGet.merge_options (TwigGet.options_of options) k) = Ok tpl.
Proof.
  destruct template as [|text|n|l]; simpl; try (split; [done|]; intros ?? ->; done).
  destruct (TwigGet.known cache text) eqn:Hk.
  { rewrite render_cache. split; [done|]. by intros ?? ->. }
  assert (cache !! text = None) as Hnone.
  { destruct (cache !! text) eqn:H; [|done].
    assert (TwigGet.known cache text = true) as Hk'
      by (apply known_spec; left; by rewrite H).
    congruence. }
  destruct (twig _) as [tpl|e] eqn:Htwig.
  - rewrite render_cache. split; [by apply insert_subseteq|].
    intros k tpl' Hk' Hn. destruct (decide (text = k)) as [->|Hne].
    + rewrite lookup_insert_eq in Hk'. by injection Hk' as <-.
    + rewrite lookup_insert_ne in Hk' by done. congruence.
  - destruct (TwigGet.callback_of options fourth); simpl;
      (split; [done|]; by intros ?? ->).
Qed.

(** X3: a template is compiled once. After a call that compiled it, a
    second call for the same text does not call [Twig.twig] (whatever it
    would return now, and whatever the options of the second call are): it
    renders the template of the first call, through the callback or as
    the returned value, and leaves the cache as it is. *)
Theorem twigGet_reuses_first_compilation
    (twig1 twig2 : TwigGet.twig_options → result TwigGet.compiled)
    (cache : gmap string TwigGet.compiled) (text : string) (data1 data2 : obj)
    (options1 options2 : TwigGet.third) (fourth1 fourth2 : option TwigGet.callback)
    (tpl : TwigGet.compiled) :
  text ∉ TwigGet.inherited →
  cache !! text = None →
  twig1 (TwigGet.merge_options (TwigGet.options_of options1) text) = Ok tpl →
  let cache1 :=
    TwigGet.cache_after (TwigGet.twigGet twig1 cache (VStr text) data1 options1 fourth1) in
  cache1 !! text = Some tpl
  ∧ TwigGet.twigGet twig2 cache1 (VStr text) data2 options2 fourth2
    = match TwigGet.callback_of options2 fourth2 with
      | Some _ =>
          TwigGet.Reply (Ok None)
            [match tpl data2 with
             | Ok s => TwigGet.CallResult (Str.trim s)
             | Throw e =>
                 TwigGet.CallFailure
                   (Error ("Error rendering Twig template: " +:+ message e))
             end] cache1
      | None =>
          TwigGet.Reply (match tpl data2 with
                         | Ok s => Ok (Some (VStr (Str.trim s)))
                         | Throw e => Throw e
                         end) [] cache1
      end.
Proof.
  intros Hin Hnone Htwig cache1.
  assert (cache1 = <[text := tpl]> cache) as Hc1.
  { subst cache1. unfold TwigGet.twigGet.
    rewrite (known_new _ _ Hin Hnone), Htwig. apply render_cache. }
  assert (cache1 !! text = Some tpl) as Hl by (rewrite Hc1; apply lookup_insert_eq).
  split; [done|]. unfold TwigGet.twigGet.
  assert (TwigGet.known cache1 text = true) as ->
    by (apply known_spec; left; by rewrite Hl).
  by apply render_compiled.
Qed.

Lemma twigGet_reuses_witness :
  (("hi" ∉ TwigGet.inherited)
   ∧ (∅ : gmap string TwigGet.compiled) !! "hi" = None
   ∧ Case.echo (TwigGet.merge_options (TwigGet.options_of TwigGet.Omitted) "hi")
     = Ok (λ _, Ok "hi"))
  ∧ TwigGet.returned
      (TwigGet.twigGet Case.refuse
         (TwigGet.cache_after
            (TwigGet.twigGet Case.echo ∅ (VStr "hi") ∅ TwigGet.Omitted None))
         (VStr "hi") ∅ TwigGet.Omitted None)
    = Ok (Some (VStr "hi")).
Proof.
  split; [split_and!; [apply sample_name_not_inherited|apply lookup_empty|reflexivity]|].
  destruct (twigGet_reuses_first_compilation Case.echo Case.refuse ∅ "hi" ∅ ∅
              TwigGet.Omitted TwigGet.Omitted None None (λ _, Ok "hi")
              sample_name_not_inherited (lookup_empty _) eq_refl) as [_ H].
  rewrite H. reflexivity.
Defined.

(** X4: a template whose text is the name of a property every object
    inherits ([constructor], [toString], ...) and that is not in the
    cache is taken for a known template: [Twig.twig] is not called, and
    the call throws a TypeError, with or without callback; the callback is
    not called and the cache is unchanged. *)
Theorem twigGet_inherited_name_throws
    (twig : TwigGet.twig_options → result TwigGet.compiled)
    (cache : gmap string TwigGet.compiled) (text : string) (data : obj)
    (options : TwigGet.third) (fourth : option TwigGet.callback) :
  text ∈ TwigGet.inherited →
  cache !! text = None →
  ∃ msg,
    TwigGet.twigGet twig cache (VStr text) data options fourth
    = TwigGet.Reply (Throw (TypeError msg)) [] cache.
Proof.
  intros Hin Hnone. unfold TwigGet.twigGet.
  assert (TwigGet.known cache text = true) as -> by (apply known_spec; by right).
  unfold TwigGet.render. rewrite Hnone. eauto.
Qed.

Lemma twigGet_inherited_name_witness :
  (("constructor" ∈ TwigGet.inherited)
   ∧ (∅ : gmap string TwigGet.compiled) !! "constructor" = None)
  ∧ ∃ msg,
      TwigGet.twigGet Case.echo ∅ (VStr "constructor") ∅ (TwigGet.Callback (λ _, None))
        None
      = TwigGet.Reply (Throw (TypeError msg)) [] ∅.
Proof.
  assert ("constructor" ∈ TwigGet.inherited) as H by left.
  split; [split; [exact H|apply lookup_empty]|].
  exact (twigGet_inherited_name_throws Case.echo ∅ "constructor" ∅
           (TwigGet.Callback (λ _, None)) None H (lookup_empty _)).
Defined.

(** X5: when [Twig.twig] throws for a template that is not in the cache,
    nothing is stored, so that a later call compiles again. With a
    callback the error is handed to it as a string that begins with
    [Error compiling Twig template: ] and what the callback returns is
    returned; without one an Error with that message is thrown. *)
Theorem twigGet_compile_error_not_cached
    (twig : TwigGet.twig_options → result TwigGet.compiled)
    (cache : gmap string TwigGet.compiled) (text : string) (data : obj)
    (options : TwigGet.third) (fourth : option TwigGet.callback) (e : exn) :
  text ∉ TwigGet.inherited →
  cache !! text = None →
  twig (TwigGet.merge_options (TwigGet.options_of options) text) = Throw e →
  TwigGet.twigGet twig cache (VStr text) data options fourth
  = let error := "Error compiling Twig template: " +:+ message e in
    match TwigGet.callback_of options fourth with
    | Some cb =>
        TwigGet.Reply (Ok (cb (TwigGet.CallError error))) [TwigGet.CallError error] cache
    | None => TwigGet.Reply (Throw (Error error)) [] cache
    end.
Proof.
  intros Hin Hnone Htwig. unfold TwigGet.twigGet.
  by rewrite (known_new _ _ Hin Hnone), Htwig.
Qed.

Lemma twigGet_compile_error_witness :
  (("hi" ∉ TwigGet.inherited)
   ∧ (∅ : gmap string TwigGet.compiled) !! "hi" = None
   ∧ Case.refuse (TwigGet.merge_options (TwigGet.options_of TwigGet.Omitted) "hi")
     = Throw (Error "Unexpected token"))
  ∧ TwigGet.twigGet Case.refuse ∅ (VStr "hi") ∅ TwigGet.Omitted None
    = TwigGet.Reply
        (Throw (Error "Error compiling Twig template: Unexpected token")) [] ∅.
Proof.
  split; [split_and!; [apply sample_name_not_inherited|apply lookup_empty|reflexivity]|].
  exact (twigGet_compile_error_not_cached Case.refuse ∅ "hi" ∅ TwigGet.Omitted None
           (Error "Unexpected token") sample_name_not_inherited (lookup_empty _) eq_refl).
Defined.

(** ** More on the codec *)

Lemma path_stage_delete_null (st : obj) k :
  st !! k = Some VNull →
  Codec.path_stage (delete k st)
  = ((Codec.path_stage st).1, delete k (Codec.path_stage st).2)
  ∧ (Codec.path_stage st).2 !! k = Some VNull.
Proof.
  intros Hk. unfold Codec.path_stage. destruct (decide (k = "path")) as [->|Hne].
  - rewrite Hk, lookup_delete_eq. done.
  - rewrite lookup_delete_ne by done.
    destruct (st !! "path") as [p|]; [|done].
    destruct (JS.truthy p); [|done]. simpl.
    rewrite lookup_delete_ne by done. split; [|done].
    f_equal. apply delete_delete.
Qed.

Lemma delete_position_delete (st : obj) k :
  k ≠ "zoom" → k ≠ "lat" → k ≠ "lon" →
  delete "lon" (delete "lat" (delete "zoom" (delete k st)))
  = delete k (delete "lon" (delete "lat" (delete "zoom" st))).
Proof.
  intros Hz Hla Hlo. apply map_eq. intros j.
  destruct (decide (j = k)) as [->|?];
    [rewrite lookup_delete_eq, !lookup_delete_ne by done; by rewrite lookup_delete_eq|].
  rewrite (lookup_delete_ne _ k j) by done.
  destruct (decide (j = "lon")) as [->|?]; [by rewrite !lookup_delete_eq|].
  rewrite !(lookup_delete_ne _ "lon" j) by done.
  destruct (decide (j = "lat")) as [->|?]; [by rewrite !lookup_delete_eq|].
  rewrite !(lookup_delete_ne _ "lat" j) by done.
  destruct (decide (j = "zoom")) as [->|?]; [by rewrite !lookup_delete_eq|].
  by rewrite !(lookup_delete_ne _ "zoom" j), lookup_delete_ne by done.
Qed.

Lemma location_stage_delete_null link (st : obj) k :
  st !! k = Some VNull →
  Codec.location_stage link (delete k st)
  = match Codec.location_stage link st with
    | Ok r => Ok (r.1, delete k r.2)
    | Throw e => Throw e
    end
  ∧ ∀ r, Codec.location_stage link st = Ok r → r.2 !! k = Some VNull.
Proof.
  intros Hk. unfold Codec.location_stage, Codec.locPrecision.
  destruct (decide (k = "zoom")) as [->|Hz].
  { rewrite Hk, lookup_delete_eq. simpl.
    split; [by destruct (st !! "lat"), (st !! "lon")|].
    intros r. destruct (st !! "lat"), (st !! "lon"); by intros [= <-]. }
  rewrite (lookup_delete_ne st k "zoom") by done.
  destruct (st !! "zoom") as [zoom|] eqn:Hzoom; [|by split; [|intros r [= <-]]].
  destruct (decide (k = "lat")) as [->|Hla].
  { rewrite Hk, lookup_delete_eq. simpl. rewrite andb_false_r. simpl.
    split; [by destruct (st !! "lon")|].
    intros r. destruct (st !! "lon"); by intros [= <-]. }
  rewrite (lookup_delete_ne st k "lat") by done.
  destruct (st !! "lat") as [lat|] eqn:Hlat; [|by split; [|intros r [= <-]]].
  destruct (decide (k = "lon")) as [->|Hlo].
  { rewrite Hk, lookup_delete_eq. simpl. rewrite andb_false_r.
    split; [done|]. by intros r [= <-]. }
  rewrite (lookup_delete_ne st k "lon") by done.
  destruct (st !! "lon") as [lon|] eqn:Hlon; [|by split; [|intros r [= <-]]].
  destruct (JS.truthy zoom && JS.truthy lat && JS.truthy lon);
    [|by split; [|intros r [= <-]]].
  unfold mbind, result_bind, rbind.
  destruct (JS.toFixed lat _) as [la|e]; [|done].
  destruct (JS.toFixed lon _) as [lo|e]; [|done].
  split.
  - simpl. by rewrite delete_position_delete.
  - intros r [= <-]. simpl. by rewrite !lookup_delete_ne.
Qed.

Lemma filter_null_delete_null (st : obj) k :
  st !! k = Some VNull → Codec.filter_null (delete k st) = Codec.filter_null st.
Proof.
  intros Hk. apply map_eq. intros j. unfold Codec.filter_null.
  rewrite !map_lookup_filter. destruct (decide (j = k)) as [->|Hne].
  - by rewrite lookup_delete_eq, Hk.
  - by rewrite lookup_delete_ne.
Qed.

(** X6: a key whose value is [null] is to [stringify] as if it were not
    there, whichever key it is ([path], [zoom], [lat] and [lon]
    included) and whatever formatters are registered: the link, or the
    exception, is that of the state without the key. *)
Theorem stringify_ignores_null (params : formatters) (st : obj) (k : string) :
  st !! k = Some VNull →
  Codec.stringify params (delete k st) = Codec.stringify params st.
Proof.
  intros Hk. rewrite !stringify_unfold.
  destruct (path_stage_delete_null st k Hk) as [-> Hk1]. simpl.
  destruct (location_stage_delete_null (Codec.path_stage st).1 _ k Hk1) as [-> Hk2].
  destruct (Codec.location_stage _ _) as [[link st2]|e]; [|done]. simpl.
  by rewrite (filter_null_delete_null st2 k (Hk2 _ eq_refl)).
Qed.

Lemma stringify_ignores_null_witness :
  Case.with_null !! "b" = Some VNull
  ∧ Codec.stringify ∅ (delete "b" Case.with_null) = Codec.stringify ∅ Case.with_null.
Proof.
  split; [reflexivity|].
  exact (stringify_ignores_null ∅ Case.with_null "b" eq_refl).
Defined.

(** X7: [stringify] throws in one case only (the formatters taken to
    return): [zoom], [lat] and [lon] are all truthy and [lat] or [lon] is
    not a number, as for a position read from text; what is thrown is a
    TypeError. In every other case it returns a link. *)
Theorem stringify_error_cases (params : formatters) (st : obj) :
  match Codec.stringify params st with
  | Ok _ =>
      writes_map st = false ∨ number_at st "lat" && number_at st "lon" = true
  | Throw e =>
      writes_map st = true
      ∧ number_at st "lat" && number_at st "lon" = false
      ∧ ∃ msg, e = TypeError msg
  end.
Proof.
  rewrite stringify_unfold. unfold writes_map, number_at, JS.truthy_at.
  unfold Codec.location_stage.
  rewrite !path_stage_other by done.
  destruct (st !! "zoom") as [zoom|]; [|by left].
  destruct (st !! "lat") as [lat|]; [|left; simpl; by rewrite andb_false_r].
  destruct (st !! "lon") as [lon|]; [|left; simpl; by rewrite andb_false_r].
  destruct (JS.truthy zoom && JS.truthy lat && JS.truthy lon); [|by left].
  unfold mbind, result_bind, rbind.
  destruct lat as [|s|n|l]; simpl; eauto.
  destruct lon as [|s|m|l]; simpl; eauto.
Qed.

Example stringify_throws_on_text_latitude :
  Codec.stringify ∅
    {[ "zoom" := VNum (Dec 5 0); "lat" := VStr "48.2"; "lon" := VNum (Dec 163 1) ]}
  = Throw (TypeError "toFixed is not a function").
Proof. vm_compute. reflexivity. Qed.

(** X8: a link without [=] is a path and nothing else. What precedes the
    first [&] (the whole link when there is none) is decoded into [path],
    what follows it is dropped, and no other key is set; a link that
    begins with [&] gives the empty state. *)
Theorem parse_path_only (params : formatters) (h p rest : string) :
  lacks "&" p →
  lacks "=" (p +:+ rest) →
  rest = "" ∨ (∃ r, rest = String "&" r) →
  Str.is_empty (p +:+ rest) = false →
  Codec.parse params h (Some (p +:+ rest))
  = if Str.is_empty p then Ok ∅
    else s ← URI.decodeURIComponent p;
         Ok (format_with Formatter.parse params {["path" := VStr s]}).
Proof.
  intros Hamp Heq Hrest Hne. unfold Codec.parse. rewrite Hne.
  assert (Codec.split_link (p +:+ rest) = (p, "")) as ->.
  { unfold Codec.split_link. rewrite Hne, (search_lacks "=" _ Heq). simpl.
    destruct Hrest as [->|[r ->]].
    - rewrite sapp_nil_r, (search_lacks "&" _ Hamp). done.
    - rewrite (search_at "&" p r Hamp).
      destruct (Z.eqb_spec (Z.of_nat (String.length p)) (-1)); [lia|].
      by rewrite substr_to_app. }
  change (QueryString.parse "") with (∅ : obj).
  destruct (Str.is_empty p).
  - simpl. unfold mbind, result_bind, rbind. simpl.
    unfold Codec.expand_map. rewrite lookup_empty. f_equal.
    apply format_with_id. intros k [v Hk]. by rewrite lookup_empty in Hk.
  - unfold mbind, result_bind, rbind.
    destruct (URI.decodeURIComponent p) as [s|e]; [|done].
    unfold Codec.expand_map. rewrite lookup_insert_ne by done. rewrite lookup_empty.
    done.
Qed.

Lemma parse_path_only_witness :
  (lacks "&" "about" ∧ lacks "=" ("about" +:+ "&x&y")
   ∧ ("&x&y" = "" ∨ ∃ r, "&x&y" = String "&" r)
   ∧ Str.is_empty ("about" +:+ "&x&y") = false)
  ∧ Codec.parse ∅ "" (Some "about&x&y") = Ok {[ "path" := VStr "about" ]}.
Proof.
  assert ("&x&y" = "" ∨ ∃ r, "&x&y" = String "&" r) as H by (right; by exists "x&y").
  split; [split_and!; [reflexivity|reflexivity|exact H|reflexivity]|].
  pose proof (parse_path_only ∅ "" "about" "&x&y" eq_refl eq_refl H eq_refl) as Hp.
  vm_compute in Hp. vm_compute. exact Hp.
Defined.

Lemma decode_throws_URIError (s : string) e :
  URI.decodeURIComponent s = Throw e → ∃ msg, e = URIError msg.
Proof.
  remember (String.length s) as n eqn:Hn.
  revert s Hn. induction (lt_wf n) as [n _ IH]. intros s -> .
  destruct s as [|c t]; simpl; [done|].
  destruct (Str.eqb_ascii c "%").
  - destruct t as [|a [|b r]]; try (intros [= <-]; eauto).
    destruct (URI.hexval a), (URI.hexval b); try (intros [= <-]; eauto).
    unfold rbind. destruct (URI.decodeURIComponent r) eqn:Hr; [done|].
    intros [= <-]. apply (IH (String.length r)) with (s := r); [simpl; lia|done|done].
  - unfold rbind. destruct (URI.decodeURIComponent t) eqn:Ht; [done|].
    intros [= <-]. apply (IH (String.length t)) with (s := t); [simpl; lia|done|done].
Qed.

(** X9: [parse] throws in two cases only (the formatters taken to
    return): the path of the link cannot be decoded, which gives a
    URIError, or the path is fine and the parameters have a [map] that is
    no string, which gives a TypeError. In every other case it returns a
    state. *)
Theorem parse_error_cases (params : formatters) (h : string) (link : option string) :
  let split := Codec.split_link (link_read h link) in
  let query := QueryString.parse split.2 in
  match Codec.parse params h link with
  | Ok _ => ¬ path_fails split.1 ∧ ¬ map_unreadable query
  | Throw e =>
      (path_fails split.1 ∧ ∃ msg, e = URIError msg)
      ∨ (¬ path_fails split.1 ∧ map_unreadable query ∧ ∃ msg, e = TypeError msg)
  end.
Proof.
  intros split query. subst split query.
  unfold Codec.parse. fold (link_read h link).
  destruct (Codec.split_link (link_read h link)) as [p q]. simpl.
  assert (∀ o : obj, o !! "map" = QueryString.parse q !! "map" →
    match o' ← Codec.expand_map o; Ok (format_with Formatter.parse params o') with
    | Ok _ => ¬ map_unreadable (QueryString.parse q)
    | Throw e => map_unreadable (QueryString.parse q) ∧ ∃ msg, e = TypeError msg
    end) as Hexp.
  { intros o Ho. unfold Codec.expand_map, map_unreadable. rewrite Ho.
    destruct (QueryString.parse q !! "map") as [m|]; [|by intros (v & [=] & _)].
    destruct (decide (m = VStr "auto")) as [->|Hne].
    { simpl. intros (v & [= <-] & Hv). by destruct (Hv "auto"). }
    destruct m as [|s|n|l]; simpl.
    - split; [|eauto]. by exists VNull.
    - intros (v & [= <-] & Hv). by destruct (Hv s).
    - split; [|eauto]. by exists (VNum n).
    - split; [|eauto]. by exists (VArr l). }
  unfold path_fails. destruct (Str.is_empty p) eqn:Hp.
  - unfold mbind at 1, result_bind at 1, rbind at 1. simpl.
    specialize (Hexp _ eq_refl).
    destruct (_ ≫= _) as [o|e].
    + split; [by intros [? _]|done].
    + right. split; [by intros [? _]|done].
  - destruct (URI.decodeURIComponent p) as [s|e'] eqn:Hd.
    + unfold mbind at 1, result_bind at 1, rbind at 1. simpl.
      specialize (Hexp (<["path" := VStr s]> (QueryString.parse q))
                    ltac:(by rewrite lookup_insert_ne)).
      destruct (_ ≫= _) as [o|e].
      * split; [by intros [_ [? ?]]|done].
      * right. split; [by intros [_ [? ?]]|done].
    + simpl. left. split; [eauto|]. by apply (decode_throws_URIError p).
Qed.

Example parse_throws_on_map_without_value :
  Codec.parse ∅ "" (Some "x=1&map")
  = Throw (TypeError "Cannot read properties of null (reading 'split')").
Proof. vm_compute. reflexivity. Qed.

Example parse_throws_on_repeated_map :
  Codec.parse ∅ "" (Some "map=1/2/3&map=4/5/6")
  = Throw (TypeError "newState.map.split is not a function").
Proof. vm_compute. reflexivity. Qed.

Example parse_throws_on_bad_escape :
  Codec.parse ∅ "" (Some "50%&x=1") = Throw (URIError "URI malformed").
Proof. vm_compute. reflexivity. Qed.

Lemma parse_after_hashchange params (h : string) :
  single_hash h →
  Codec.parse params h (Some (Str.substr_from 1 h)) = Codec.parse params h None.
Proof.
  intros [->|(rest & -> & Hrest)]; [done|].
  unfold Codec.parse. change (Str.substr_from 1 (String "#" rest)) with rest.
  destruct (Str.is_empty rest) eqn:He; [done|].
  change (Str.strip_leading "#" (String "#" rest)) with (Str.strip_leading "#" rest).
  by rewrite Hrest.
Qed.

(** ** More on the store *)

Lemma apply_no_current w state opts :
  heap w !! current w = None →
  State.apply state opts w = (Throw (TypeError "not an object"), w).
Proof.
  intros Hc. unfold State.apply.
  unfold mbind at 1, M_bind at 1. simpl.
  unfold mbind at 1, M_bind at 1. unfold load at 1. by rewrite Hc.
Qed.

(** X10: the handler that [init] registers for changes of the fragment
    does what [apply()] without argument does on the page at the new
    fragment, provided the fragment is empty or has one leading [#]: the
    same result, the same objects, the same timer. *)
Theorem hashchange_applies_fragment (h : string) (w : world) :
  single_hash h →
  State.on_hashchange h w = State.apply INull (Options None) (at_fragment h w).
Proof.
  intros Hh. change (State.on_hashchange h w)
    with (State.apply (IString (Str.substr_from 1 h)) (Options None) (at_fragment h w)).
  pose proof (parse_after_hashchange (parameters w) h Hh) as Hp.
  set (w1 := at_fragment h w).
  destruct (heap w1 !! current w1) as [cur|] eqn:Hc;
    [|by rewrite !apply_no_current].
  destruct (Codec.parse (parameters w) h None) as [delta|e] eqn:Hn.
  - rewrite (apply_parse_run w1 (Some (Str.substr_from 1 h)) cur delta) by eauto.
    by rewrite (apply_parse_run w1 None cur delta) by eauto.
  - rewrite (apply_parse_throws w1 (Some (Str.substr_from 1 h)) cur e) by eauto.
    by rewrite (apply_parse_throws w1 None cur e) by eauto.
Qed.

Lemma hashchange_witness :
  single_hash "#x=1"
  ∧ State.on_hashchange "#x=1" (State.new "")
    = State.apply INull (Options None) (at_fragment "#x=1" (State.new "")).
Proof.
  assert (single_hash "#x=1") as H by (right; by exists "x=1").
  split; [exact H|].
  exact (hashchange_applies_fragment "#x=1" (State.new "") H).
Defined.

(** With two leading [#]s the two differ: the handler keeps the second
    one in the path, [apply()] drops both. *)
Example hashchange_keeps_second_hash :
  let w1 := (State.on_hashchange "##about" (State.new "")).2 in
  let w2 := (State.apply INull (Options None) (at_fragment "##about" (State.new ""))).2 in
  heap w1 !! current w1 = Some ({[ "path" := VStr "#about" ]} : obj)
  ∧ heap w2 !! current w2 = Some ({[ "path" := VStr "about" ]} : obj).
Proof. split; vm_compute; reflexivity. Qed.

Lemma finish_result st opts w r w' :
  finish st opts w = (Ok r, w') →
  r = st ∧ ∃ l, heap w' = heap w ++ l ∧ current w' = current w.
Proof.
  destruct (finish_run st opts w) as [l ->].
  destruct (State.wants_update opts).
  - match goal with |- context [match ?x with _ => _ end] => destruct x end; [|done].
    intros [= <- <-]. simpl. eauto.
  - intros [= <- <-]. simpl. split; [done|]. exists []. by rewrite app_nil_r.
Qed.

Lemma apply_timers state opts w r w' :
  State.apply state opts w = (Ok r, w') →
  timers w' = timers w ++ [r] ∧ delivered w' = delivered w
  ∧ apply_listeners w' = apply_listeners w.
Proof.
  rewrite apply_before_timer.
  destruct (quiet_before_timer state opts w) as (Hd & Ht & Hl).
  destruct (before_timer state opts w) as [[r1|e] w1]; [|done].
  intros [= <- <-]. simpl in *. by rewrite Ht.
Qed.

(** X11: what [apply] returns, and what the handlers of 'apply' will be
    given, is the state it applied and not the accumulated state: the
    object passed in, by reference, or for a link (or nothing) a new
    object that holds what the link parses to, which is not
    [this.current]. *)
Theorem apply_returns_applied_state (w w' : world) (state : input)
    (cur delta : obj) (opts : options) (r : loc) :
  heap w !! current w = Some cur →
  input_delta w state delta →
  State.apply state opts w = (Ok r, w') →
  heap w' !! r = Some delta
  ∧ last (timers w') = Some r
  ∧ match state with
    | IObject r0 => r = r0
    | _ => heap w !! r = None ∧ r ≠ current w'
    end.
Proof.
  intros Hc Hd Ha.
  pose proof (lookup_lt_Some _ _ _ Hc) as Hlt.
  assert (last (timers w') = Some r) as Hlast.
  { apply apply_timers in Ha as (-> & _). by rewrite last_snoc. }
  destruct state as [|s|r0]; simpl in Hd.
  - destruct Hd as (link & [= <-] & Hp).
    rewrite (apply_parse_run w None cur delta INull opts Hc) in Ha by eauto.
    apply finish_result in Ha as (-> & l & Hh & Hcur). rewrite Hh, Hcur. simpl.
    split_and!; [|done| |lia].
    + apply lookup_ext_old.
      rewrite <- (length_insert (heap w) (current w) (delta ∪ cur)). apply lookup_ext1.
    + apply lookup_ge_None_2. lia.
  - destruct Hd as (link & [= <-] & Hp).
    rewrite (apply_parse_run w (Some s) cur delta (IString s) opts Hc) in Ha by eauto.
    apply finish_result in Ha as (-> & l & Hh & Hcur). rewrite Hh, Hcur. simpl.
    split_and!; [|done| |lia].
    + apply lookup_ext_old.
      rewrite <- (length_insert (heap w) (current w) (delta ∪ cur)). apply lookup_ext1.
    + apply lookup_ge_None_2. lia.
  - rewrite (apply_object_run w r0 cur delta opts Hc Hd) in Ha.
    apply finish_result in Ha as (Hr & l & Hh & Hcur). subst r. rewrite Hh. simpl.
    split_and!; [|done|done].
    apply lookup_ext_old, lookup_ext_old.
    destruct (decide (r0 = current w)) as [->|Hne].
    + rewrite list_lookup_insert_eq by done.
      assert (delta = cur) as -> by congruence. f_equal. apply map_eq. intros k.
      rewrite lookup_union. by destruct (cur !! k).
    + by rewrite list_lookup_insert_ne.
Qed.

Lemma apply_returns_witness :
  (heap Sample.after_x1 !! current Sample.after_x1 = Some Sample.x1
   ∧ input_delta Sample.after_x1 (IString "y=2") {[ "y" := VStr "2" ]}
   ∧ State.apply (IString "y=2") (Options None) Sample.after_x1
     = (Ok 4%nat, (State.apply (IString "y=2") (Options None) Sample.after_x1).2))
  ∧ heap (State.apply (IString "y=2") (Options None) Sample.after_x1).2 !! 4%nat
    = Some ({[ "y" := VStr "2" ]} : obj).
Proof.
  assert (heap Sample.after_x1 !! current Sample.after_x1 = Some Sample.x1) as H1
    by (vm_compute; reflexivity).
  assert (input_delta Sample.after_x1 (IString "y=2") {[ "y" := VStr "2" ]}) as H2
    by (exists (Some "y=2"); split; vm_compute; reflexivity).
  assert (State.apply (IString "y=2") (Options None) Sample.after_x1
          = (Ok 4%nat, (State.apply (IString "y=2") (Options None) Sample.after_x1).2))
    as H3 by (vm_compute; reflexivity).
  split; [by split_and!|].
  exact (proj1 (apply_returns_applied_state Sample.after_x1 _ (IString "y=2")
                  Sample.x1 {[ "y" := VStr "2" ]} (Options None) 4%nat H1 H2 H3)).
Defined.

(** X12: two calls of [apply] in a row leave in [this.current] what one
    call with the second state laid over the first would leave: a key of
    the second state has its value, another key of the first state has
    that one, every other key is as before; [this.current] is the same
    object throughout, and [this.previous] holds the state between the two
    calls. This holds whether the calls return or throw after merging. *)
Theorem apply_twice_merges_in_order (w : world) (s1 s2 : input) (o1 o2 : options)
    (cur d1 d2 : obj) :
  heap w !! current w = Some cur →
  input_delta w s1 d1 →
  let w1 := (State.apply s1 o1 w).2 in
  input_delta w1 s2 d2 →
  let w2 := (State.apply s2 o2 w1).2 in
  current w2 = current w
  ∧ heap w2 !! current w2 = Some ((d2 ∪ d1) ∪ cur)
  ∧ ∃ p, previous w2 = Some p ∧ heap w2 !! p = Some (d1 ∪ cur).
Proof.
  intros Hc Hd1 w1 Hd2 w2.
  assert (heap w1 !! current w1 = Some (d1 ∪ cur) ∧ current w1 = current w) as [Hc1 Hcur1].
  { subst w1. destruct (apply_merges w s1 cur d1 o1 Hc Hd1) as (st & extra & ->).
    pose proof (merged_current extra cur d1 w Hc) as Hm.
    destruct (finish_current _ st o1 _ Hm) as [H _].
    destruct (finish_object (merged extra cur d1 w) st o1) as (l & _ & Hcur & _).
    split; [done|]. by rewrite Hcur. }
  subst w2. destruct (apply_merges w1 s2 (d1 ∪ cur) d2 o2 Hc1 Hd2) as (st & extra & ->).
  pose proof (merged_current extra (d1 ∪ cur) d2 w1 Hc1) as Hm.
  destruct (finish_current _ st o2 _ Hm) as [H _].
  destruct (finish_object (merged extra (d1 ∪ cur) d2 w1) st o2) as (l & Hh & Hcur & Hprev).
  split_and!.
  - by rewrite Hcur.
  - rewrite H. f_equal. apply map_union_assoc.
  - exists (length (heap w1)). rewrite Hprev, Hh. split; [done|].
    apply lookup_ext_old. simpl.
    rewrite <- (length_insert (heap w1) (current w1) (d2 ∪ (d1 ∪ cur))).
    apply lookup_ext0.
Qed.

Lemma apply_twice_in_order_witness :
  (heap (State.new "") !! current (State.new "") = Some (∅ : obj)
   ∧ input_delta (State.new "") (IString "x=1&y=2")
       {[ "x" := VStr "1"; "y" := VStr "2" ]}
   ∧ input_delta (State.apply (IString "x=1&y=2") (Options None) (State.new "")).2
       (IString "x=3") {[ "x" := VStr "3" ]})
  ∧ let w2 := (State.apply (IString "x=3") (Options None)
                 (State.apply (IString "x=1&y=2") (Options None) (State.new "")).2).2 in
    heap w2 !! current w2 = Some ({[ "x" := VStr "3"; "y" := VStr "2" ]} : obj).
Proof.
  assert (input_delta (State.new "") (IString "x=1&y=2")
            {[ "x" := VStr "1"; "y" := VStr "2" ]}) as H2
    by (exists (Some "x=1&y=2"); split; vm_compute; reflexivity).
  assert (input_delta (State.apply (IString "x=1&y=2") (Options None) (State.new "")).2
            (IString "x=3") {[ "x" := VStr "3" ]}) as H3
    by (exists (Some "x=3"); split; vm_compute; reflexivity).
  split; [split_and!; [reflexivity|exact H2|exact H3]|].
  destruct (apply_twice_merges_in_order (State.new "") (IString "x=1&y=2") (IString "x=3")
              (Options None) (Options None) ∅ _ _ eq_refl H2 H3) as (_ & H & _).
  simpl. rewrite H. vm_compute. reflexivity.
Defined.

Lemma run_timer_cons w r rest :
  timers w = r :: rest →
  timers (State.run_timer w) = rest
  ∧ delivered (State.run_timer w) = delivered w ++ broadcast w r
  ∧ apply_listeners (State.run_timer w) = apply_listeners w.
Proof. intros H. unfold State.run_timer. rewrite H. done. Qed.

(** X13: the broadcasts of two calls of [apply] reach the handlers of
    'apply' in the order of the calls. Neither call runs a handler; the
    first turn of the event loop afterwards runs them on what the first
    call returned, the second turn on what the second call returned, and
    then no timer is pending. *)
Theorem broadcasts_follow_call_order (w w1 w2 : world) (s1 s2 : input)
    (o1 o2 : options) (r1 r2 : loc) :
  timers w = [] →
  State.apply s1 o1 w = (Ok r1, w1) →
  State.apply s2 o2 w1 = (Ok r2, w2) →
  delivered w2 = delivered w
  ∧ delivered (State.run_timer w2) = delivered w ++ broadcast w r1
  ∧ delivered (State.run_timer (State.run_timer w2))
    = delivered w ++ broadcast w r1 ++ broadcast w r2
  ∧ timers (State.run_timer (State.run_timer w2)) = [].
Proof.
  intros Ht H1 H2.
  apply apply_timers in H1 as (Ht1 & Hd1 & Hl1).
  apply apply_timers in H2 as (Ht2 & Hd2 & Hl2).
  rewrite Ht1, Ht in Ht2. simpl in Ht2.
  destruct (run_timer_cons w2 r1 [r2] Ht2) as (Ht3 & Hd3 & Hl3).
  destruct (run_timer_cons _ r2 [] Ht3) as (Ht4 & Hd4 & Hl4).
  rewrite Hd4, Hd3, Hd2, Hd1. unfold broadcast. rewrite Hl3, Hl2, Hl1.
  split_and!; try done. by rewrite <- app_assoc.
Qed.

Lemma broadcasts_order_witness :
  (timers Case.listening = []
   ∧ State.apply (IString "x=1") (Options None) Case.listening
     = (Ok 2%nat, (State.apply (IString "x=1") (Options None) Case.listening).2)
   ∧ State.apply (IString "y=2") (Options None)
       (State.apply (IString "x=1") (Options None) Case.listening).2
     = (Ok 4%nat,
        (State.apply (IString "y=2") (Options None)
           (State.apply (IString "x=1") (Options None) Case.listening).2).2))
  ∧ delivered
      (State.run_timer
         (State.run_timer
            (State.apply (IString "y=2") (Options None)
               (State.apply (IString "x=1") (Options None) Case.listening).2).2))
    = [("map", 2%nat); ("map", 4%nat)].
Proof.
  assert (State.apply (IString "x=1") (Options None) Case.listening
          = (Ok 2%nat, (State.apply (IString "x=1") (Options None) Case.listening).2))
    as H1 by (vm_compute; reflexivity).
  assert (State.apply (IString "y=2") (Options None)
            (State.apply (IString "x=1") (Options None) Case.listening).2
          = (Ok 4%nat,
             (State.apply (IString "y=2") (Options None)
                (State.apply (IString "x=1") (Options None) Case.listening).2).2))
    as H2 by (vm_compute; reflexivity).
  split; [split_and!; [reflexivity|exact H1|exact H2]|].
  destruct (broadcasts_follow_call_order Case.listening _ _ (IString "x=1")
              (IString "y=2") (Options None) (Options None) 2%nat 4%nat eq_refl H1 H2)
    as (_ & _ & H & _).
  exact H.
Defined.

(** X14: when [apply] is asked to update the URL and the state the
    handlers of 'get' report cannot be written, the exception of
    [stringify] leaves [apply] after the merge and before [setTimeout]:
    [this.current] already holds the new state, but no broadcast is
    scheduled and the URL and the history are as before. *)
Theorem apply_update_failure_keeps_merge (w : world) (state : input)
    (cur delta : obj) (opts : options) (e : exn) :
  heap w !! current w = Some cur →
  input_delta w state delta →
  State.wants_update opts = true →
  Codec.stringify (parameters w) (State.emit_get (get_listeners w) ∅) = Throw e →
  let res := State.apply state opts w in
  res.1 = Throw e
  ∧ heap res.2 !! current res.2 = Some (delta ∪ cur)
  ∧ timers res.2 = timers w
  ∧ history res.2 = history w
  ∧ hash res.2 = hash w.
Proof.
  intros Hc Hd Hu Hs res. subst res.
  destruct (apply_merges w state cur delta opts Hc Hd) as (st & extra & ->).
  destruct (finish_run st opts (merged extra cur delta w)) as [l ->].
  rewrite Hu. simpl parameters. simpl get_listeners. rewrite Hs. simpl.
  split_and!; try done.
  rewrite <- app_assoc. apply lookup_ext_old, list_lookup_insert_eq.
  by eapply lookup_lt_Some.
Qed.

Lemma apply_update_failure_witness :
  (heap Case.with_text_position !! current Case.with_text_position = Some (∅ : obj)
   ∧ input_delta Case.with_text_position (IString "x=1") {[ "x" := VStr "1" ]}
   ∧ State.wants_update Sample.push = true
   ∧ Codec.stringify (parameters Case.with_text_position)
       (State.emit_get (get_listeners Case.with_text_position) ∅)
     = Throw (TypeError "toFixed is not a function"))
  ∧ let res := State.apply (IString "x=1") Sample.push Case.with_text_position in
    res.1 = Throw (TypeError "toFixed is not a function")
    ∧ heap res.2 !! current res.2 = Some ({[ "x" := VStr "1" ]} ∪ ∅ : obj)
    ∧ timers res.2 = []
    ∧ history res.2 = []
    ∧ hash res.2 = "".
Proof.
  assert (input_delta Case.with_text_position (IString "x=1") {[ "x" := VStr "1" ]}) as H2
    by (exists (Some "x=1"); split; vm_compute; reflexivity).
  assert (Codec.stringify (parameters Case.with_text_position)
            (State.emit_get (get_listeners Case.with_text_position) ∅)
          = Throw (TypeError "toFixed is not a function")) as H4
    by (vm_compute; reflexivity).
  split; [split_and!; [reflexivity|exact H2|reflexivity|exact H4]|].
  exact (apply_update_failure_keeps_merge Case.with_text_position (IString "x=1") ∅
           {[ "x" := VStr "1" ]} Sample.push _ eq_refl H2 eq_refl H4).
Defined.

(** X15: [updateLink] writes the link of the state the handlers of 'get'
    report: when that state can be written, the fragment becomes [#] and
    the link, through [pushState] when [push] is true and [replaceState]
    otherwise, in one history call; when it cannot, the exception
    leaves and the fragment and the history are as before. In both cases
    [this.current], [this.previous], the pending timers and every object
    that existed are unchanged. *)
Theorem updateLink_writes_collected_state (push : bool) (w : world) :
  let res := State.updateLink push w in
  match Codec.stringify (parameters w) (State.emit_get (get_listeners w) ∅) with
  | Ok link =>
      res.1 = Ok tt
      ∧ hash res.2 = "#" +:+ link
      ∧ history res.2 = history w ++ [history_entry push ("#" +:+ link)]
  | Throw e =>
      res.1 = Throw e ∧ hash res.2 = hash w ∧ history res.2 = history w
  end
  ∧ current res.2 = current w ∧ previous res.2 = previous w
  ∧ timers res.2 = timers w ∧ delivered res.2 = delivered w
  ∧ ∀ r o, heap w !! r = Some o → heap res.2 !! r = Some o.
Proof.
  intros res. subst res. rewrite updateLink_run.
  pose proof (stringify_none_result w) as Hres.
  destruct (stringify_extends None w) as [l Hl].
  destruct (State.stringify None w) as [[link|e] w1]; simpl in *; subst w1;
    rewrite <- Hres; simpl.
  - split_and!; try done; try (by destruct push). intros r o. apply lookup_ext_old.
  - split_and!; try done. intros r o. apply lookup_ext_old.
Qed.

Example updateLink_without_handler_clears_fragment :
  hash (State.updateLink false (State.new "#x=1")).2 = "#"
  ∧ history (State.updateLink false (State.new "#x=1")).2 = [replaceState "#"].
Proof. split; vm_compute; reflexivity. Qed.

(** ** More on the bootstrap *)

Lemma all_settled_throw ps err :
  App.all_settled ps = Throw err → Throw err ∈ ps.
Proof.
  induction ps as [|[u|e'] ps IH]; simpl; [done| |].
  - intros H. right. by apply IH.
  - intros [= ->]. left.
Qed.

Lemma all_settled_ok ps u :
  App.all_settled ps = Ok u ↔ ∀ err, Throw err ∉ ps.
Proof.
  destruct u. induction ps as [|[[]|e'] ps IH]; simpl.
  - split; [|done]. intros _ err H. inversion H.
  - rewrite IH. split.
    + intros H err Hin. apply (H err). inversion Hin; subst; done.
    + intros H err Hin. apply (H err). by right.
  - split; [done|]. intros H. destruct (H e'). left.
Qed.

Lemma init_events e s w :
  (App.init e s w).1 =
    match App.all_settled (init_promises e) with
    | Ok _ =>
        match Sample.apply_object s (Options None)
                (World (heap w) (current w) (previous w) (parameters w)
                   (get_listeners w ++ [State.emit_get (state_get_listeners e)])
                   (apply_listeners w ++ ["state-apply"])
                   (hash w) (history w) (timers w) (delivered w)) with
        | (Ok _, _) => [StateApply s]
        | (Throw err, _) => [StateApply s; Alert (message err)]
        end
    | Throw err => [Alert (message err)]
    end.
Proof.
  unfold App.init, Sample.apply_object.
  destruct (App.all_settled _); [|done].
  by destruct ((r ← alloc s; State.apply (IObject r) (Options None)) _) as [[?|?] ?].
Qed.

Lemma init_applies e s w m :
  StateApply m ∈ (App.init e s w).1 ↔ App.all_settled (init_promises e) = Ok tt ∧ m = s.
Proof.
  rewrite init_events. destruct (App.all_settled (init_promises e)) as [[]|err].
  - destruct (Sample.apply_object s _ _) as [[?|?] ?].
    + rewrite list_elem_of_singleton. split; [by intros [= ->]|by intros [_ ->]].
    + rewrite elem_of_cons, list_elem_of_singleton.
      split; [by intros [[= ->]|[=]]|intros [_ ->]; by left].
  - rewrite list_elem_of_singleton. split; [done|by intros [? _]].
Qed.

Lemma init_world e s w cur :
  heap w !! current w = Some cur →
  App.all_settled (init_promises e) = Ok tt →
  let res := App.init e s w in
  res.1 = [StateApply s]
  ∧ heap res.2 !! current res.2 = Some (s ∪ cur)
  ∧ timers res.2 = timers w ++ [length (heap w)]
  ∧ heap res.2 !! length (heap w) = Some s.
Proof.
  intros Hc Hs res. subst res. unfold App.init. rewrite Hs.
  set (w0 := World _ _ _ _ _ _ _ _ _ _).
  change ((r ← alloc s; State.apply (IObject r) (Options None)) w0)
    with (State.apply (IObject (length (heap w0))) (Options None)
            (set_heap (heap w0 ++ [s]) w0)).
  set (w1 := set_heap _ _).
  assert (heap w1 !! current w1 = Some cur) as Hc1 by (by apply lookup_ext_old).
  assert (heap w1 !! length (heap w0) = Some s) as Hr by apply lookup_ext0.
  pose proof (lookup_lt_Some _ _ _ Hc) as Hlt.
  rewrite (apply_object_run w1 _ cur s _ Hc1 Hr).
  change (finish (length (heap w0)) (Options None) (merged [] cur s w1))
    with (Ok (length (heap w0)),
          set_timers (timers w ++ [length (heap w0)]) (merged [] cur s w1)).
  simpl. split_and!; try done.
  - apply lookup_ext_old. apply list_lookup_insert_eq.
    rewrite length_app. simpl. lia.
  - apply lookup_ext_old.
    rewrite list_lookup_insert_ne by lia. apply lookup_ext0.
Qed.

Lemma elem_of_flat_map {A B} (f : A → list B) (l : list A) (y : B) :
  y ∈ flat_map f l ↔ ∃ x, x ∈ l ∧ y ∈ f x.
Proof.
  induction l as [|a l IH]; simpl.
  - split; [by intros H%elem_of_nil|]. by intros (x & H%elem_of_nil & _).
  - rewrite elem_of_app, IH. split.
    + intros [H|(x & Hx & Hy)]; [exists a|exists x]; split; try done; [left|by right].
    + intros (x & Hx & Hy). apply elem_of_cons in Hx as [->|Hx]; [by left|right; eauto].
Qed.

Lemma loadCssFiles_elem e ev :
  ev ∈ App.loadCssFiles e
  ↔ ∃ m files f, m ∈ modules e ∧ AppModule.cssFiles m = Some files ∧ f ∈ files
                 ∧ ev = AppendStylesheet f.
Proof.
  unfold App.loadCssFiles. rewrite elem_of_flat_map. split.
  - intros (m & Hm & Hin).
    apply list_elem_of_fmap in Hin as (f & -> & Hf).
    destruct (AppModule.cssFiles m) as [files|] eqn:Hc; simpl in Hf.
    + by exists m, files, f.
    + by apply elem_of_nil in Hf.
  - intros (m & files & f & Hm & Hc & Hf & ->). exists m.
    split; [done|]. apply list_elem_of_fmap. exists f. by rewrite Hc.
Qed.

Ltac no_such_event :=
  let H := fresh in
  intros H; repeat (apply elem_of_cons in H as [H|H]; [discriminate H|]);
  by apply elem_of_nil in H.

Lemma init_no_stylesheet e s w f : AppendStylesheet f ∉ (App.init e s w).1.
Proof.
  rewrite init_events. destruct (App.all_settled _); [|no_such_event].
  destruct (Sample.apply_object s _ _) as [[?|?] ?]; no_such_event.
Qed.

Lemma getInitState_no_stylesheet e w f : AppendStylesheet f ∉ (App.getInitState e w).1.
Proof.
  unfold App.getInitState.
  destruct (Codec.parse _ _ None); [|no_such_event].
  destruct (config e) as [[d|template]|]; [apply init_no_stylesheet| |no_such_event].
  destruct (App.twigGet _ _ _); [no_such_event|].
  destruct (yaml_load _ _); [apply init_no_stylesheet|no_such_event].
Qed.

(** X16: the constructor appends a stylesheet exactly when a registered
    module lists it among its [cssFiles]: a module without [cssFiles]
    adds none, and neither an error of the initialization chain, nor a
    URL that cannot be parsed, nor a failing default state, nor a
    rejected 'init' promise keeps a listed file from being appended. *)
Theorem new_appends_listed_stylesheets (e : env) (w : world) (f : string) :
  AppendStylesheet f ∈ (App.new e w).1
  ↔ ∃ m files, m ∈ modules e ∧ AppModule.cssFiles m = Some files ∧ f ∈ files.
Proof.
  unfold App.new, App.initModules.
  pose proof (getInitState_no_stylesheet e w f) as Hno.
  destruct (App.getInitState e w) as [rest w']. simpl in *.
  rewrite !elem_of_app, loadCssFiles_elem. split.
  - intros [H|[(m & files & f' & Hm & Hc & Hf & [= ->])|H]]; [|eauto|done].
    destruct (InitModules.initModules _).2; [|by apply elem_of_nil in H].
    by apply list_elem_of_singleton in H.
  - intros (m & files & Hm & Hc & Hf). right. left. by exists m, files, f.
Qed.

(** X17: [getInitState] comes to [state.apply] in one case only, and with
    one state: the fragment of the page parses, the default state is an
    object or a template that renders to YAML for the state of the URL,
    and every 'init' promise resolves; the state applied is then the
    default state overlaid with the state of the URL. *)
Theorem initial_state_applied_iff (e : env) (w : world) (m : obj) :
  StateApply m ∈ (App.getInitState e w).1
  ↔ ∃ initState d,
      Codec.parse (parameters w) (hash w) None = Ok initState
      ∧ default_resolves e initState d
      ∧ App.all_settled (init_promises e) = Ok tt
      ∧ m = initState ∪ d.
Proof.
  unfold App.getInitState, default_resolves, App.twigGet.
  destruct (Codec.parse _ _ None) as [initState|err]; cycle 1.
  { simpl. rewrite list_elem_of_singleton. split; [done|]. by intros (? & ? & ? & _). }
  destruct (config e) as [[d|template]|]; cycle 2.
  { simpl. rewrite list_elem_of_singleton. split; [done|].
    by intros (? & ? & _ & ? & _). }
  - rewrite init_applies. split.
    + intros [H ->]. by exists initState, d.
    + intros (i & d' & Hi & Hd & H & Hm). injection Hi as <-. subst. done.
  - destruct (twig e template initState) as [msg|msg|text] eqn:Htw; simpl.
    + rewrite list_elem_of_singleton. split; [done|].
      intros (i & d & [= <-] & (t & Ht & _) & _). congruence.
    + rewrite list_elem_of_singleton. split; [done|].
      intros (i & d & [= <-] & (t & Ht & _) & _). congruence.
    + destruct (yaml_load e (Str.trim text)) as [d|err] eqn:Hy.
      * rewrite init_applies. split.
        -- intros [H ->]. exists initState, d. split_and!; eauto.
        -- intros (i & d' & [= <-] & (t & Ht & Hy') & H & ->).
           rewrite Htw in Ht. injection Ht as <-.
           rewrite Hy in Hy'. by injection Hy' as <-.
      * simpl. rewrite list_elem_of_singleton. split; [done|].
        intros (i & d & [= <-] & (t & Ht & Hy') & _).
        rewrite Htw in Ht. injection Ht as <-. congruence.
Qed.

(** X18: at the end of a start-up that goes through, [this.current] has
    for every key the value of the URL, else that of the default state,
    else what it held before; the state applied is the only event, and the
    one broadcast scheduled is that of the merged initial state. *)
Theorem startup_merges_url_over_default (e : env) (w : world)
    (cur initState d : obj) :
  heap w !! current w = Some cur →
  Codec.parse (parameters w) (hash w) None = Ok initState →
  default_resolves e initState d →
  App.all_settled (init_promises e) = Ok tt →
  let res := App.getInitState e w in
  res.1 = [StateApply (initState ∪ d)]
  ∧ (∃ cur', heap res.2 !! current res.2 = Some cur'
       ∧ ∀ k, cur' !! k = match initState !! k with
                          | Some v => Some v
                          | None => match d !! k with
                                    | Some v => Some v
                                    | None => cur !! k
                                    end
                          end)
  ∧ ∃ r, timers res.2 = timers w ++ [r] ∧ heap res.2 !! r = Some (initState ∪ d).
Proof.
  intros Hc Hp Hd Hs res.
  assert (res = App.init e (initState ∪ d) w) as ->.
  { subst res. unfold App.getInitState, App.twigGet. rewrite Hp.
    unfold default_resolves in Hd. destruct (config e) as [[d'|template]|].
    - by subst.
    - destruct Hd as (text & -> & Hy). by rewrite Hy.
    - done. }
  destruct (init_world e (initState ∪ d) w cur Hc Hs) as (He & Hcur & Ht & Hr).
  split_and!; [done| |eauto].
  eexists. split; [done|]. intros k. rewrite !lookup_union.
  by destruct (initState !! k), (d !! k), (cur !! k).
Qed.

Lemma startup_merges_witness :
  (heap (State.new "#lang=de") !! current (State.new "#lang=de") = Some (∅ : obj)
   ∧ Codec.parse (parameters (State.new "#lang=de")) (hash (State.new "#lang=de")) None
     = Ok {[ "lang" := VStr "de" ]}
   ∧ default_resolves Case.env_default {[ "lang" := VStr "de" ]}
       {[ "lang" := VStr "en"; "layer" := VStr "osm" ]}
   ∧ App.all_settled (init_promises Case.env_default) = Ok tt)
  ∧ (App.getInitState Case.env_default (State.new "#lang=de")).1
    = [StateApply ({[ "lang" := VStr "de" ]}
                   ∪ {[ "lang" := VStr "en"; "layer" := VStr "osm" ]})].
Proof.
  assert (Codec.parse (parameters (State.new "#lang=de")) (hash (State.new "#lang=de"))
            None = Ok {[ "lang" := VStr "de" ]}) as H2 by (vm_compute; reflexivity).
  split; [split_and!; [reflexivity|exact H2|reflexivity|reflexivity]|].
  exact (proj1 (startup_merges_url_over_default Case.env_default (State.new "#lang=de")
                  ∅ _ _ eq_refl H2 eq_refl eq_refl)).
Defined.

(** X19: when the default state is a template that fails for the state
    of the URL, start-up ends with one alert and nothing else: no state is
    applied and the store is untouched. A render error and a YAML error
    show their message; a compile error reaches the callback as a string,
    which has no [message], so that the alert shows [undefined]. *)
Theorem default_template_failure_is_alerted (e : env) (w : world)
    (initState : obj) (msg : string) :
  Codec.parse (parameters w) (hash w) None = Ok initState →
  default_fails e initState msg →
  App.getInitState e w = ([Alert msg], w).
Proof.
  intros Hp (template & Hd & Hf). unfold App.getInitState, App.twigGet.
  rewrite Hp, Hd.
  destruct (twig e template initState) as [m|m|text]; simpl; try by subst.
  destruct Hf as (err & -> & ->). done.
Qed.

Lemma default_template_failure_witness :
  (Codec.parse (parameters (State.new "")) (hash (State.new "")) None = Ok ∅
   ∧ default_fails Case.env_template ∅ "undefined")
  ∧ App.getInitState Case.env_template (State.new "")
    = ([Alert "undefined"], State.new "").
Proof.
  assert (Codec.parse (parameters (State.new "")) (hash (State.new "")) None = Ok ∅)
    as H1 by (vm_compute; reflexivity).
  assert (default_fails Case.env_template ∅ "undefined") as H2
    by (exists "{{"; split; reflexivity).
  split; [by split|].
  exact (default_template_failure_is_alerted Case.env_template (State.new "") ∅
           "undefined" H1 H2).
Defined.

(** X20: when one of the promises the handlers of 'init' pushed is
    rejected, [init] shows the message of a rejected promise and does
    nothing else: no state is applied, no object is made and no timer is
    set. The handler that forwards 'get' to the App stays registered. *)
Theorem rejected_init_promise_blocks_apply (e : env) (s : obj) (w : world) :
  (∃ err, Throw err ∈ init_promises e) →
  ∃ err, Throw err ∈ init_promises e
    ∧ (App.init e s w).1 = [Alert (message err)]
    ∧ heap (App.init e s w).2 = heap w
    ∧ timers (App.init e s w).2 = timers w
    ∧ get_listeners (App.init e s w).2
      = get_listeners w ++ [State.emit_get (state_get_listeners e)].
Proof.
  intros [err0 Hin]. unfold App.init.
  destruct (App.all_settled (init_promises e)) as [u|err] eqn:Hs.
  - by destruct (proj1 (all_settled_ok _ _) Hs err0).
  - exists err. split; [by apply all_settled_throw|]. done.
Qed.

Lemma rejected_init_promise_witness :
  (∃ err, Throw err ∈ init_promises Case.env_rejected)
  ∧ ∃ err, Throw err ∈ init_promises Case.env_rejected
      ∧ (App.init Case.env_rejected ∅ (State.new "")).1 = [Alert (message err)]
      ∧ heap (App.init Case.env_rejected ∅ (State.new "")).2 = heap (State.new "")
      ∧ timers (App.init Case.env_rejected ∅ (State.new "")).2 = timers (State.new "")
      ∧ get_listeners (App.init Case.env_rejected ∅ (State.new "")).2
        = get_listeners (State.new "")
          ++ [State.emit_get (state_get_listeners Case.env_rejected)].
Proof.
  assert (∃ err, Throw err ∈ init_promises Case.env_rejected) as H
    by (exists (Error "no data"); right; left).
  split; [exact H|].
  exact (rejected_init_promise_blocks_apply Case.env_rejected ∅ (State.new "") H).
Defined.

(** X21: what [getInitState] sees of [twigGet] is what the function
    does when it is called with a callback as third argument on a
    template that is not in the cache (and is no inherited name): the one
    call of the callback carries the compile error as a string, the
    render error as an Error, or the trimmed text. The context
    [{ state }] is represented by the state it holds. *)
Theorem getInitState_sees_twigGet_callback
    (compile : TwigGet.twig_options → result TwigGet.compiled)
    (cache : gmap string TwigGet.compiled) (e : env) (text : string) (state : obj)
    (cb : TwigGet.callback) :
  text ∉ TwigGet.inherited →
  cache !! text = None →
  twig e text state = outcome_of compile text state →
  received <$> TwigGet.calls
                 (TwigGet.twigGet compile cache (VStr text) state (TwigGet.Callback cb) None)
  = [App.twigGet e text state].
Proof.
  intros Hin Hnone He. unfold App.twigGet, TwigGet.twigGet. rewrite He.
  rewrite (known_new _ _ Hin Hnone). unfold outcome_of. simpl.
  destruct (compile _) as [tpl|err]; [|done].
  rewrite (render_compiled _ _ tpl) by apply lookup_insert_eq.
  by destruct (tpl state).
Qed.

Lemma getInitState_sees_twigGet_witness :
  (("hi" ∉ TwigGet.inherited)
   ∧ (∅ : gmap string TwigGet.compiled) !! "hi" = None
   ∧ twig (Env [] (Some (DefaultTemplate "hi")) (outcome_of Case.echo) (λ _, Ok ∅) [] [])
       "hi" ∅
     = outcome_of Case.echo "hi" ∅)
  ∧ received <$> TwigGet.calls
                   (TwigGet.twigGet Case.echo ∅ (VStr "hi") ∅
                      (TwigGet.Callback (λ _, None)) None)
    = [App.twigGet (Env [] (Some (DefaultTemplate "hi")) (outcome_of Case.echo) (λ _, Ok ∅) [] [])
         "hi" ∅].
Proof.
  split; [split_and!; [apply sample_name_not_inherited|apply lookup_empty|reflexivity]|].
  exact (getInitState_sees_twigGet_callback Case.echo ∅
           (Env [] (Some (DefaultTemplate "hi")) (outcome_of Case.echo) (λ _, Ok ∅) [] [])
           "hi" ∅ (λ _, None) sample_name_not_inherited (lookup_empty _) eq_refl).
Defined.

(** ** The position in the URL *)

(** *** The digits [toFixed] writes *)









Lemma coord_lacks c s : coord c = false → sforall coord s = true → lacks c s.
Proof.
  intros Hc. unfold lacks. induction s as [|x s IH]; simpl; [done|].
  rewrite andb_true_iff. intros [Hx Hs]. rewrite (IH Hs), orb_false_r.
  destruct (Str.eqb_ascii c x) eqn:He; [|done].
  apply Ascii.eqb_eq in He as ->. congruence.
Qed.

Lemma coord_nospace s : sforall coord s = true → sforall nospace s = true.
Proof.
  apply sforall_impl. intros c. unfold coord, nospace, is_digit.
  destruct c as [[] [] [] [] [] [] [] []]; done.
Qed.

Lemma decode_lacks s : lacks "%" s → QueryString.decode s = s.
Proof.
  unfold lacks. induction s as [|c s IH]; [done|]. intros H.
  change (Str.mem "%" (String c s)) with (Str.eqb_ascii "%" c || Str.mem "%" s) in H.
  apply orb_false_iff in H as [Hc Hs]. unfold Str.eqb_ascii in Hc.
  rewrite Ascii.eqb_sym in Hc. simpl. unfold Str.eqb_ascii. rewrite Hc.
  by rewrite (IH Hs).
Qed.

Lemma position_text (z la lo : string) :
  sforall coord z = true → sforall coord la = true → sforall coord lo = true →
  let rest := z +:+ "/" +:+ la +:+ "/" +:+ lo in
  (∀ c, coord c = false → c ≠ "/"%char → lacks c rest)
  ∧ sforall nospace rest = true
  ∧ Str.split "/" rest = [z; la; lo]
  ∧ rest ≠ "auto".
Proof.
  intros Hz Hla Hlo rest. split_and!.
  - intros c Hc Hne. subst rest.
    change ("/" +:+ la +:+ "/" +:+ lo) with (String "/" (la +:+ String "/" lo)).
    rewrite lacks_app. split; [by apply coord_lacks|].
    unfold lacks. simpl. rewrite eqb_ascii_false by done. simpl.
    apply lacks_app. split; [by apply coord_lacks|].
    unfold lacks. simpl. rewrite eqb_ascii_false by done. simpl.
    by apply coord_lacks.
  - subst rest.
    change ("/" +:+ la +:+ "/" +:+ lo) with (String "/" (la +:+ String "/" lo)).
    rewrite sforall_app, (coord_nospace z Hz). simpl.
    rewrite sforall_app, (coord_nospace la Hla). simpl.
    by rewrite (coord_nospace lo Hlo).
  - subst rest.
    change ("/" +:+ la +:+ "/" +:+ lo) with (String "/" (la +:+ String "/" lo)).
    rewrite split_app by (by apply coord_lacks).
    rewrite split_app by (by apply coord_lacks).
    by rewrite split_lacks by (by apply coord_lacks).
  - intros Heq. assert (lacks "/" rest) as H by (by rewrite Heq).
    subst rest. apply lacks_app in H as [_ H]. by vm_compute in H.
Qed.

Lemma parse_map_text (params : formatters) (h z la lo : string) :
  sforall coord z = true → sforall coord la = true → sforall coord lo = true →
  Codec.parse params h (Some ("map=" +:+ z +:+ "/" +:+ la +:+ "/" +:+ lo))
  = Ok (format_with Formatter.parse params
          {[ "zoom" := VNum (Num.parseFloat z); "lat" := VNum (Num.parseFloat la);
             "lon" := VNum (Num.parseFloat lo) ]}).
Proof.
  intros Hz Hla Hlo.
  destruct (position_text z la lo Hz Hla Hlo) as (Hlacks & Hns & Hsplit & Hauto).
  set (rest := z +:+ "/" +:+ la +:+ "/" +:+ lo) in *.
  assert (lacks "&" ("map=" +:+ rest)) as Hamp
    by (apply lacks_app; split; [done|by apply Hlacks]).
  unfold Codec.parse. change (Str.is_empty ("map=" +:+ rest)) with false. cbv iota.
  assert (Codec.split_link ("map=" +:+ rest) = ("", "map=" +:+ rest)) as ->.
  { unfold Codec.split_link. change (Str.is_empty ("map=" +:+ rest)) with false.
    rewrite (search_lacks "&" _ Hamp).
    change ("map=" +:+ rest) with ("map" +:+ String "=" rest).
    by rewrite (search_at "=" "map" rest eq_refl). }
  assert (QueryString.parse ("map=" +:+ rest) = {[ "map" := VStr rest ]}) as ->.
  { assert (lacks "+" ("map=" +:+ rest)) as Hplus
      by (apply lacks_app; split; [done|by apply Hlacks]).
    assert (QueryString.parse_param ∅ ("map=" +:+ rest) = {[ "map" := VStr rest ]}) as Hpar.
    { unfold QueryString.parse_param.
      change (Str.is_empty ("map=" +:+ rest)) with false. cbv iota.
      rewrite (map_char_lacks _ _ _ Hplus).
      unfold QueryString.splitOnFirst.
      change ("map=" +:+ rest) with ("map" +:+ String "=" rest).
      rewrite (search_at "=" "map" rest eq_refl). simpl Z.eqb. cbv iota.
      rewrite (substr_to_app "map"), (substr_from_app "map").
      rewrite (decode_lacks rest) by (by apply Hlacks).
      done. }
    unfold QueryString.parse.
    rewrite trim_nospace by (by rewrite sforall_app, Hns).
    change (QueryString.strip_prefix_char ("map=" +:+ rest)) with ("map=" +:+ rest).
    change (Str.is_empty ("map=" +:+ rest)) with false. cbv iota.
    rewrite (split_lacks "&" _ Hamp). exact Hpar. }
  simpl Str.is_empty. cbv iota.
  unfold mbind at 1, result_bind at 1, rbind at 1.
  unfold Codec.expand_map. rewrite lookup_singleton_eq.
  rewrite decide_False by (intros [= H]; by apply Hauto).
  rewrite Hsplit. unfold mbind, result_bind, rbind. reflexivity.
Qed.

(** X22: a link [map=z/lat/lon] whose three parts are written with
    digits, [-] and [.] is read as the three numbers: the state has
    [zoom], [lat] and [lon], each what [parseFloat] makes of its part, and
    no [map]; the parsers registered for the three keys then see
    numbers. *)
Theorem parse_map_link (params : formatters) (h z la lo : string) :
  sforall coord z = true → sforall coord la = true → sforall coord lo = true →
  Codec.parse params h (Some ("map=" +:+ z +:+ "/" +:+ la +:+ "/" +:+ lo))
  = Ok (format_with Formatter.parse params
          {[ "zoom" := VNum (Num.parseFloat z); "lat" := VNum (Num.parseFloat la);
             "lon" := VNum (Num.parseFloat lo) ]}).
Proof. exact (parse_map_text params h z la lo). Qed.

Lemma parse_map_link_witness :
  (sforall coord "17" = true ∧ sforall coord "1.5" = true
   ∧ sforall coord "-2.5" = true)
  ∧ Codec.parse ∅ "" (Some "map=17/1.5/-2.5")
    = Ok {[ "zoom" := VNum (Dec 17 0); "lat" := VNum (Dec 15 1);
            "lon" := VNum (Dec (-25) 1) ]}.
Proof.
  split; [split_and!; reflexivity|].
  pose proof (parse_map_link ∅ "" "17" "1.5" "-2.5" eq_refl eq_refl eq_refl) as H.
  vm_compute in H. vm_compute. exact H.
Defined.








(** The specification's example with the longitude negated: what is
    written, and what is read back. *)
Example position_round_trip_zoom17 :
  Codec.stringify ∅ (position (VNum (Dec 17 0)) (Dec 1123456789 9) (Dec (-2987654321) 9))
  = Ok "map=17/1.12346/-2.98765"
  ∧ Codec.parse ∅ "" (Some "map=17/1.12346/-2.98765")
    = Ok {[ "zoom" := VNum (Dec 17 0); "lat" := VNum (Dec 112346 5);
            "lon" := VNum (Dec (-298765) 5) ]}.
Proof. split; vm_compute; reflexivity. Qed.

(** *** Formatters on the way in *)

(** X24: the parsers of registered formatters work on what [parse] has
    read and change nothing else: [parse] throws exactly when it throws
    without formatters, and otherwise its result has the keys of the
    state read without formatters, a truthy value with a registered
    parser replaced by the parser's result and every other value (a
    falsy one, or one without parser) as it was read. *)
Theorem parse_formats_what_it_read (params : formatters) (h : string)
    (link : option string) :
  match Codec.parse ∅ h link with
  | Ok raw =>
      ∃ st, Codec.parse params h link = Ok st
            ∧ ∀ k, st !! k = formatted_value Formatter.parse params k <$> raw !! k
  | Throw e => Codec.parse params h link = Throw e
  end.
Proof.
  unfold Codec.parse.
  destruct (Codec.split_link _) as [p q].
  destruct (if Str.is_empty p then _ else _) as [o|e];
    unfold mbind, result_bind, rbind; [|done].
  destruct (Codec.expand_map o) as [o'|e]; [|done].
  rewrite (format_with_id Formatter.parse ∅ o') by (intros k _; apply lookup_empty).
  eexists. split; [done|]. intros k. apply format_with_lookup.
Qed.

Example parse_applies_parser :
  Codec.parse {[ "n" := Formatter.make None (Some (λ v, VNum (JS.parseFloat v))) ]} ""
    (Some "n=12&m=3&k=")
  = Ok {[ "n" := VNum (Dec 12 0); "m" := VStr "3"; "k" := VStr "" ]}.
Proof. vm_compute. reflexivity. Qed.
